(** * SecureID: the Secure-QR decoder ([src/lib/secure-qr-decoder.ts])

    A shallow embedding of the pure part of [SecureQRDecoder]: the byte codec
    ([convertBase10ToByteArray]), the field parser ([extractDataFields]) and
    the date/age deriver ([parseDateOfBirth], [calculateAge]), together with
    the JavaScript built-ins these methods call; then the pipeline around
    them ([processSecureQRData], [decompressData]), two of the image filters,
    and from [src/lib/zk-proofs.ts] the second processor ([processQrData]
    and its helpers) and [hashString].

    Conventions.
    - A [Uint8Array] is a [list byte].
    - A JavaScript string is a [string]: every string the decoder inspects is
      either produced by [bytesToString] (code units 0..255) or compared
      against ASCII text, so code units above 255 are left out.
    - A JavaScript Number is a [JS.Number]; the two zeros are identified
      (no operation of the decoder tells them apart).
    - [undefined] is [None]; an exception caught and re-thrown by a method is
      the [inr] of its result. *)

From Stdlib Require Import ZArith List String Ascii Lia Bool.
From Stdlib Require Import Strings.Byte.
From stdpp Require Import base list strings.
Import ListNotations.

Local Open Scope Z_scope.

(** ** JavaScript built-ins *)

Module JS.

(** Numbers that the decoder can observe: every Number it handles is the
    result of [Number.parseInt], of integer arithmetic on such results, or a
    literal, hence NaN, an infinity, or an integral double. *)
Inductive Number : Type :=
| NaN
| Infinity (negative : bool)
| Finite (z : Z).

Definition isNaN (x : Number) : bool :=
  match x with NaN => true | _ => false end.

(** [x === y] on Numbers. *)
Definition strictEq (x y : Number) : bool :=
  match x, y with
  | Finite a, Finite b => a =? b
  | Infinity s, Infinity t => Bool.eqb s t
  | _, _ => false
  end.

(** The Number value of a mathematical integer: IEEE 754 binary64, round to
    nearest, ties to even.  Integers of magnitude below 2^53 are exact. *)
Definition ofInteger (z : Z) : Number :=
  let a := Z.abs z in
  if a <? 2 ^ 53 then Finite z
  else
    let e := Z.log2 a - 52 in
    let q := a / 2 ^ e in
    let r := a mod 2 ^ e in
    let half := 2 ^ (e - 1) in
    let q' := if (half <? r) || ((r =? half) && Z.odd q) then q + 1 else q in
    let m := q' * 2 ^ e in
    if 2 ^ 1024 <=? m then Infinity (z <? 0) else Finite (Z.sgn z * m).

(** [x - y] for the one subtraction the decoder performs on a parsed
    Number ([month - 1]). *)
Definition sub (x y : Number) : Number :=
  match x, y with
  | NaN, _ | _, NaN => NaN
  | Finite a, Finite b => ofInteger (a - b)
  | Infinity s, Finite _ => Infinity s
  | Finite _, Infinity t => Infinity (negb t)
  | Infinity s, Infinity t => if Bool.eqb s t then NaN else Infinity s
  end.

(** White space and line terminators (ECMA-262 [StrWhiteSpaceChar]) among
    the code units 0..255: TAB, LF, VT, FF, CR, SP, NBSP. *)
Definition isWhiteSpace (c : ascii) : bool :=
  let n := N_of_ascii c in
  (((9 <=? n) && (n <=? 13)) || (n =? 32) || (n =? 160))%N.

Fixpoint trimStart (s : string) : string :=
  match s with
  | EmptyString => EmptyString
  | String c s' => if isWhiteSpace c then trimStart s' else s
  end.

Fixpoint trimEnd (s : string) : string :=
  match s with
  | EmptyString => EmptyString
  | String c s' =>
      match trimEnd s' with
      | EmptyString => if isWhiteSpace c then EmptyString else String c EmptyString
      | t => String c t
      end
  end.

(** [String.prototype.trim] *)
Definition trim (s : string) : string := trimEnd (trimStart s).

(** Value of a code unit as a digit: 0-9, then a-z / A-Z for 10..35. *)
Definition digitValue (c : ascii) : option Z :=
  let n := Z.of_N (N_of_ascii c) in
  if (48 <=? n) && (n <=? 57) then Some (n - 48)
  else if (97 <=? n) && (n <=? 122) then Some (n - 87)
  else if (65 <=? n) && (n <=? 90) then Some (n - 55)
  else None.

Definition isRadixDigit (R : Z) (c : ascii) : bool :=
  match digitValue c with Some d => d <? R | None => false end.

(** The longest prefix of [s] made of radix-[R] digits, as digit values. *)
Fixpoint radixDigits (R : Z) (s : string) : list Z :=
  match s with
  | EmptyString => []
  | String c s' =>
      match digitValue c with
      | Some d => if d <? R then d :: radixDigits R s' else []
      | None => []
      end
  end.

(** The integer denoted by a digit sequence, most significant first. *)
Definition radixValue (R : Z) (ds : list Z) : Z :=
  fold_left (fun acc d => acc * R + d) ds 0.

Definition stripHexPrefix (s : string) : string :=
  match s with
  | String "0" (String "x" s') => s'
  | String "0" (String "X" s') => s'
  | _ => s
  end.

(** [Number.parseInt(string, radix)] for an explicit radix in 2..36
    (ECMA-262, 19.2.5): skip leading white space, read an optional sign,
    strip [0x] when the radix is 16, read the longest run of digits, and
    return NaN when it is empty.  For radix 10 an engine may replace digits
    after the 20th significant one by zeros; like V8 this model keeps them. *)
Definition parseInt (s : string) (R : Z) : Number :=
  let S0 := trimStart s in
  let '(sign, S1) :=
    match S0 with
    | String "-" s' => (-1, s')
    | String "+" s' => (1, s')
    | _ => (1, S0)
    end in
  let S2 := if R =? 16 then stripHexPrefix S1 else S1 in
  match radixDigits R S2 with
  | [] => NaN
  | ds => ofInteger (sign * radixValue R ds)
  end.

(** Relative index of [%TypedArray%.prototype.slice]. *)
Definition relativeIndex (len rel : Z) : Z :=
  if rel <? 0 then Z.max (len + rel) 0 else Z.min rel len.

(** [a.slice(start, end)] on a typed array. *)
Definition slice {A : Type} (a : list A) (start end_ : Z) : list A :=
  let len := Z.of_nat (length a) in
  let k := relativeIndex len start in
  let final := relativeIndex len end_ in
  let count := Z.max (final - k) 0 in
  take (Z.to_nat count) (drop (Z.to_nat k) a).

(** [String.prototype.substring(start, end)] with non-negative arguments. *)
Definition substring (s : string) (start end_ : nat) : string :=
  let len := String.length s in
  let a := Nat.min start len in
  let b := Nat.min end_ len in
  String.substring (Nat.min a b) (Nat.max a b - Nat.min a b) s.

(** Storing a Number into a [Uint8Array] element ([ToUint8]). *)
Definition toUint8 (x : Number) : byte :=
  match x with
  | Finite z => default x00 (Byte.of_N (Z.to_N (z mod 256)))
  | _ => x00
  end.

End JS.

(** ** Arbitrary-precision integers: [BigInt(string)] and [toString(16)] *)

Module JSBigInt.

(** A non-empty run of radix-[R] digits, and nothing else. *)
Definition isDigits (R : Z) (s : string) : bool :=
  match s with
  | EmptyString => false
  | _ => forallb (JS.isRadixDigit R) (list_ascii_of_string s)
  end.

Definition digitsValue (R : Z) (s : string) : option Z :=
  if isDigits R s then Some (JS.radixValue R (JS.radixDigits R s)) else None.

(** The value of a trimmed [StringIntegerLiteral] (ECMA-262, 7.1.14): the
    empty text (value 0), decimal digits with an optional sign, or an
    unsigned literal with prefix [0x], [0o] or [0b]. *)
Definition literalValue (text : string) : option Z :=
  match text with
  | EmptyString => Some 0
  | String "0" (String "x" s) | String "0" (String "X" s) => digitsValue 16 s
  | String "0" (String "o" s) | String "0" (String "O" s) => digitsValue 8 s
  | String "0" (String "b" s) | String "0" (String "B" s) => digitsValue 2 s
  | String "-" s => Z.opp <$> digitsValue 10 s
  | String "+" s => digitsValue 10 s
  | s => digitsValue 10 s
  end.

(** [StringToBigInt]; [None] is the SyntaxError thrown by [BigInt(str)]. *)
Definition StringToBigInt (str : string) : option Z :=
  literalValue (JS.trim str).

(** Digits of [n > 0] in radix [R], most significant first, pushed in front
    of [acc]; [fuel] bounds the number of digits. *)
Fixpoint toDigits (fuel : nat) (R n : Z) (acc : list Z) : list Z :=
  match fuel with
  | O => acc
  | S fuel' => if n <=? 0 then acc else toDigits fuel' R (n / R) (n mod R :: acc)
  end.

(** A number below [2 ^ k] has at most [k] digits in any radix above 1. *)
Definition digitsOf (R n : Z) : list Z :=
  toDigits (S (Z.to_nat (Z.log2 n))) R n [].

Definition digitChar (d : Z) : ascii :=
  ascii_of_N (Z.to_N (if d <? 10 then 48 + d else 87 + d)).

Definition digitString (ds : list Z) : string :=
  string_of_list_ascii (map digitChar ds).

(** [BigInt.prototype.toString(radix)] *)
Definition toString (x R : Z) : string :=
  if x =? 0 then "0"%string
  else if x <? 0 then String "-" (digitString (digitsOf R (- x)))
  else digitString (digitsOf R x).

End JSBigInt.

(** ** Dates (ECMA-262, 21.4.1)

    A Date object is represented by its time value: milliseconds since the
    epoch, or [None] for an invalid Date.  The local time zone is taken to
    have a constant offset from UTC. *)

Module JSDate.

Definition msPerDay : Z := 86400000.

Definition Day (t : Z) : Z := t / msPerDay.
Definition TimeWithinDay (t : Z) : Z := t mod msPerDay.

Definition DayFromYear (y : Z) : Z :=
  365 * (y - 1970) + (y - 1969) / 4 - (y - 1901) / 100 + (y - 1601) / 400.

Definition DaysInYear (y : Z) : Z := DayFromYear (y + 1) - DayFromYear y.

(** The largest [y] with [DayFromYear y <= d], by 400-, 100-, 4- and 1-year
    cycles counted from 1 January 1601 (day -134774). *)
Definition YearFromDay (d : Z) : Z :=
  let n := d + 134774 in
  let era := n / 146097 in
  let doe := n mod 146097 in
  let c := Z.min (doe / 36524) 3 in
  let r := doe - c * 36524 in
  let q := r / 1461 in
  let a := Z.min ((r mod 1461) / 365) 3 in
  1601 + 400 * era + 100 * c + 4 * q + a.

Definition YearFromTime (t : Z) : Z := YearFromDay (Day t).

Definition leapDays (y : Z) : Z := DaysInYear y - 365.

Definition DayWithinYear (t : Z) : Z := Day t - DayFromYear (YearFromTime t).

Definition MonthFromTime (t : Z) : Z :=
  let d := DayWithinYear t in
  let l := leapDays (YearFromTime t) in
  if d <? 31 then 0
  else if d <? 59 + l then 1
  else if d <? 90 + l then 2
  else if d <? 120 + l then 3
  else if d <? 151 + l then 4
  else if d <? 181 + l then 5
  else if d <? 212 + l then 6
  else if d <? 243 + l then 7
  else if d <? 273 + l then 8
  else if d <? 304 + l then 9
  else if d <? 334 + l then 10
  else 11.

(** Days of the year before the first day of month [m] (0..11). *)
Definition daysBeforeMonth (m l : Z) : Z :=
  if m =? 0 then 0
  else if m =? 1 then 31
  else if m =? 2 then 59 + l
  else if m =? 3 then 90 + l
  else if m =? 4 then 120 + l
  else if m =? 5 then 151 + l
  else if m =? 6 then 181 + l
  else if m =? 7 then 212 + l
  else if m =? 8 then 243 + l
  else if m =? 9 then 273 + l
  else if m =? 10 then 304 + l
  else 334 + l.

Definition DateFromTime (t : Z) : Z :=
  DayWithinYear t
  - daysBeforeMonth (MonthFromTime t) (leapDays (YearFromTime t)) + 1.

Definition MakeDay (year month date : Z) : Z :=
  let ym := year + month / 12 in
  let mn := month mod 12 in
  DayFromYear ym + daysBeforeMonth mn (leapDays ym) + date - 1.

Definition MakeDate (day time : Z) : Z := day * msPerDay + time.

Definition TimeClip (t : Z) : option Z :=
  if 8640000000000000 <? Z.abs t then None else Some t.

Section LocalTime.
(** Offset of local time from UTC, in milliseconds. *)
Variable LocalTZA : Z.

Definition LocalTime (t : Z) : Z := t + LocalTZA.
Definition UTC (t : Z) : Z := t - LocalTZA.

Definition getFullYear (t : Z) : Z := YearFromTime (LocalTime t).
Definition getMonth (t : Z) : Z := MonthFromTime (LocalTime t).
Definition getDate (t : Z) : Z := DateFromTime (LocalTime t).

(** [new Date(year, monthIndex, day)] on Numbers: a year in 0..99 means
    1900 + year; a non-finite argument or a result outside the time
    range gives an invalid Date.  The day number is computed exactly, which
    is what engines do for arguments of calendar size. *)
Definition fromComponents (year month day : JS.Number) : option Z :=
  match year, month, day with
  | JS.Finite y, JS.Finite m, JS.Finite d =>
      let yr := if (0 <=? y) && (y <=? 99) then 1900 + y else y in
      TimeClip (UTC (MakeDate (MakeDay yr m d) 0))
  | _, _, _ => None
  end.

(** [d.setFullYear(year)] on a valid Date [t]; the new time value. *)
Definition setFullYear (t year : Z) : option Z :=
  let lt := LocalTime t in
  let newDate := MakeDay year (MonthFromTime lt) (DateFromTime lt) in
  TimeClip (UTC (MakeDate newDate (TimeWithinDay lt))).
End LocalTime.

End JSDate.

(** ** String helpers of the date parser *)

Module JSString.

(** [s.includes(c)] for a one-character pattern. *)
Fixpoint includes (s : string) (c : ascii) : bool :=
  match s with
  | EmptyString => false
  | String a s' => Ascii.eqb a c || includes s' c
  end.

(** [s.split(c)] for a one-character separator. *)
Fixpoint split (s : string) (c : ascii) : list string :=
  match s with
  | EmptyString => [EmptyString]
  | String a s' =>
      if Ascii.eqb a c then EmptyString :: split s' c
      else match split s' c with
           | [] => [String a EmptyString]
           | p :: ps => String a p :: ps
           end
  end.

(** [s.padStart(n, "0")] *)
Definition padStart0 (s : string) (n : nat) : string :=
  string_of_list_ascii (replicate (n - String.length s) "0"%char) +:+ s.

End JSString.

(** ** The decoder *)

(** What the decoder reads from its host: the local time-zone offset, the
    engine's parser behind [new Date(string)] (implementation-defined for the
    formats that reach it), and the successive readings of the clock by
    [new Date()]. *)
Record Host : Type := {
  LocalTZA : Z;
  Date_parse : string -> option Z;
  now : nat -> Z
}.

(** The [Error] a method re-throws from its [catch] block. *)
Inductive Error : Type :=
| FailedToConvert            (* "Failed to convert base10 to byte array: ..." *)
| FailedToExtract (currentIndex : Z).
                             (* "Failed to extract data fields: ... (at index n)" *)

(** The object built by [extractDataFields]; a property that was never
    assigned, or was assigned [undefined], is [None]. *)
Record IdentityRecord : Type := {
  emailMobilePresent : JS.Number;
  referenceId : option string;
  name : option string;
  dateOfBirth : option string;
  gender : option string;
  careOf : option string;
  district : option string;
  landmark : option string;
  house : option string;
  location : option string;
  pinCode : option string;
  postOffice : option string;
  state : option string;
  street : option string;
  subDistrict : option string;
  vtc : option string;
  mobileHash : option string;
  emailHash : option string;
  photo : list byte;
  signature : list byte;
  age : option Z;
  isAdult : option bool
}.

Module SecureQRDecoder.

(** *** Byte codec *)

(** The loop [for (i = 0; i < byteArray.length; i++) byteArray[i] = ...]
    over the zero-filled array of [hexString.length / 2] bytes. *)
Definition convertBase10ToByteArray (base10String : string) : list byte + Error :=
  match JSBigInt.StringToBigInt base10String with
  | None => inr FailedToConvert
  | Some bigInt =>
      let hexString := JSBigInt.toString bigInt 16 in
      let hexString :=
        if negb (String.length hexString mod 2 =? 0)%nat
        then String "0" hexString else hexString in
      let byteArray := replicate (String.length hexString / 2)%nat x00 in
      inl (fold_left
             (fun byteArray i =>
                let byteValue :=
                  JS.parseInt (JS.substring hexString (i * 2) (i * 2 + 2)) 16 in
                <[i := JS.toUint8 byteValue]> byteArray)
             (seq 0 (length byteArray)) byteArray)
  end.

(** *** Conversions *)

(** One code unit per byte ([String.fromCharCode]). *)
Fixpoint bytesToString (bytes : list byte) : string :=
  match bytes with
  | [] => EmptyString
  | b :: bytes' => String (ascii_of_byte b) (bytesToString bytes')
  end.

(** [byte.toString(16).padStart(2, "0")]; on the integers 0..255 the
    digits of [Number.prototype.toString] are those of [BigInt]. *)
Definition byteToHex (b : byte) : string :=
  JSString.padStart0 (JSBigInt.toString (Z.of_N (Byte.to_N b)) 16) 2.

(** [Array.from(bytes).map(...)] joined with the empty separator. *)
Definition bytesToHexString (bytes : list byte) : string :=
  fold_right (fun b acc => byteToHex b +:+ acc) EmptyString bytes.

(** *** Field parser, first pass (lines 352-373) *)

Definition DELIMITER : byte := xff.

(** The inner loop: from [endIndex], advance to the next delimiter or to
    the end of the array; [rest] is the array from [endIndex] on. *)
Fixpoint findDelimiter (rest : list byte) (endIndex : nat) : nat :=
  match rest with
  | [] => endIndex
  | b :: rest' =>
      if Byte.eqb b DELIMITER then endIndex else findDelimiter rest' (S endIndex)
  end.

(** The outer loop; it returns the field values and the final [index].
    Every iteration pushes one value and the loop breaks once more than 15
    were pushed, so [fuel = 16] iterations are never exceeded. *)
Fixpoint readLoop (fuel : nat) (byteArray : list byte)
    (index : nat) (fieldValues : list string) : list string * nat :=
  match fuel with
  | O => (fieldValues, index)
  | S fuel' =>
      if (index <? length byteArray)%nat then
        let endIndex := findDelimiter (drop index byteArray) index in
        let fieldBytes := JS.slice byteArray (Z.of_nat index) (Z.of_nat endIndex) in
        let value := bytesToString fieldBytes in
        let fieldValues := fieldValues ++ [value] in
        let index := S endIndex in
        if (15 <? length fieldValues)%nat then (fieldValues, index)
        else readLoop fuel' byteArray index fieldValues
      else (fieldValues, index)
  end.

Definition readFields (byteArray : list byte) : list string * nat :=
  readLoop 16 byteArray 0 [].

Definition readFieldValues (byteArray : list byte) : list string :=
  fst (readFields byteArray).

(** *** Anomaly correction (lines 377-398) *)

(** [for (i = 1; i < fieldValues.length - 1; i++) fieldValues[i] = fieldValues[i + 1]] *)
Definition shiftFields (fieldValues : list string) : list string :=
  fold_left
    (fun fieldValues i =>
       match fieldValues !! S i with
       | Some v => <[i := v]> fieldValues
       | None => fieldValues
       end)
    (seq 1 (length fieldValues - 2)) fieldValues.

Definition isThree (v : option string) : bool :=
  match v with Some s => String.eqb s "3" | None => false end.

(** The indicator, the [fieldShift] flag and the field values after the
    correction; [first] is [fieldValues[0]]. *)
Definition correctFields (first : string) (fieldValues : list string)
    : JS.Number * bool * list string :=
  let firstFieldValue := JS.trim first in
  let parsedFirstValue := JS.parseInt firstFieldValue 10 in
  let secondFieldValue := fieldValues !! 1%nat in
  if JS.isNaN parsedFirstValue && isThree secondFieldValue then
    (JS.Finite 3, true, shiftFields fieldValues)
  else
    (if JS.isNaN parsedFirstValue then JS.Finite 0 else parsedFirstValue,
     false, fieldValues).

(** *** End of the text fields (lines 424-428) *)

Definition textFieldsEnd (fieldValues : list string) : Z :=
  fold_left (fun currentIndex v => currentIndex + (Z.of_nat (String.length v) + 1))
    fieldValues 0.

(** *** Binary tail (lines 433-485): mobile hash, email hash, photo *)

Definition SIGNATURE_SIZE : Z := 256.

Definition binaryTail (byteArray : list byte) (emailMobilePresent : JS.Number)
    (fieldShift : bool) (currentIndex : Z)
    : option string * option string * list byte :=
  let dataLength := Z.of_nat (length byteArray) in
  let signatureStartIndex := dataLength - SIGNATURE_SIZE in
  if JS.strictEq emailMobilePresent (JS.Finite 3) || fieldShift then
    let mobileStartIndex := signatureStartIndex - 32 in
    let emailStartIndex := mobileStartIndex - 32 in
    (Some (bytesToHexString (JS.slice byteArray mobileStartIndex (mobileStartIndex + 32))),
     Some (bytesToHexString (JS.slice byteArray emailStartIndex (emailStartIndex + 32))),
     let photoEndIndex := emailStartIndex in
     JS.slice byteArray currentIndex photoEndIndex)
  else if JS.strictEq emailMobilePresent (JS.Finite 2) then
    let mobileStartIndex := signatureStartIndex - 32 in
    (Some (bytesToHexString (JS.slice byteArray mobileStartIndex (mobileStartIndex + 32))),
     None,
     let photoEndIndex := mobileStartIndex in
     JS.slice byteArray currentIndex photoEndIndex)
  else if JS.strictEq emailMobilePresent (JS.Finite 1) then
    let emailStartIndex := signatureStartIndex - 32 in
    (None,
     Some (bytesToHexString (JS.slice byteArray emailStartIndex (emailStartIndex + 32))),
     let photoEndIndex := emailStartIndex in
     JS.slice byteArray currentIndex photoEndIndex)
  else
    let photoEndIndex := signatureStartIndex in
    (None, None, JS.slice byteArray currentIndex photoEndIndex).

Section WithHost.
Variable host : Host.

Let getFullYear := JSDate.getFullYear (LocalTZA host).
Let getMonth := JSDate.getMonth (LocalTZA host).
Let getDate := JSDate.getDate (LocalTZA host).

(** *** Date/age deriver *)

(** [today] is the reading of [new Date()]. *)
Definition calculateAge (today dob : Z) : Z :=
  let age := getFullYear today - getFullYear dob in
  let monthDiff := getMonth today - getMonth dob in
  if (monthDiff <? 0) || ((monthDiff =? 0) && (getDate today <? getDate dob))
  then age - 1 else age.

(** Lines 538-595: the Date read from the text, before the sanity check.
    A [return null], an invalid Date (on which [toISOString] throws into
    the [catch]) and the [isNaN(dob.getTime())] test all give [None]. *)
Definition readDate (cleanDob : string) : option Z :=
  if JSString.includes cleanDob "/" then
    match JSString.split cleanDob "/" with
    | [p0; p1; p2] =>
        let day := JS.parseInt p0 10 in
        let month := JS.parseInt p1 10 in
        let year := JS.parseInt p2 10 in
        if JS.isNaN day || JS.isNaN month || JS.isNaN year then None
        else JSDate.fromComponents (LocalTZA host) year (JS.sub month (JS.Finite 1)) day
    | _ => None
    end
  else if JSString.includes cleanDob "-" then
    match JSString.split cleanDob "-" with
    | [p0; p1; p2] =>
        let '(day, month, year) :=
          if (String.length p0 =? 4)%nat
          then (JS.parseInt p2 10, JS.parseInt p1 10, JS.parseInt p0 10)
          else (JS.parseInt p0 10, JS.parseInt p1 10, JS.parseInt p2 10) in
        if JS.isNaN day || JS.isNaN month || JS.isNaN year then None
        else JSDate.fromComponents (LocalTZA host) year (JS.sub month (JS.Finite 1)) day
    | _ => None
    end
  else Date_parse host cleanDob.

(** Lines 597-613: [today] and [now'] are the two readings of
    [new Date()]; a comparison with an invalid [minDate] is false. *)
Definition sanityCheck (today now' dob : Z) : option Z :=
  if today <? dob then None
  else
    let maxAge := 120 in
    let minDate := JSDate.setFullYear (LocalTZA host) now' (getFullYear today - maxAge) in
    if match minDate with Some m => dob <? m | None => false end then None
    else Some dob.

Definition parseDateOfBirth (today now' : Z) (dobString : string) : option Z :=
  let cleanDob := JS.trim dobString in
  match readDate cleanDob with
  | None => None
  | Some dob => sanityCheck today now' dob
  end.

(** Lines 488-496: [age] and [isAdult], when [dateOfBirth] is a non-empty
    string that parses. *)
Definition deriveAge (dateOfBirth : option string) : option Z :=
  match dateOfBirth with
  | None | Some EmptyString => None
  | Some s =>
      match parseDateOfBirth (now host 0%nat) (now host 1%nat) s with
      | Some dob => Some (calculateAge (now host 2%nat) dob)
      | None => None
      end
  end.

(** *** Field parser *)

(** [fieldValues[0].trim()] throws on an empty [fieldValues]; the [catch]
    re-throws with the [currentIndex] reached, which is still 0. *)
Definition extractDataFields (byteArray : list byte) : IdentityRecord + Error :=
  let fieldValues := readFieldValues byteArray in
  match fieldValues !! 0%nat with
  | None => inr (FailedToExtract 0)
  | Some first =>
      let '(indicator, fieldShift, fieldValues) := correctFields first fieldValues in
      let currentIndex := textFieldsEnd fieldValues in
      let '(mobile, email, photoBytes) :=
        binaryTail byteArray indicator fieldShift currentIndex in
      let dataLength := Z.of_nat (length byteArray) in
      let signatureStartIndex := dataLength - SIGNATURE_SIZE in
      let years := deriveAge (fieldValues !! 3%nat) in
      inl {| emailMobilePresent := indicator;
             referenceId := fieldValues !! 1%nat;
             name := fieldValues !! 2%nat;
             dateOfBirth := fieldValues !! 3%nat;
             gender := fieldValues !! 4%nat;
             careOf := fieldValues !! 5%nat;
             district := fieldValues !! 6%nat;
             landmark := fieldValues !! 7%nat;
             house := fieldValues !! 8%nat;
             location := fieldValues !! 9%nat;
             pinCode := fieldValues !! 10%nat;
             postOffice := fieldValues !! 11%nat;
             state := fieldValues !! 12%nat;
             street := fieldValues !! 13%nat;
             subDistrict := fieldValues !! 14%nat;
             vtc := if (15 <? length fieldValues)%nat
                    then fieldValues !! 15%nat else None;
             mobileHash := mobile;
             emailHash := email;
             photo := photoBytes;
             signature := JS.slice byteArray signatureStartIndex dataLength;
             age := years;
             isAdult := (fun a => 18 <=? a) <$> years |}
  end.
End WithHost.

(** *** The pipeline (lines 262-334) *)

(** What [pako.inflate] does with an array: it returns the inflated bytes,
    returns [undefined] (on input that stops short), or throws. *)
Inductive Inflated : Type :=
| InflateReturns (bytes : list byte)
| InflateReturnsUndefined
| InflateThrows.

(** The [Error] that [processSecureQRData] re-throws, "Data processing
    failed: ..." with the message of what it caught: an [Error] of the two
    stages, or the TypeError of reading [length] of [undefined]. *)
Inductive ProcessingError : Type :=
| DataProcessingFailed (cause : option Error).

Section Pipeline.
Variable host : Host.
Variable inflate : list byte -> Inflated.

(** The [catch] returns the input itself; [None] is [undefined]. *)
Definition decompressData (compressedData : list byte) : option (list byte) :=
  match inflate compressedData with
  | InflateReturns bytes => Some bytes
  | InflateReturnsUndefined => None
  | InflateThrows => Some compressedData
  end.

Definition processSecureQRData (rawData : string) : IdentityRecord + ProcessingError :=
  match convertBase10ToByteArray rawData with
  | inr e => inr (DataProcessingFailed (Some e))
  | inl byteArray =>
      match decompressData byteArray with
      | None => inr (DataProcessingFailed None)
      | Some decompressedBytes =>
          match extractDataFields host decompressedBytes with
          | inr e => inr (DataProcessingFailed (Some e))
          | inl result => inl result
          end
      end
  end.
End Pipeline.

(** *** Image filters (lines 169-181, 221-255)

    The pixel data of the canvas, a [Uint8ClampedArray] of four bytes per
    pixel; a read out of range gives [undefined] and a write out of range
    does nothing. *)

(** [v < 128 ? 0 : 255]; [undefined < 128] is false. *)
Definition threshold (v : option byte) : byte :=
  match v with
  | Some b => if (Byte.to_N b <? 128)%N then x00 else xff
  | None => xff
  end.

(** [data[k] = data[k] < 128 ? 0 : 255] *)
Definition thresholdAt (data : list byte) (k : nat) : list byte :=
  <[k := threshold (data !! k)]> data.

(** [for (i = 0; i < data.length; i += 4) for (j = 0; j < 3; j++) ...];
    [q] counts the iterations of the outer loop, [i = 4 * q]. *)
Definition applyHighContrast (data : list byte) : list byte :=
  fold_left
    (fun data q =>
       fold_left (fun data j => thresholdAt data (4 * q + j)) (seq 0 3) data)
    (seq 0 ((length data + 3) / 4)) data.

(** Storing a Number into a [Uint8ClampedArray] element, for an integer or
    NaN ([None]). *)
Definition toUint8Clamp (v : option Z) : byte :=
  match v with
  | Some z => default x00 (Byte.of_N (Z.to_N (Z.min 255 (Z.max 0 z))))
  | None => x00
  end.

(** One assignment of the sharpening kernel; an operand out of range makes
    the sum NaN, which [Math.max] and [Math.min] pass on. *)
Definition sharpenAt (original data : list byte) (width i : nat) : list byte :=
  let px k := (fun b => Z.of_N (Byte.to_N b)) <$> original !! k in
  let value :=
    match px i, px (i - width * 4)%nat, px (i - 4)%nat, px (i + 4)%nat,
          px (i + width * 4)%nat with
    | Some c, Some above, Some before, Some after, Some below =>
        Some (Z.min 255 (Z.max 0 (5 * c - above - before - after - below)))
    | _, _, _, _, _ => None
    end in
  <[i := toUint8Clamp value]> data.

(** [width] and [height] are those of the canvas; [original] is a copy of
    the data made before the loops. *)
Definition applySharpen (width height : nat) (data : list byte) : list byte :=
  let original := data in
  fold_left
    (fun data y =>
       fold_left
         (fun data x =>
            let idx := ((y * width + x) * 4)%nat in
            fold_left (fun data c => sharpenAt original data width (idx + c))
              (seq 0 3) data)
         (seq 1 (width - 2)) data)
    (seq 1 (height - 2)) data.

End SecureQRDecoder.

(** ** Further built-ins *)

Module JSMore.

(** [String.prototype.substr(start, length)] with non-negative arguments. *)
Definition substr (s : string) (start length : nat) : string :=
  let size := String.length s in
  let intStart := Nat.min start size in
  let intLength := Nat.min length size in
  let intEnd := Nat.min (intStart + intLength) size in
  String.substring intStart (intEnd - intStart) s.

(** [Number.parseInt(string)] without a radix: radix 10, or 16 after a
    prefix [0x] or [0X]. *)
Definition parseInt (s : string) : JS.Number :=
  let S0 := JS.trimStart s in
  let '(sign, S1) :=
    match S0 with
    | String "-" s' => (-1, s')
    | String "+" s' => (1, s')
    | _ => (1, S0)
    end in
  let '(R, S2) :=
    match S1 with
    | String "0" (String "x" s') => (16, s')
    | String "0" (String "X" s') => (16, s')
    | _ => (10, S1)
    end in
  match JS.radixDigits R S2 with
  | [] => JS.NaN
  | ds => JS.ofInteger (sign * JS.radixValue R ds)
  end.

(** [ToInt32] of an integer. *)
Definition toInt32 (z : Z) : Z := (z + 2 ^ 31) mod 2 ^ 32 - 2 ^ 31.

End JSMore.

(** ** The second processor ([processQrData] and its helpers) *)

Module QrProcessor.

(** The object built by [parseByteArray]. *)
Record QrFields : Type := {
  emailMobileIndicator : JS.Number;
  name : string;
  dob : string;
  gender : string;
  uid : string
}.

(** [if (hex.length % 2)] and [hex.substr(i * 2, 2)] *)
Definition bigIntToByteArray (bigInt : Z) : list byte :=
  let hex := JSBigInt.toString bigInt 16 in
  let hex :=
    if negb (String.length hex mod 2 =? 0)%nat then String "0" hex else hex in
  let byteArray := replicate (String.length hex / 2)%nat x00 in
  fold_left
    (fun byteArray i =>
       <[i := JS.toUint8 (JS.parseInt (JSMore.substr hex (i * 2) 2) 16)]> byteArray)
    (seq 0 (length byteArray)) byteArray.

(** The loop of [findDelimiter] from index [i], over the array from [i] on;
    [None] when it runs to the end. *)
Fixpoint scan (rest : list byte) (i : nat) : option nat :=
  match rest with
  | [] => None
  | b :: rest' => if Byte.eqb b xff then Some i else scan rest' (S i)
  end.

Definition findDelimiter (byteArray : list byte) (startIndex : nat) : nat :=
  match scan (drop startIndex byteArray) startIndex with
  | Some i => i
  | None => length byteArray
  end.

(** [Array.from(bytes).map(...)] joined with the empty separator; the
    [encoding] is not used. *)
Definition bytesToString (bytes : list byte) : string :=
  fold_right append EmptyString
    (map (fun b => String (ascii_of_byte b) EmptyString) bytes).

Definition parseByteArray (byteArray : list byte) : QrFields :=
  let currentIndex := 0%nat in
  let delimiterIndex := findDelimiter byteArray currentIndex in
  let indicatorBytes :=
    JS.slice byteArray (Z.of_nat currentIndex) (Z.of_nat delimiterIndex) in
  let indicator := JSMore.parseInt (bytesToString indicatorBytes) in
  let currentIndex := (delimiterIndex + 1)%nat in
  let nameDelimiterIndex := findDelimiter byteArray currentIndex in
  let name' :=
    bytesToString (JS.slice byteArray (Z.of_nat currentIndex) (Z.of_nat nameDelimiterIndex)) in
  let currentIndex := (nameDelimiterIndex + 1)%nat in
  let dobDelimiterIndex := findDelimiter byteArray currentIndex in
  let dob' :=
    bytesToString (JS.slice byteArray (Z.of_nat currentIndex) (Z.of_nat dobDelimiterIndex)) in
  let currentIndex := (dobDelimiterIndex + 1)%nat in
  let genderDelimiterIndex := findDelimiter byteArray currentIndex in
  let gender' :=
    bytesToString (JS.slice byteArray (Z.of_nat currentIndex) (Z.of_nat genderDelimiterIndex)) in
  let currentIndex := (genderDelimiterIndex + 1)%nat in
  let uidDelimiterIndex := findDelimiter byteArray currentIndex in
  let uid' :=
    bytesToString (JS.slice byteArray (Z.of_nat currentIndex) (Z.of_nat uidDelimiterIndex)) in
  {| emailMobileIndicator := indicator;
     name := name'; dob := dob'; gender := gender'; uid := uid' |}.

(** [None] is the [Error] "Failed to process QR data" of the outer [catch]:
    [BigInt] rejected the text, or [pako.inflate] returned [undefined], whose
    [length] [findDelimiter] cannot read. *)
Definition processQrData (inflate : list byte -> SecureQRDecoder.Inflated)
    (qrData : string) : option QrFields :=
  match JSBigInt.StringToBigInt qrData with
  | None => None
  | Some bigIntValue =>
      let byteArray := bigIntToByteArray bigIntValue in
      let decompressedData :=
        match inflate byteArray with
        | SecureQRDecoder.InflateReturns bytes => Some bytes
        | SecureQRDecoder.InflateReturnsUndefined => None
        | SecureQRDecoder.InflateThrows => Some byteArray
        end in
      parseByteArray <$> decompressedData
  end.

End QrProcessor.

(** ** The commitment helpers ([hashString]) *)

Module ZkProofs.

(** [str] is given by its UTF-16 code units.  In the loop [hash] is an
    int32, so that [(hash << 5) - hash + char] is computed exactly. *)
Definition hashString (str : list Z) : Z :=
  match str with
  | [] => 0
  | _ =>
      let hash :=
        fold_left
          (fun hash char =>
             let hash := JSMore.toInt32 (hash * 2 ^ 5) - hash + char in
             JSMore.toInt32 hash)
          str 0 in
      Z.abs hash
  end.

End ZkProofs.

Import SecureQRDecoder.

(** ** Vocabulary of the statements *)

(** Text that holds no delimiter byte. *)
Definition noDelimiter (t : list byte) : Prop := Forall (fun b => b <> DELIMITER) t.

(** [token0 || 0xFF || token1 || 0xFF || ... || tokenN]: delimiters between
    the tokens only. *)
Fixpoint joined (tokens : list (list byte)) : list byte :=
  match tokens with
  | [] => []
  | [t] => t
  | t :: ts => t ++ DELIMITER :: joined ts
  end.

(** [token0 || 0xFF || ... || tokenN || 0xFF]: a delimiter after every token. *)
Definition delimited (tokens : list (list byte)) : list byte :=
  concat (map (fun t => t ++ [DELIMITER]) tokens).

(** The text properties in the order of their assignment, lines 403-418. *)
Definition namedFields (r : IdentityRecord) : list (option string) :=
  [referenceId r; name r; dateOfBirth r; gender r; careOf r; district r;
   landmark r; house r; location r; pinCode r; postOffice r; state r;
   street r; subDistrict r].

(** What a returned record holds, in terms of the stages of the parser. *)
Definition assembled (host : Host) (byteArray : list byte) (first : string) (r : IdentityRecord) : Prop :=
  let '(indicator, fieldShift, fieldValues) :=
    correctFields first (readFieldValues byteArray) in
  emailMobilePresent r = indicator
  /\ namedFields r = map (fun i => fieldValues !! i) (seq 1 14)
  /\ vtc r = fieldValues !! 15%nat
  /\ (mobileHash r, emailHash r, photo r)
     = binaryTail byteArray indicator fieldShift (textFieldsEnd fieldValues)
  /\ signature r
     = JS.slice byteArray (Z.of_nat (length byteArray) - 256) (Z.of_nat (length byteArray))
  /\ age r = deriveAge host (fieldValues !! 3%nat)
  /\ isAdult r = (fun a => 18 <=? a) <$> age r.

(** The integer written by a run of decimal digits. *)
Definition decimalValue (digits : string) : Z :=
  JS.radixValue 10 (JS.radixDigits 10 digits).

(** [rest] does not continue a run of decimal digits. *)
Definition stopsDigits (rest : string) : Prop :=
  match rest with
  | EmptyString => True
  | String c _ => JS.isRadixDigit 10 c = false
  end.

(** Number of hash segments a record holds. *)
Definition hashCount (r : IdentityRecord) : Z :=
  match mobileHash r with Some _ => 1 | None => 0 end
  + match emailHash r with Some _ => 1 | None => 0 end.

(** Today's month and day come before those of the date of birth. *)
Definition birthdayAhead (host : Host) (today dob : Z) : Prop :=
  let tza := LocalTZA host in
  JSDate.getMonth tza today < JSDate.getMonth tza dob
  \/ (JSDate.getMonth tza today = JSDate.getMonth tza dob
      /\ JSDate.getDate tza today < JSDate.getDate tza dob).

(** Hexadecimal digits padded to an even count, and paired. *)
Definition padEven (ds : list Z) : list Z :=
  if (length ds mod 2 =? 0)%nat then ds else 0 :: ds.

Fixpoint pairUp (ds : list Z) : list Z :=
  match ds with
  | a :: b :: rest => 16 * a + b :: pairUp rest
  | _ => []
  end.

(** The integer written by bytes, most significant first. *)
Definition bytesValue (bytes : list byte) : Z :=
  JS.radixValue 256 (map (fun b => Z.of_N (Byte.to_N b)) bytes).

(** No leading zero byte, except for the single byte of zero. *)
Definition minimalBytes (bytes : list byte) : Prop :=
  bytes = [x00] \/ exists b rest, bytes = b :: rest /\ b <> x00.

(** The texts [BigInt] accepts, once trimmed. *)
Definition prefixRadix (p : ascii) : option Z :=
  if Ascii.eqb p "x" || Ascii.eqb p "X" then Some 16
  else if Ascii.eqb p "o" || Ascii.eqb p "O" then Some 8
  else if Ascii.eqb p "b" || Ascii.eqb p "B" then Some 2
  else None.

Inductive StrIntegerLiteral : string -> Prop :=
| literal_empty : StrIntegerLiteral EmptyString
| literal_decimal ds :
    JSBigInt.isDigits 10 ds = true -> StrIntegerLiteral ds
| literal_signed sign ds :
    sign = "+"%char \/ sign = "-"%char ->
    JSBigInt.isDigits 10 ds = true -> StrIntegerLiteral (String sign ds)
| literal_prefixed p R ds :
    prefixRadix p = Some R ->
    JSBigInt.isDigits R ds = true -> StrIntegerLiteral (String "0" (String p ds)).

(** ** Sample inputs *)

(** The bytes of a Latin-1 text. *)
Definition latin1 (s : string) : list byte := list_byte_of_string s.

(** A host in the Indian time zone (UTC+05:30) whose clock reads
    2 November 2026 and whose [new Date(string)] accepts nothing. *)
Definition exampleHost : Host :=
  {| LocalTZA := 19800000; Date_parse := fun _ => None; now := fun _ => 1793600000000 |}.

(** Field values written back, a delimiter after each. *)
Definition encoded (fieldValues : list string) : list byte :=
  concat (map (fun v => latin1 v ++ [DELIMITER]) fieldValues).


(** The hash segments a payload carries for an indicator [k], in the order
    of the bytes, and the hashes the parser is to report for them. *)
Definition hashSegments (k : Z) (emailBytes mobileBytes : list byte) : list byte :=
  if k =? 3 then emailBytes ++ mobileBytes
  else if k =? 2 then mobileBytes
  else if k =? 1 then emailBytes
  else [].

Definition expectedMobileHash (k : Z) (mobileBytes : list byte) : option string :=
  if (k =? 3) || (k =? 2) then Some (bytesToHexString mobileBytes) else None.

Definition expectedEmailHash (k : Z) (emailBytes : list byte) : option string :=
  if (k =? 3) || (k =? 1) then Some (bytesToHexString emailBytes) else None.

(** Number of days of month [m] (0..11) in a year with [l] leap days. *)
Definition daysInMonth (m l : Z) : Z :=
  if m =? 1 then 28 + l
  else if (m =? 3) || (m =? 5) || (m =? 8) || (m =? 10) then 30
  else 31.

(** Three texts with a separator between them, as in [DD/MM/YYYY]. *)
Definition dateText (sep : ascii) (a b c : string) : string :=
  a +:+ String sep (b +:+ String sep c).

(** What the date parser makes of the texts of a day, a month and a year,
    whichever way round they were written. *)
Definition ofParts (host : Host) (dd mm yyyy : string) : option Z :=
  let day := JS.parseInt dd 10 in
  let month := JS.parseInt mm 10 in
  let year := JS.parseInt yyyy 10 in
  if JS.isNaN day || JS.isNaN month || JS.isNaN year then None
  else JSDate.fromComponents (LocalTZA host) year (JS.sub month (JS.Finite 1)) day.

(** The sixteen text fields of a sample card, with indicator 2 (mobile
    only) and a date of birth of 15 June 2000, and the payload that carries
    them with a four-byte photo, a mobile hash and a signature. *)
Definition sampleTokens : list (list byte) :=
  map latin1 ["2"; "REF123"; "Asha Rao"; "15-06-2000"; "F"; "C/O Rao"; "Pune";
              "Near Park"; "12"; "Kothrud"; "411038"; "Kothrud PO"; "Maharashtra";
              "Main Street"; "Haveli"; "Pune City"]%string.

Definition samplePayload : list byte :=
  delimited sampleTokens ++ [x89; x50; x4e; x47]
  ++ hashSegments 2 (replicate 32 xaa) (replicate 32 xbb) ++ replicate 256 x07.

(** The first [n] fields that [parseByteArray] reads from [currentIndex]
    on, each up to the next delimiter. *)
Fixpoint fieldsFrom (n : nat) (byteArray : list byte) (currentIndex : nat) : list string :=
  match n with
  | O => []
  | S n' =>
      let delimiterIndex := QrProcessor.findDelimiter byteArray currentIndex in
      QrProcessor.bytesToString
        (JS.slice byteArray (Z.of_nat currentIndex) (Z.of_nat delimiterIndex))
      :: fieldsFrom n' byteArray (delimiterIndex + 1)
  end.

(** The calendar date of an instant in the local zone: year, month (0..11)
    and day of the month. *)
Definition localDate (host : Host) (t : Z) : Z * Z * Z :=
  (JSDate.getFullYear (LocalTZA host) t, JSDate.getMonth (LocalTZA host) t,
   JSDate.getDate (LocalTZA host) t).

(** A calendar date that comes before another. *)
Definition dateBefore (a b : Z * Z * Z) : Prop :=
  let '(y1, m1, d1) := a in
  let '(y2, m2, d2) := b in
  y1 < y2 \/ (y1 = y2 /\ (m1 < m2 \/ (m1 = m2 /\ d1 < d2))).

(** The same day and month, [n] years earlier. *)
Definition yearsEarlier (n : Z) (date : Z * Z * Z) : Z * Z * Z :=
  let '(y, m, d) := date in (y - n, m, d).

(** * Properties *)


(** ** Typed-array slices *)

Section Slices.
Context {A : Type}.
Implicit Types a : list A.

Lemma slice_in_range a (i j : nat) :
  (i <= j <= length a)%nat ->
  JS.slice a (Z.of_nat i) (Z.of_nat j) = take (j - i) (drop i a).
Proof.
  intros Hij. unfold JS.slice, JS.relativeIndex.
  destruct (Z.ltb_spec (Z.of_nat i) 0), (Z.ltb_spec (Z.of_nat j) 0); try lia.
  do 2 f_equal; lia.
Qed.

Lemma length_slice_in_range a (i j : nat) :
  (i <= j <= length a)%nat ->
  length (JS.slice a (Z.of_nat i) (Z.of_nat j)) = (j - i)%nat.
Proof.
  intros Hij. rewrite slice_in_range by done.
  rewrite length_take, length_drop. lia.
Qed.

(** The last [n] elements, when there are that many. *)
Lemma slice_suffix a (n : nat) :
  (n <= length a)%nat ->
  JS.slice a (Z.of_nat (length a) - Z.of_nat n) (Z.of_nat (length a))
  = drop (length a - n) a.
Proof.
  intros Hn.
  replace (Z.of_nat (length a) - Z.of_nat n) with (Z.of_nat (length a - n)) by lia.
  rewrite slice_in_range by lia.
  apply take_ge. rewrite length_drop. lia.
Qed.

Lemma slice_suffix_app (front back : list A) :
  JS.slice (front ++ back)
    (Z.of_nat (length (front ++ back)) - Z.of_nat (length back))
    (Z.of_nat (length (front ++ back)))
  = back.
Proof.
  rewrite slice_suffix by (rewrite length_app; lia).
  rewrite length_app.
  replace (length front + length back - length back)%nat with (length front) by lia.
  apply drop_app_length.
Qed.

Lemma length_slice a (i j : Z) :
  Z.of_nat (length (JS.slice a i j))
  = Z.max (JS.relativeIndex (Z.of_nat (length a)) j
           - JS.relativeIndex (Z.of_nat (length a)) i) 0.
Proof.
  unfold JS.slice. rewrite length_take, length_drop.
  unfold JS.relativeIndex.
  destruct (Z.ltb_spec i 0), (Z.ltb_spec j 0); lia.
Qed.

(** A slice whose end resolves to 0 is empty. *)
Lemma slice_to_zero a (i : Z) : JS.slice a i 0 = [].
Proof.
  apply length_zero_iff_nil, Nat2Z.inj. rewrite length_slice.
  unfold JS.relativeIndex. destruct (Z.ltb_spec i 0); simpl; lia.
Qed.
End Slices.

(** ** The first pass of the field parser *)

Section FirstPass.

Lemma length_bytesToString bytes : String.length (bytesToString bytes) = length bytes.
Proof. induction bytes; simpl; congruence. Qed.

Lemma findDelimiter_bounds rest i :
  (i <= findDelimiter rest i <= i + length rest)%nat.
Proof.
  revert i. induction rest as [|b rest IH]; intros i; simpl; [lia|].
  destruct (Byte.eqb b DELIMITER); [lia|]. specialize (IH (S i)). lia.
Qed.

Lemma findDelimiter_field t rest i :
  noDelimiter t -> findDelimiter (t ++ DELIMITER :: rest) i = (i + length t)%nat.
Proof.
  intros Ht. revert i. induction Ht as [|b t Hb _ IH]; intros i; simpl.
  - lia.
  - destruct (Byte.eqb b DELIMITER) eqn:E.
    + apply Byte.byte_dec_bl in E. contradiction.
    + rewrite IH. lia.
Qed.

Lemma textFieldsEnd_snoc fieldValues v :
  textFieldsEnd (fieldValues ++ [v])
  = textFieldsEnd fieldValues + (Z.of_nat (String.length v) + 1).
Proof. unfold textFieldsEnd. rewrite fold_left_app. reflexivity. Qed.

(** One iteration, in the shape the proofs below use. *)
Lemma readLoop_step fuel byteArray index fieldValues :
  (index < length byteArray)%nat ->
  let endIndex := findDelimiter (drop index byteArray) index in
  let value := bytesToString (take (endIndex - index) (drop index byteArray)) in
  readLoop (S fuel) byteArray index fieldValues
  = if (15 <? length (fieldValues ++ [value]))%nat
    then (fieldValues ++ [value], S endIndex)
    else readLoop fuel byteArray (S endIndex) (fieldValues ++ [value]).
Proof.
  intros Hlt endIndex value. simpl.
  destruct (Nat.ltb_spec index (length byteArray)); [|lia].
  fold endIndex.
  pose proof (findDelimiter_bounds (drop index byteArray) index) as Hb.
  fold endIndex in Hb. rewrite length_drop in Hb.
  rewrite slice_in_range by lia. reflexivity.
Qed.

(** The loop only appends to [fieldValues]. *)
Lemma readLoop_extends fuel byteArray index fieldValues :
  exists more, fst (readLoop fuel byteArray index fieldValues) = fieldValues ++ more.
Proof.
  revert index fieldValues.
  induction fuel as [|fuel IH]; intros index fieldValues.
  - exists []. simpl. by rewrite app_nil_r.
  - destruct (Nat.ltb_spec index (length byteArray)) as [Hlt|Hge].
    + rewrite readLoop_step by done.
      match goal with |- context [(fieldValues ++ [?v])] => set (value := v) end.
      destruct (15 <? _)%nat.
      * by exists [value].
      * destruct (IH (S (findDelimiter (drop index byteArray) index))
                    (fieldValues ++ [value])) as [more Hmore].
        exists (value :: more). rewrite Hmore, <- app_assoc. reflexivity.
    + exists []. simpl. destruct (Nat.ltb_spec index (length byteArray)); [lia|].
      simpl. by rewrite app_nil_r.
Qed.

(** The fuel is never exhausted: the loop is entered with at most 15
    values, and any amount of fuel that covers the values still missing to
    16 gives the same result. *)
Lemma readLoop_fuel fuel fuel' byteArray index fieldValues :
  (length fieldValues <= 15)%nat ->
  (16 - length fieldValues <= fuel)%nat ->
  (16 - length fieldValues <= fuel')%nat ->
  readLoop fuel byteArray index fieldValues
  = readLoop fuel' byteArray index fieldValues.
Proof.
  revert fuel' index fieldValues.
  induction fuel as [|fuel IH]; intros fuel' index fieldValues Hlen Hf Hf'; [lia|].
  destruct fuel' as [|fuel']; [lia|].
  simpl. destruct (_ <? _)%nat; [|done].
  match goal with |- context [(fieldValues ++ [?v])] => set (value := v) end.
  destruct (Nat.ltb_spec 15 (length (fieldValues ++ [value]))) as [H|H]; [done|].
  rewrite length_app in H. simpl in H.
  apply IH; rewrite length_app; simpl; lia.
Qed.

Lemma readLoop_length fuel byteArray index fieldValues :
  (length fieldValues <= 15)%nat ->
  (length (fst (readLoop fuel byteArray index fieldValues)) <= 16)%nat.
Proof.
  revert index fieldValues.
  induction fuel as [|fuel IH]; intros index fieldValues Hlen; simpl; [lia|].
  destruct (_ <? _)%nat; [|simpl; lia].
  match goal with |- context [(fieldValues ++ [?v])] => set (value := v) end.
  destruct (Nat.ltb_spec 15 (length (fieldValues ++ [value]))) as [H|H].
  - simpl. rewrite length_app. simpl. lia.
  - apply IH. lia.
Qed.

(** The running [index] is the sum the parser later recomputes from the
    field values (lines 424-428). *)
Lemma readLoop_index fuel byteArray index fieldValues :
  textFieldsEnd fieldValues = Z.of_nat index ->
  let r := readLoop fuel byteArray index fieldValues in
  textFieldsEnd (fst r) = Z.of_nat (snd r).
Proof.
  revert index fieldValues.
  induction fuel as [|fuel IH]; intros index fieldValues Hinv; [done|].
  destruct (Nat.ltb_spec index (length byteArray)) as [Hlt|Hge].
  - cbv zeta. rewrite readLoop_step by done.
    set (endIndex := findDelimiter (drop index byteArray) index).
    pose proof (findDelimiter_bounds (drop index byteArray) index) as Hb.
    fold endIndex in Hb. rewrite length_drop in Hb.
    set (value := bytesToString _).
    assert (Hv : textFieldsEnd (fieldValues ++ [value]) = Z.of_nat (S endIndex)).
    { rewrite textFieldsEnd_snoc, Hinv. unfold value.
      rewrite length_bytesToString, length_take, length_drop. lia. }
    destruct (15 <? _)%nat; [done|]. by apply IH.
  - cbv zeta. simpl. destruct (Nat.ltb_spec index (length byteArray)); [lia|done].
Qed.

Lemma readLoop_nonempty fuel byteArray index fieldValues :
  (index < length byteArray)%nat ->
  (length fieldValues < length (fst (readLoop (S fuel) byteArray index fieldValues)))%nat.
Proof.
  intros Hlt. rewrite readLoop_step by done.
  set (value := bytesToString _).
  destruct (15 <? _)%nat.
  - simpl. rewrite length_app. simpl. lia.
  - destruct (readLoop_extends fuel byteArray
      (S (findDelimiter (drop index byteArray) index)) (fieldValues ++ [value]))
      as [more ->].
    rewrite !length_app. simpl. lia.
Qed.
End FirstPass.

Section Tokens.

Lemma readFieldValues_nil : readFieldValues [] = [].
Proof. reflexivity. Qed.

Lemma readFieldValues_nonempty byteArray :
  byteArray <> [] -> exists first others, readFieldValues byteArray = first :: others.
Proof.
  intros Hne. unfold readFieldValues, readFields.
  assert (Hlt : (0 < length byteArray)%nat) by (destruct byteArray; simpl; [done|lia]).
  pose proof (readLoop_nonempty 15 byteArray 0 [] Hlt) as H.
  destruct (fst (readLoop 16 byteArray 0 [])) as [|first others]; [simpl in H; lia|].
  eauto.
Qed.

Lemma readFieldValues_length byteArray : (length (readFieldValues byteArray) <= 16)%nat.
Proof. apply readLoop_length. simpl. lia. Qed.

(** Without the correction, [currentIndex] is where the first pass stopped. *)
Lemma textFieldsEnd_readFields byteArray :
  textFieldsEnd (readFieldValues byteArray) = Z.of_nat (snd (readFields byteArray)).
Proof. apply (readLoop_index 16 byteArray 0 []). reflexivity. Qed.

(** Reading delimited tokens that start at [length pre]. *)
Lemma readLoop_delimited tokens :
  forall fuel pre rest fieldValues,
    Forall noDelimiter tokens ->
    (length fieldValues + length tokens <= 16)%nat ->
    (length tokens <= fuel)%nat ->
    exists more,
      fst (readLoop fuel (pre ++ delimited tokens ++ rest) (length pre) fieldValues)
      = fieldValues ++ map bytesToString tokens ++ more.
Proof.
  induction tokens as [|t ts IH]; intros fuel pre rest fieldValues Hno Hlen Hfuel.
  - simpl. apply readLoop_extends.
  - apply Forall_cons in Hno as [Ht Hts].
    destruct fuel as [|fuel]; [simpl in Hfuel; lia|].
    unfold delimited. simpl map. simpl concat. fold (delimited ts).
    set (byteArray := pre ++ ((t ++ [DELIMITER]) ++ delimited ts) ++ rest).
    assert (Hdrop : drop (length pre) byteArray
                    = t ++ DELIMITER :: (delimited ts ++ rest)).
    { unfold byteArray. rewrite drop_app_length.
      rewrite <- !app_assoc. reflexivity. }
    assert (Hlt : (length pre < length byteArray)%nat).
    { unfold byteArray. rewrite !length_app. simpl. lia. }
    rewrite readLoop_step by done.
    rewrite Hdrop, findDelimiter_field by done.
    replace (length pre + length t - length pre)%nat with (length t) by lia.
    rewrite take_app_length.
    destruct (Nat.ltb_spec 15 (length (fieldValues ++ [bytesToString t]))) as [H|H].
    + rewrite length_app in H. simpl in H, Hlen.
      assert (ts = []) as -> by (destruct ts; [done|simpl in Hlen; lia]).
      exists []. simpl. reflexivity.
    + replace byteArray with ((pre ++ t ++ [DELIMITER]) ++ delimited ts ++ rest)
        by (unfold byteArray; rewrite <- !app_assoc; reflexivity).
      replace (S (length pre + length t)) with (length (pre ++ t ++ [DELIMITER]))
        by (rewrite !length_app; simpl; lia).
      destruct (IH fuel (pre ++ t ++ [DELIMITER]) rest
                  (fieldValues ++ [bytesToString t])) as [more Hmore]; [done| |simpl in Hfuel; lia|].
      { rewrite length_app. simpl in *. lia. }
      exists more. rewrite Hmore, <- app_assoc. reflexivity.
Qed.

(** Each delimited token is found at its own position, whatever follows. *)
Lemma readFieldValues_delimited tokens rest (I : nat) t :
  Forall noDelimiter tokens ->
  (length tokens <= 16)%nat ->
  tokens !! I = Some t ->
  readFieldValues (delimited tokens ++ rest) !! I = Some (bytesToString t).
Proof.
  intros Hno Hlen HI.
  destruct (readLoop_delimited tokens 16 [] rest [] Hno) as [more Hmore];
    [simpl; lia|lia|].
  assert (Hread : readFieldValues (delimited tokens ++ rest)
                  = map bytesToString tokens ++ more) by exact Hmore.
  rewrite Hread.
  rewrite lookup_app_l by (rewrite length_map; by apply lookup_lt_Some with t).
  rewrite list_lookup_fmap, HI. reflexivity.
Qed.
End Tokens.

(** ** The anomaly correction *)

Section Shift.

(** The loop copies each value one place down, from the third value on;
    the first and the last value stay. *)
Lemma shift_loop (rest : list string) :
  forall (pre : list string) (x : string),
    fold_left
      (fun fieldValues i =>
         match fieldValues !! S i with
         | Some v => <[i := v]> fieldValues
         | None => fieldValues
         end)
      (seq (length pre) (length rest)) (pre ++ x :: rest)
    = pre ++ rest ++ drop (length rest) (x :: rest).
Proof.
  induction rest as [|y rest IH]; intros pre x; [done|].
  cbn [length seq fold_left].
  replace ((pre ++ x :: y :: rest) !! S (length pre)) with (Some y)
    by (rewrite lookup_app_r by lia;
        replace (S (length pre) - length pre)%nat with 1%nat by lia; done).
  replace (<[length pre := y]> (pre ++ x :: y :: rest))
    with ((pre ++ [y]) ++ y :: rest).
  2:{ rewrite insert_app_r_alt by lia.
      replace (length pre - length pre)%nat with 0%nat by lia.
      simpl. rewrite <- app_assoc. reflexivity. }
  replace (S (length pre)) with (length (pre ++ [y]))
    by (rewrite length_app; simpl; lia).
  rewrite IH, <- app_assoc. reflexivity.
Qed.

Lemma shiftFields_cons2 (a b : string) (rest : list string) :
  shiftFields (a :: b :: rest) = a :: rest ++ drop (length rest) (b :: rest).
Proof.
  unfold shiftFields. cbn [length].
  replace (S (S (length rest)) - 2)%nat with (length rest) by lia.
  exact (shift_loop rest [a] b).
Qed.

Lemma length_shiftFields fieldValues :
  length (shiftFields fieldValues) = length fieldValues.
Proof.
  destruct fieldValues as [|a [|b rest]]; [done..|].
  rewrite shiftFields_cons2. simpl. rewrite length_app, length_drop. simpl. lia.
Qed.

Lemma shiftFields_first fieldValues :
  shiftFields fieldValues !! 0%nat = fieldValues !! 0%nat.
Proof.
  destruct fieldValues as [|a [|b rest]]; [done..|].
  by rewrite shiftFields_cons2.
Qed.

Lemma shiftFields_middle fieldValues (i : nat) :
  (1 <= i <= length fieldValues - 2)%nat ->
  shiftFields fieldValues !! i = fieldValues !! S i.
Proof.
  destruct fieldValues as [|a [|b rest]]; simpl; [lia..|]. intros Hi.
  rewrite shiftFields_cons2.
  destruct i as [|i]; [lia|]. simpl.
  apply lookup_app_l. lia.
Qed.

Lemma shiftFields_last fieldValues :
  shiftFields fieldValues !! (length fieldValues - 1)%nat
  = fieldValues !! (length fieldValues - 1)%nat.
Proof.
  destruct fieldValues as [|a [|b rest]]; [done..|].
  rewrite shiftFields_cons2. cbn [length].
  replace (S (S (length rest)) - 1)%nat with (S (length rest)) by lia.
  change ((rest ++ drop (length rest) (b :: rest)) !! length rest
          = (b :: rest) !! length rest).
  rewrite lookup_app_r by lia.
  replace (length rest - length rest)%nat with 0%nat by lia.
  rewrite lookup_drop. f_equal. lia.
Qed.
(** The sum of lines 424-428 over the shifted values: the second value is
    no longer counted and the last one is counted twice. *)
Lemma textFieldsEnd_app (l1 l2 : list string) :
  textFieldsEnd (l1 ++ l2) = textFieldsEnd l1 + textFieldsEnd l2.
Proof.
  unfold textFieldsEnd. rewrite fold_left_app.
  generalize (fold_left (fun currentIndex v => currentIndex + (Z.of_nat (String.length v) + 1))
                l1 0) as acc.
  induction l2 as [|v l2 IH]; intros acc; simpl; [lia|].
  rewrite IH, (IH (0 + _)). lia.
Qed.

Lemma textFieldsEnd_shiftFields (a b last : string) (rest : list string) :
  (b :: rest) !! length rest = Some last ->
  textFieldsEnd (shiftFields (a :: b :: rest))
  = textFieldsEnd (a :: b :: rest)
    - Z.of_nat (String.length b) + Z.of_nat (String.length last).
Proof.
  intros Hlast. rewrite shiftFields_cons2.
  rewrite (drop_S _ _ _ Hlast), drop_ge by (simpl; lia).
  change (a :: rest ++ [last]) with ([a] ++ rest ++ [last]).
  change (a :: b :: rest) with ([a] ++ [b] ++ rest).
  rewrite !textFieldsEnd_app.
  change (textFieldsEnd [last]) with (0 + (Z.of_nat (String.length last) + 1)).
  change (textFieldsEnd [b]) with (0 + (Z.of_nat (String.length b) + 1)).
  lia.
Qed.
End Shift.

(** ** The record assembled by [extractDataFields] *)

Section Record.
Variable host : Host.

Lemma extractDataFields_some byteArray first :
  readFieldValues byteArray !! 0%nat = Some first ->
  exists r, extractDataFields host byteArray = inl r /\ assembled host byteArray first r.
Proof.
  intros Hfirst. unfold extractDataFields, assembled. rewrite Hfirst.
  destruct (correctFields first (readFieldValues byteArray))
    as [[indicator fieldShift] fieldValues].
  destruct (binaryTail byteArray indicator fieldShift (textFieldsEnd fieldValues))
    as [[mobile email] photoBytes] eqn:Htail.
  eexists. split; [reflexivity|]. simpl.
  repeat split; try reflexivity.
  destruct (Nat.ltb_spec 15 (length fieldValues)); [done|].
  symmetry. apply lookup_ge_None. lia.
Qed.

(** The parser throws on the empty array only. *)
Lemma extractDataFields_fails byteArray :
  (exists e, extractDataFields host byteArray = inr e) <-> byteArray = [].
Proof.
  split.
  - intros [e He]. destruct byteArray as [|b bs]; [done|].
    destruct (readFieldValues_nonempty (b :: bs)) as (first & others & Hread); [done|].
    destruct (extractDataFields_some (b :: bs) first) as (r & Hr & _).
    { by rewrite Hread. }
    congruence.
  - intros ->. by exists (FailedToExtract 0).
Qed.

Lemma extractDataFields_returns byteArray :
  byteArray <> [] ->
  exists first r, readFieldValues byteArray !! 0%nat = Some first
    /\ extractDataFields host byteArray = inl r /\ assembled host byteArray first r.
Proof.
  intros Hne.
  destruct (readFieldValues_nonempty byteArray Hne) as (first & others & Hread).
  destruct (extractDataFields_some byteArray first) as (r & Hr & Ha).
  { by rewrite Hread. }
  exists first, r. split; [by rewrite Hread|done].
Qed.
End Record.

(** ** Claims about the field parser *)

(** C1, as amended.  For every buffer built as
    [token0 || 0xFF || ... || tokenN || 0xFF || photoBytes || hashes || signature]
    with [N <= 15], a delimiter after every token (the last one included), no
    [0xFF] inside a token and a signature of 256 bytes, the first pass of
    [extractDataFields] has the Latin-1 string of [tokenI] at position [I] of
    its field values, and the signature of the returned record is the last
    256 bytes of the buffer. *)
Theorem fields_and_signature_recovered
    (host : Host) (tokens : list (list byte)) (photoBytes hashes sig : list byte) :
  (length tokens <= 16)%nat ->
  Forall noDelimiter tokens ->
  length sig = 256%nat ->
  let buffer := delimited tokens ++ photoBytes ++ hashes ++ sig in
  (forall (I : nat) t, tokens !! I = Some t ->
     readFieldValues buffer !! I = Some (bytesToString t))
  /\ exists r, extractDataFields host buffer = inl r /\ signature r = sig.
Proof.
  intros Hlen Hno Hsig buffer. split.
  - intros I t HI. by apply readFieldValues_delimited.
  - destruct (extractDataFields_returns host buffer) as (first & r & _ & Hr & Ha).
    { intros Hnil. apply (f_equal length) in Hnil.
      unfold buffer in Hnil. rewrite !length_app, Hsig in Hnil. simpl in Hnil. lia. }
    exists r. split; [done|].
    unfold assembled in Ha.
    destruct (correctFields first (readFieldValues buffer)) as [[indicator fieldShift] fieldValues].
    destruct Ha as (_ & _ & _ & _ & -> & _).
    unfold buffer. rewrite !app_assoc.
    change 256 with (Z.of_nat 256). rewrite <- Hsig.
    apply slice_suffix_app.
Qed.

Lemma fields_and_signature_recovered_witness :
  let tokens := [latin1 "2"; latin1 "REF"; latin1 "Asha"] in
  let sig := replicate 256 x07 in
  let buffer := delimited tokens ++ [x01; xff; x02] ++ replicate 32 x05 ++ sig in
  readFieldValues buffer !! 2%nat = Some "Asha"%string
  /\ exists r, extractDataFields exampleHost buffer = inl r /\ signature r = sig.
Proof.
  intros tokens sig buffer.
  destruct (fields_and_signature_recovered exampleHost tokens [x01; xff; x02]
              (replicate 32 x05) sig) as [Hfields Hsig].
  - simpl. lia.
  - repeat (constructor; try discriminate).
  - reflexivity.
  - split; [|exact Hsig]. exact (Hfields 2%nat (latin1 "Asha") eq_refl).
Defined.

(** C1, as stated, fails: with no delimiter after the last token, the bytes
    that follow it are read into it. *)
Lemma last_token_without_delimiter :
  let tokens := [latin1 "0"; latin1 "A"] in
  let sig := replicate 256 x00 in
  let buffer := joined tokens ++ [] ++ [] ++ sig in
  Forall noDelimiter tokens /\ noDelimiter sig /\ length sig = 256%nat
  /\ readFieldValues buffer !! 1%nat <> Some (bytesToString (latin1 "A")).
Proof.
  intros tokens sig buffer. split; [|split; [|split]].
  - repeat (constructor; try discriminate).
  - apply Forall_replicate. discriminate.
  - reflexivity.
  - vm_compute. discriminate.
Qed.

(** C5, as amended.  The parser has no bounds check: for every non-empty
    payload, however short, it returns a record; the signature of that record
    has 256 bytes when the payload has at least 256, and otherwise
    [min (length payload) (256 - length payload)] bytes. *)
Theorem short_payload_not_rejected (host : Host) (payload : list byte) :
  payload <> [] ->
  exists r, extractDataFields host payload = inl r
    /\ length (signature r)
       = if (256 <=? length payload)%nat then 256%nat
         else Nat.min (length payload) (256 - length payload).
Proof.
  intros Hne.
  destruct (extractDataFields_returns host payload Hne) as (first & r & _ & Hr & Ha).
  exists r. split; [done|].
  unfold assembled in Ha.
  destruct (correctFields first (readFieldValues payload)) as [[indicator fieldShift] fieldValues].
  destruct Ha as (_ & _ & _ & _ & Hsig & _).
  apply Nat2Z.inj. rewrite Hsig, length_slice. unfold JS.relativeIndex.
  destruct (Z.ltb_spec (Z.of_nat (length payload) - 256) 0),
           (Z.ltb_spec (Z.of_nat (length payload)) 0),
           (Nat.leb_spec 256 (length payload)); lia.
Qed.

Lemma short_payload_not_rejected_witness :
  exists r, extractDataFields exampleHost (latin1 "0") = inl r
    /\ length (signature r) = 1%nat.
Proof.
  apply (short_payload_not_rejected exampleHost (latin1 "0")). discriminate.
Defined.

(** C5, as stated, fails: a one-byte payload with indicator 0 is shorter than
    the 256 bytes of a signature, and a record is returned. *)
Lemma one_byte_payload_returns :
  let payload := latin1 "0" in
  (length payload < 256)%nat
  /\ exists r, extractDataFields exampleHost payload = inl r
       /\ emailMobilePresent r = JS.Finite 0 /\ signature r = payload.
Proof.
  split; [simpl; lia|]. eexists. split; [vm_compute; reflexivity|]. split; reflexivity.
Qed.

(** C6, as amended.  The parser fails exactly when no token at all is
    recoverable, that is on the empty payload; from a payload with a single
    token it returns a record, in which every named text field is undefined. *)
Theorem field_count_not_checked (host : Host) (payload : list byte) :
  ((exists e, extractDataFields host payload = inr e) <-> readFieldValues payload = [])
  /\ (length (readFieldValues payload) = 1%nat ->
      exists r, extractDataFields host payload = inl r
        /\ Forall (fun v => v = None) (namedFields r) /\ vtc r = None).
Proof.
  split.
  - rewrite extractDataFields_fails. split.
    + by intros ->.
    + intros Hread. destruct payload as [|b bs]; [done|].
      destruct (readFieldValues_nonempty (b :: bs)) as (first & others & H); [done|].
      congruence.
  - intros Hone.
    destruct (readFieldValues payload) as [|first [|second others]] eqn:Hread;
      try discriminate.
    destruct (extractDataFields_some host payload first) as (r & Hr & Ha).
    { by rewrite Hread. }
    exists r. split; [done|].
    unfold assembled, correctFields in Ha. rewrite Hread in Ha. simpl in Ha.
    rewrite andb_false_r in Ha.
    destruct Ha as (_ & -> & -> & _). split; [|done].
    repeat constructor.
Qed.

Lemma field_count_not_checked_witness :
  exists r, extractDataFields exampleHost (latin1 "A") = inl r
    /\ Forall (fun v => v = None) (namedFields r) /\ vtc r = None.
Proof.
  apply (field_count_not_checked exampleHost (latin1 "A")). reflexivity.
Defined.

(** C6, as stated, fails: the payload ["A"] has one token and a record is
    returned. *)
Lemma one_token_payload_returns :
  let payload := latin1 "A" in
  length (readFieldValues payload) = 1%nat
  /\ exists r, extractDataFields exampleHost payload = inl r /\ referenceId r = None.
Proof.
  split; [reflexivity|]. eexists. split; [vm_compute; reflexivity|reflexivity].
Qed.

(** The two cases of the correction. *)
Lemma correctFields_shift (first : string) (fieldValues : list string) :
  JS.parseInt (JS.trim first) 10 = JS.NaN ->
  fieldValues !! 1%nat = Some "3"%string ->
  correctFields first fieldValues = (JS.Finite 3, true, shiftFields fieldValues).
Proof. intros Hp H1. unfold correctFields. rewrite Hp, H1. reflexivity. Qed.

Lemma correctFields_plain (first : string) (fieldValues : list string) :
  let parsed := JS.parseInt (JS.trim first) 10 in
  ~ (parsed = JS.NaN /\ fieldValues !! 1%nat = Some "3"%string) ->
  correctFields first fieldValues
  = (if JS.isNaN parsed then JS.Finite 0 else parsed, false, fieldValues).
Proof.
  intros parsed Hno. unfold correctFields. fold parsed.
  destruct (JS.isNaN parsed) eqn:Hnan; [|reflexivity].
  destruct (isThree (fieldValues !! 1%nat)) eqn:H3; [|reflexivity].
  exfalso. apply Hno. split; [by destruct parsed|].
  unfold isThree in H3. destruct (fieldValues !! 1%nat) as [s|]; [|done].
  apply String.eqb_eq in H3. by subst.
Qed.

(** C4.  For every token sequence of length [n >= 2]: the correction applies
    exactly when [token[0]] does not parse as an integer and [token[1]] is
    ["3"]; when it applies, the indicator is 3 and [token[i]] is replaced by
    [token[i+1]] for every [i] in [1, n-2] (the first and the last token
    stay); otherwise the indicator is [token[0]] parsed as an integer, 0 when
    that is NaN, and the tokens are left as read.  In both cases the named
    fields of the record are then read off positions 1 to 15. *)
Theorem anomaly_correction (tokens : list string) (t0 t1 : string) :
  tokens !! 0%nat = Some t0 ->
  tokens !! 1%nat = Some t1 ->
  let n := length tokens in
  let parsed := JS.parseInt (JS.trim t0) 10 in
  let '(indicator, fieldShift, fieldValues) := correctFields t0 tokens in
  (fieldShift = true <-> parsed = JS.NaN /\ t1 = "3"%string)
  /\ (fieldShift = true ->
      indicator = JS.Finite 3
      /\ length fieldValues = n
      /\ fieldValues !! 0%nat = Some t0
      /\ (forall i : nat, (1 <= i <= n - 2)%nat -> fieldValues !! i = tokens !! S i)
      /\ fieldValues !! (n - 1)%nat = tokens !! (n - 1)%nat)
  /\ (fieldShift = false ->
      indicator = (if JS.isNaN parsed then JS.Finite 0 else parsed)
      /\ fieldValues = tokens)
  /\ forall (host : Host) (byteArray : list byte),
       readFieldValues byteArray = tokens ->
       exists r, extractDataFields host byteArray = inl r
         /\ emailMobilePresent r = indicator
         /\ namedFields r = map (fun i => fieldValues !! i) (seq 1 14)
         /\ vtc r = fieldValues !! 15%nat.
Proof.
  intros H0 H1 n parsed.
  assert (Hrec : forall host byteArray, readFieldValues byteArray = tokens ->
            exists r, extractDataFields host byteArray = inl r
              /\ assembled host byteArray t0 r).
  { intros host byteArray <-. by apply extractDataFields_some. }
  assert (Hfields : forall indicator fieldShift fieldValues,
    correctFields t0 tokens = (indicator, fieldShift, fieldValues) ->
    forall host byteArray, readFieldValues byteArray = tokens ->
       exists r, extractDataFields host byteArray = inl r
         /\ emailMobilePresent r = indicator
         /\ namedFields r = map (fun i => fieldValues !! i) (seq 1 14)
         /\ vtc r = fieldValues !! 15%nat).
  { intros indicator fieldShift fieldValues E host byteArray Hread.
    destruct (Hrec host byteArray Hread) as (r & Hr & Ha).
    unfold assembled in Ha. rewrite Hread, E in Ha.
    destruct Ha as (? & ? & ? & _). eauto. }
  clear Hrec.
  destruct (JS.isNaN parsed) eqn:Hnan.
  - assert (parsed = JS.NaN) as Hp by (destruct parsed; done).
    destruct (String.eqb_spec t1 "3") as [->|Hne].
    + pose proof (correctFields_shift t0 tokens Hp H1) as E.
      specialize (Hfields _ _ _ E). rewrite E.
      split; [done|]. split; [|split; [done|exact Hfields]].
      intros _. split; [done|]. split; [apply length_shiftFields|].
      split; [by rewrite shiftFields_first|].
      split; [apply shiftFields_middle|apply shiftFields_last].
    + assert (E : correctFields t0 tokens = (JS.Finite 0, false, tokens)).
      { rewrite correctFields_plain; fold parsed; [by rewrite Hnan|].
        rewrite H1. intros [_ [=]]. done. }
      specialize (Hfields _ _ _ E). rewrite E.
      split; [split; [done|by intros [_ ?]]|]. done.
  - assert (E : correctFields t0 tokens = (parsed, false, tokens)).
    { rewrite correctFields_plain; fold parsed; [by rewrite Hnan|].
      intros [Hp _]. rewrite Hp in Hnan. discriminate. }
    specialize (Hfields _ _ _ E). rewrite E.
    split; [|done].
    split; [done|]. intros [Hp _]. rewrite Hp in Hnan. discriminate.
Qed.

Lemma anomaly_correction_witness :
  let tokens := ["V2"; "3"; "REF"; "Asha"; "15/06/2000"]%string in
  correctFields "V2" tokens
  = (JS.Finite 3, true, ["V2"; "REF"; "Asha"; "15/06/2000"; "15/06/2000"]%string)
  /\ (true = true <-> JS.parseInt (JS.trim "V2") 10 = JS.NaN /\ "3"%string = "3"%string).
Proof.
  intros tokens.
  pose proof (anomaly_correction tokens "V2" "3" eq_refl eq_refl) as H.
  split; [reflexivity|]. exact (proj1 H).
Defined.

(** ** A partially numeric indicator *)

Section Indicator.

Lemma radixDigits_prefix (digits rest : string) :
  forallb (JS.isRadixDigit 10) (list_ascii_of_string digits) = true ->
  stopsDigits rest ->
  JS.radixDigits 10 (digits +:+ rest) = JS.radixDigits 10 digits.
Proof.
  intros Hd Hr. induction digits as [|c digits IH]; simpl in *.
  - destruct rest as [|c rest]; [done|]. simpl in *.
    unfold JS.isRadixDigit in Hr. destruct (JS.digitValue c); [|done].
    by rewrite Hr.
  - apply andb_true_iff in Hd as [Hc Hd].
    unfold JS.isRadixDigit in Hc. destruct (JS.digitValue c); [|done].
    rewrite Hc. f_equal. by apply IH.
Qed.

(** A text that starts with a decimal digit has no white space or sign to
    skip. *)
Lemma parseInt_digit_start (c : ascii) (s : string) :
  JS.isRadixDigit 10 c = true ->
  JS.parseInt (String c s) 10
  = match JS.radixDigits 10 (String c s) with
    | [] => JS.NaN
    | ds => JS.ofInteger (JS.radixValue 10 ds)
    end.
Proof.
  intros Hc. unfold JS.parseInt.
  assert (Hws : JS.isWhiteSpace c = false).
  { destruct c as [[] [] [] [] [] [] [] []]; vm_compute in Hc |- *; congruence. }
  cbn [JS.trimStart]. rewrite Hws.
  assert (Hsign : c <> "-"%char /\ c <> "+"%char).
  { split; intros ->; vm_compute in Hc; discriminate. }
  destruct Hsign as [Hm Hp].
  replace (match String c s with
           | String "-" s' => (-1, s')
           | String "+" s' => (1, s')
           | _ => (1, String c s)
           end) with (1, String c s).
  2:{ destruct c as [[] [] [] [] [] [] [] []]; try reflexivity; congruence. }
  change (10 =? 16) with false. cbv iota.
  destruct (JS.radixDigits 10 (String c s)) as [|d ds]; [done|].
  by rewrite Z.mul_1_l.
Qed.

Lemma parseInt_digits_then_text (digits rest : string) :
  JSBigInt.isDigits 10 digits = true ->
  stopsDigits rest ->
  JS.parseInt (digits +:+ rest) 10 = JS.ofInteger (decimalValue digits).
Proof.
  intros Hd Hr. destruct digits as [|c digits]; [done|].
  unfold JSBigInt.isDigits in Hd.
  change ((String c digits) +:+ rest) with (String c (digits +:+ rest)).
  rewrite parseInt_digit_start
    by (simpl in Hd; by apply andb_true_iff in Hd as [? _]).
  change (String c (digits +:+ rest)) with ((String c digits) +:+ rest).
  rewrite radixDigits_prefix by done.
  unfold decimalValue.
  destruct (JS.radixDigits 10 (String c digits)) eqn:E; [|done].
  simpl in Hd, E. apply andb_true_iff in Hd as [Hc _].
  unfold JS.isRadixDigit in Hc. destruct (JS.digitValue c); [|done].
  by rewrite Hc in E.
Qed.

(** Below 2^53 the conversion to a Number is exact; from 2^53 on its
    result is at least 2^53 in magnitude. *)
Lemma ofInteger_exact (z : Z) : Z.abs z < 2 ^ 53 -> JS.ofInteger z = JS.Finite z.
Proof.
  intros Hz. unfold JS.ofInteger.
  destruct (Z.ltb_spec (Z.abs z) (2 ^ 53)); [done|lia].
Qed.

Lemma ofInteger_large (z : Z) :
  2 ^ 53 <= Z.abs z ->
  match JS.ofInteger z with
  | JS.Finite m => 2 ^ 53 <= Z.abs m
  | JS.Infinity _ => True
  | JS.NaN => False
  end.
Proof.
  intros Hz. unfold JS.ofInteger.
  destruct (Z.ltb_spec (Z.abs z) (2 ^ 53)); [lia|].
  set (a := Z.abs z) in *.
  set (e := Z.log2 a - 52).
  assert (Ha : 0 < a) by lia.
  pose proof (Z.log2_spec a Ha) as [Hlo _].
  assert (He : 1 <= e).
  { unfold e. assert (53 <= Z.log2 a); [|lia].
    apply Z.log2_le_pow2; lia. }
  replace (Z.log2 a) with (52 + e) in Hlo by (unfold e; lia).
  rewrite Z.pow_add_r in Hlo by lia.
  assert (Hpe : 2 <= 2 ^ e).
  { change 2 with (2 ^ 1) at 1. apply Z.pow_le_mono_r; lia. }
  assert (Hq : 2 ^ 52 <= a / 2 ^ e) by (apply Z.div_le_lower_bound; lia).
  set (q' := if _ : bool then a / 2 ^ e + 1 else a / 2 ^ e).
  assert (Hq' : 2 ^ 52 <= q') by (unfold q'; destruct (_ || _); lia).
  destruct (2 ^ 1024 <=? q' * 2 ^ e); [done|].
  assert (2 ^ 53 <= q' * 2 ^ e).
  { change (2 ^ 53) with (2 ^ 52 * 2). apply Z.mul_le_mono_nonneg; lia. }
  destruct z; simpl in *; lia.
Qed.

(** [===] against a small constant sees through the conversion. *)
Lemma strictEq_ofInteger (z k : Z) :
  Z.abs k < 2 ^ 53 ->
  JS.strictEq (JS.ofInteger z) (JS.Finite k) = (z =? k).
Proof.
  intros Hk. destruct (Z.lt_ge_cases (Z.abs z) (2 ^ 53)) as [Hz|Hz].
  - by rewrite ofInteger_exact.
  - pose proof (ofInteger_large z Hz) as H.
    destruct (JS.ofInteger z) as [| |m]; simpl; [done|lia|].
    destruct (Z.eqb_spec m k), (Z.eqb_spec z k); try done; lia.
Qed.
End Indicator.

Section IndicatorClaim.

Lemma radixValue_nonneg (R : Z) (s : string) :
  0 <= R -> 0 <= JS.radixValue R (JS.radixDigits R s).
Proof.
  intros HR. unfold JS.radixValue.
  assert (H : forall ds acc, Forall (fun d => 0 <= d) ds -> 0 <= acc ->
                0 <= fold_left (fun acc d => acc * R + d) ds acc).
  { induction ds as [|d ds IH]; intros acc Hds Hacc; simpl; [done|].
    apply Forall_cons in Hds as [Hd Hds]. apply IH; [done|nia]. }
  apply H; [|lia].
  induction s as [|c s IH]; simpl; [constructor|].
  unfold JS.digitValue.
  repeat (match goal with |- context [if ?b then _ else _] => destruct b eqn:? end;
          try constructor; try done; try lia).
Qed.

Lemma isNaN_ofInteger (z : Z) : JS.isNaN (JS.ofInteger z) = false.
Proof.
  unfold JS.ofInteger.
  repeat match goal with |- context [if ?b then _ else _] => destruct b end; done.
Qed.

(** Which hashes the binary tail extracts. *)
Lemma binaryTail_mobile byteArray indicator fieldShift currentIndex :
  is_Some (binaryTail byteArray indicator fieldShift currentIndex).1.1
  <-> JS.strictEq indicator (JS.Finite 3) || fieldShift
      || JS.strictEq indicator (JS.Finite 2) = true.
Proof.
  unfold binaryTail.
  destruct (JS.strictEq indicator (JS.Finite 3) || fieldShift); simpl.
  - split; [done|]. intros _. eauto.
  - destruct (JS.strictEq indicator (JS.Finite 2)); simpl.
    + split; [done|]. intros _. eauto.
    + destruct (JS.strictEq indicator (JS.Finite 1)); simpl;
        (split; [by intros [? [=]]|done]).
Qed.

Lemma binaryTail_email byteArray indicator fieldShift currentIndex :
  is_Some (binaryTail byteArray indicator fieldShift currentIndex).1.2
  <-> JS.strictEq indicator (JS.Finite 3) || fieldShift
      || (negb (JS.strictEq indicator (JS.Finite 2))
          && JS.strictEq indicator (JS.Finite 1)) = true.
Proof.
  unfold binaryTail.
  destruct (JS.strictEq indicator (JS.Finite 3) || fieldShift); simpl.
  - split; [done|]. intros _. eauto.
  - destruct (JS.strictEq indicator (JS.Finite 2)); simpl.
    + split; [by intros [? [=]]|done].
    + destruct (JS.strictEq indicator (JS.Finite 1)); simpl.
      * split; [done|]. intros _. eauto.
      * split; [by intros [? [=]]|done].
Qed.
End IndicatorClaim.

(** C10, as amended.  When the first token, trimmed, is one or more decimal
    digits followed by text that does not start with a digit, the indicator
    is the Number nearest to the integer written by the digits (that integer
    itself when it is below 2^53), no correction is applied whatever the
    second token is, and the indicator alone selects the hashes: the mobile
    hash for 2 and 3, the email hash for 1 and 3, none otherwise. *)
Theorem partially_numeric_indicator (tokens : list string) (t0 digits rest : string) :
  tokens !! 0%nat = Some t0 ->
  JS.trim t0 = digits +:+ rest ->
  JSBigInt.isDigits 10 digits = true ->
  rest <> EmptyString ->
  stopsDigits rest ->
  let v := decimalValue digits in
  correctFields t0 tokens = (JS.ofInteger v, false, tokens)
  /\ (v < 2 ^ 53 -> JS.ofInteger v = JS.Finite v)
  /\ forall (host : Host) (byteArray : list byte),
       readFieldValues byteArray = tokens ->
       exists r, extractDataFields host byteArray = inl r
         /\ emailMobilePresent r = JS.ofInteger v
         /\ (is_Some (mobileHash r) <-> v = 2 \/ v = 3)
         /\ (is_Some (emailHash r) <-> v = 1 \/ v = 3).
Proof.
  intros H0 Htrim Hdigits _ Hrest v.
  assert (Hparse : JS.parseInt (JS.trim t0) 10 = JS.ofInteger v).
  { rewrite Htrim. by apply parseInt_digits_then_text. }
  assert (Hcorr : correctFields t0 tokens = (JS.ofInteger v, false, tokens)).
  { rewrite correctFields_plain; rewrite Hparse.
    - by rewrite isNaN_ofInteger.
    - intros [Hnan _]. pose proof (isNaN_ofInteger v) as H. by rewrite Hnan in H. }
  split; [done|]. split.
  { intros Hv. apply ofInteger_exact.
    pose proof (radixValue_nonneg 10 digits ltac:(lia)). fold (decimalValue digits) in H.
    fold v in H. lia. }
  intros host byteArray Hread.
  destruct (extractDataFields_some host byteArray t0) as (r & Hr & Ha).
  { by rewrite Hread. }
  exists r. split; [done|].
  unfold assembled in Ha. rewrite Hread, Hcorr in Ha.
  destruct Ha as (Hind & _ & _ & Htail & _). split; [done|].
  pose proof (binaryTail_mobile byteArray (JS.ofInteger v) false (textFieldsEnd tokens)) as Hm.
  pose proof (binaryTail_email byteArray (JS.ofInteger v) false (textFieldsEnd tokens)) as He.
  rewrite <- Htail in Hm, He. simpl in Hm, He.
  repeat rewrite strictEq_ofInteger in Hm by (simpl; lia).
  repeat rewrite strictEq_ofInteger in He by (simpl; lia).
  rewrite Hm, He.
  destruct (Z.eqb_spec v 3), (Z.eqb_spec v 2), (Z.eqb_spec v 1); simpl;
    (split; split; intros H); try done; try lia; exfalso; lia.
Qed.

Lemma partially_numeric_indicator_witness :
  let payload := latin1 "2abc" ++ [xff] ++ latin1 "3" ++ [xff] ++ replicate 300 x00 in
  exists r, extractDataFields exampleHost payload = inl r
    /\ emailMobilePresent r = JS.ofInteger 2
    /\ (is_Some (mobileHash r) <-> (2 = 2 \/ 2 = 3))
    /\ (is_Some (emailHash r) <-> (2 = 1 \/ 2 = 3)).
Proof.
  intros payload.
  refine (proj2 (proj2 (partially_numeric_indicator
            (readFieldValues payload) "2abc" "2" "abc" _ _ _ _ _)) exampleHost payload eq_refl);
    [reflexivity | reflexivity | reflexivity | discriminate | reflexivity].
Defined.

(** C10, as stated, fails: the digits of ["9007199254740993abc"] write
    2^53 + 1, and the indicator is 2^53. *)
Lemma indicator_rounded :
  let t0 := "9007199254740993abc"%string in
  let payload := latin1 t0 ++ [xff] ++ latin1 "3" ++ [xff] in
  JS.trim t0 = "9007199254740993" +:+ "abc"
  /\ decimalValue "9007199254740993" = 9007199254740993
  /\ exists r, extractDataFields exampleHost payload = inl r
       /\ emailMobilePresent r = JS.Finite 9007199254740992
       /\ emailMobilePresent r <> JS.Finite (decimalValue "9007199254740993").
Proof.
  split; [reflexivity|]. split; [reflexivity|].
  eexists. split; [vm_compute; reflexivity|]. split; [reflexivity|]. discriminate.
Qed.

(** ** The binary tail *)

Section BinaryTail.
Variable host : Host.

Lemma length_append (s1 s2 : string) :
  String.length (s1 +:+ s2) = (String.length s1 + String.length s2)%nat.
Proof. induction s1 as [|c s1 IH]; simpl; [done|]. by rewrite IH. Qed.

Lemma length_byteToHex (b : byte) : String.length (byteToHex b) = 2%nat.
Proof. destruct b; reflexivity. Qed.

(** Two hexadecimal digits per byte. *)
Lemma length_bytesToHexString (bytes : list byte) :
  String.length (bytesToHexString bytes) = (2 * length bytes)%nat.
Proof.
  induction bytes as [|b bytes IH]; [done|].
  simpl bytesToHexString. rewrite length_append, length_byteToHex, IH. simpl. lia.
Qed.

Lemma slice_app_middle {A : Type} (front seg back : list A) (i j : Z) :
  i = Z.of_nat (length front) ->
  j = i + Z.of_nat (length seg) ->
  JS.slice (front ++ seg ++ back) i j = seg.
Proof.
  intros -> ->. rewrite <- Nat2Z.inj_add.
  rewrite slice_in_range by (rewrite !length_app; lia).
  rewrite drop_app_length.
  replace (length front + length seg - length front)%nat with (length seg) by lia.
  apply take_app_length.
Qed.

(** The record of a non-failing call, with its stages named. *)
Lemma extractDataFields_inl payload r :
  extractDataFields host payload = inl r ->
  exists first indicator fieldShift fieldValues,
    readFieldValues payload !! 0%nat = Some first
    /\ correctFields first (readFieldValues payload) = (indicator, fieldShift, fieldValues)
    /\ emailMobilePresent r = indicator
    /\ (mobileHash r, emailHash r, photo r)
       = binaryTail payload indicator fieldShift (textFieldsEnd fieldValues)
    /\ signature r
       = JS.slice payload (Z.of_nat (length payload) - 256) (Z.of_nat (length payload)).
Proof.
  intros Hr.
  destruct (extractDataFields_returns host payload) as (first & r' & Hfirst & Hr' & Ha).
  { intros ->. discriminate. }
  assert (r' = r) as -> by congruence.
  unfold assembled in Ha.
  destruct (correctFields first (readFieldValues payload))
    as [[indicator fieldShift] fieldValues] eqn:E.
  destruct Ha as (? & _ & _ & ? & ? & _).
  exists first, indicator, fieldShift, fieldValues. done.
Qed.

(** With one or two hash segments in front of a full signature. *)
Lemma binaryTail_one front seg sig indicator fieldShift currentIndex :
  length seg = 32%nat -> length sig = 256%nat ->
  let payload := front ++ seg ++ sig in
  let t := binaryTail payload indicator fieldShift currentIndex in
  (is_Some t.1.1 -> t.1.1 = Some (bytesToHexString seg))
  /\ (t.1.1 = None -> is_Some t.1.2 -> t.1.2 = Some (bytesToHexString seg)).
Proof.
  intros Hseg Hsig payload t. subst t. unfold binaryTail, SIGNATURE_SIZE.
  assert (Hlen : Z.of_nat (length payload) = Z.of_nat (length front) + 288).
  { unfold payload. rewrite !length_app. lia. }
  assert (Hslice : JS.slice payload (Z.of_nat (length payload) - 256 - 32)
                     (Z.of_nat (length payload) - 256 - 32 + 32) = seg).
  { apply slice_app_middle; lia. }
  destruct (_ || _); simpl; [by rewrite Hslice|].
  destruct (JS.strictEq indicator (JS.Finite 2)); simpl; [by rewrite Hslice|].
  destruct (JS.strictEq indicator (JS.Finite 1)); simpl.
  - by rewrite Hslice.
  - split; [by intros [? [=]]|]. by intros _ [? [=]].
Qed.

Lemma binaryTail_two front seg1 seg2 sig indicator fieldShift currentIndex :
  length seg1 = 32%nat -> length seg2 = 32%nat -> length sig = 256%nat ->
  let payload := front ++ seg1 ++ seg2 ++ sig in
  let t := binaryTail payload indicator fieldShift currentIndex in
  is_Some t.1.1 -> is_Some t.1.2 ->
  t.1.2 = Some (bytesToHexString seg1) /\ t.1.1 = Some (bytesToHexString seg2).
Proof.
  intros Hseg1 Hseg2 Hsig payload t. subst t. unfold binaryTail, SIGNATURE_SIZE.
  assert (Hlen : Z.of_nat (length payload) = Z.of_nat (length front) + 320).
  { unfold payload. rewrite !length_app. lia. }
  assert (Hs1 : JS.slice payload (Z.of_nat (length payload) - 256 - 32 - 32)
                  (Z.of_nat (length payload) - 256 - 32 - 32 + 32) = seg1).
  { apply slice_app_middle; lia. }
  assert (Hs2 : JS.slice payload (Z.of_nat (length payload) - 256 - 32)
                  (Z.of_nat (length payload) - 256 - 32 + 32) = seg2).
  { unfold payload. rewrite (app_assoc front seg1).
    apply slice_app_middle; rewrite ?length_app; fold payload; lia. }
  destruct (_ || _); simpl; [by rewrite Hs1, Hs2|].
  destruct (JS.strictEq indicator (JS.Finite 2)); simpl; [by intros _ [? [=]]|].
  destruct (JS.strictEq indicator (JS.Finite 1)); simpl; by intros [? [=]].
Qed.
End BinaryTail.

(** C3, as amended.  In a parsed payload that ends with a full 256-byte
    signature preceded by the hash segments, every extracted hash is the
    hexadecimal text of exactly 32 bytes (64 digits); a mobile hash, when
    present, is the 32 bytes immediately before the signature; an email hash
    present alone is the 32 bytes immediately before the signature; and when
    both are present the email hash is the 32 bytes before the mobile hash,
    so that the byte order is email, mobile, signature. *)
Theorem hash_segments_layout (host : Host) :
  (forall front seg sig r,
      length seg = 32%nat -> length sig = 256%nat ->
      extractDataFields host (front ++ seg ++ sig) = inl r ->
      signature r = sig
      /\ (is_Some (mobileHash r) -> mobileHash r = Some (bytesToHexString seg))
      /\ (mobileHash r = None -> is_Some (emailHash r) ->
          emailHash r = Some (bytesToHexString seg)))
  /\ (forall front seg1 seg2 sig r,
        length seg1 = 32%nat -> length seg2 = 32%nat -> length sig = 256%nat ->
        extractDataFields host (front ++ seg1 ++ seg2 ++ sig) = inl r ->
        is_Some (mobileHash r) -> is_Some (emailHash r) ->
        emailHash r = Some (bytesToHexString seg1)
        /\ mobileHash r = Some (bytesToHexString seg2))
  /\ (forall seg, length seg = 32%nat ->
        String.length (bytesToHexString seg) = 64%nat).
Proof.
  split; [|split].
  - intros front seg sig r Hseg Hsig Hr.
    destruct (extractDataFields_inl host _ r Hr)
      as (first & indicator & fieldShift & fieldValues & _ & _ & _ & Htail & Hsign).
    split.
    { rewrite Hsign. rewrite !app_assoc.
      change 256 with (Z.of_nat 256). rewrite <- Hsig. apply slice_suffix_app. }
    pose proof (binaryTail_one front seg sig indicator fieldShift
                  (textFieldsEnd fieldValues) Hseg Hsig) as H.
    cbv zeta in H. rewrite <- Htail in H. exact H.
  - intros front seg1 seg2 sig r Hseg1 Hseg2 Hsig Hr.
    destruct (extractDataFields_inl host _ r Hr)
      as (first & indicator & fieldShift & fieldValues & _ & _ & _ & Htail & _).
    pose proof (binaryTail_two front seg1 seg2 sig indicator fieldShift
                  (textFieldsEnd fieldValues) Hseg1 Hseg2 Hsig) as H.
    cbv zeta in H. rewrite <- Htail in H. exact H.
  - intros seg Hseg. rewrite length_bytesToHexString, Hseg. reflexivity.
Qed.

Lemma hash_segments_layout_witness :
  let front := latin1 "3" ++ [xff] ++ latin1 "REF" ++ [xff] in
  let seg1 := replicate 32 xaa in
  let seg2 := replicate 32 xbb in
  let sig := replicate 256 x07 in
  exists r, extractDataFields exampleHost (front ++ seg1 ++ seg2 ++ sig) = inl r
    /\ emailHash r = Some (bytesToHexString seg1)
    /\ mobileHash r = Some (bytesToHexString seg2).
Proof.
  intros front seg1 seg2 sig.
  eexists. split; [vm_compute; reflexivity|].
  eapply (proj1 (proj2 (hash_segments_layout exampleHost)) front seg1 seg2 sig);
    [reflexivity | reflexivity | reflexivity | vm_compute; reflexivity
    | vm_compute; eauto | vm_compute; eauto].
Defined.

(** C3, as stated, fails.  With indicator 3 the segment nearer to the start
    of the payload is the email hash, not the mobile hash; and on a payload
    too short to hold a hash the extracted hash has fewer than 32 bytes. *)
Lemma email_precedes_mobile :
  (let header := latin1 "3" ++ [xff] ++ latin1 "REF" ++ [xff] in
   let first32 := replicate 32 xaa in
   let second32 := replicate 32 xbb in
   let sig := replicate 256 x07 in
   exists r, extractDataFields exampleHost (header ++ first32 ++ second32 ++ sig) = inl r
     /\ emailHash r = Some (bytesToHexString first32)
     /\ mobileHash r = Some (bytesToHexString second32)
     /\ mobileHash r <> Some (bytesToHexString first32))
  /\ (exists r, extractDataFields exampleHost (latin1 "1") = inl r
        /\ emailHash r = Some EmptyString).
Proof.
  split.
  - eexists. split; [vm_compute; reflexivity|].
    split; [vm_compute; reflexivity|]. split; [vm_compute; reflexivity|].
    vm_compute. discriminate.
  - eexists. split; [vm_compute; reflexivity|]. reflexivity.
Qed.

(** ** The photo *)

Section Photo.
Variable host : Host.

Lemma correctFields_flag first fieldValues indicator fieldShift fieldValues' :
  correctFields first fieldValues = (indicator, fieldShift, fieldValues') ->
  (fieldShift = true -> indicator = JS.Finite 3)
  /\ (fieldShift = false -> fieldValues' = fieldValues).
Proof.
  unfold correctFields. destruct (_ && _); intros [= <- <- <-]; done.
Qed.

(** The photo always ends where the first extracted segment starts. *)
Lemma photo_end payload indicator fieldShift currentIndex :
  let t := binaryTail payload indicator fieldShift currentIndex in
  t.2 = JS.slice payload currentIndex
          (Z.of_nat (length payload) - 256
           - 32 * (match t.1.1 with Some _ => 1 | None => 0 end
                   + match t.1.2 with Some _ => 1 | None => 0 end)).
Proof.
  unfold binaryTail, SIGNATURE_SIZE.
  destruct (_ || _); [cbn [fst snd]; f_equal; lia|].
  destruct (JS.strictEq indicator (JS.Finite 2)); [cbn [fst snd]; f_equal; lia|].
  destruct (JS.strictEq indicator (JS.Finite 1)); cbn [fst snd]; f_equal; lia.
Qed.

(** When no correction is applied, the photo runs from the offset that
    follows the last delimiter read by the first pass to the start of the
    first extracted segment. *)
Lemma photo_without_correction payload r first :
  extractDataFields host payload = inl r ->
  readFieldValues payload !! 0%nat = Some first ->
  (correctFields first (readFieldValues payload)).1.2 = false ->
  photo r = JS.slice payload (Z.of_nat (snd (readFields payload)))
              (Z.of_nat (length payload) - 256 - 32 * hashCount r).
Proof.
  intros Hr Hfirst Hflag.
  destruct (extractDataFields_inl host payload r Hr)
    as (first' & indicator & fieldShift & fieldValues & Hfirst' & Hcorr & _ & Htail & _).
  assert (first' = first) as -> by congruence.
  rewrite Hcorr in Hflag. simpl in Hflag. subst fieldShift.
  apply correctFields_flag in Hcorr as [_ Hsame]. rewrite Hsame in Htail by done.
  pose proof (photo_end payload indicator false
                (textFieldsEnd (readFieldValues payload))) as H.
  cbv zeta in H. rewrite <- Htail in H. cbn [fst snd] in H.
  rewrite H, textFieldsEnd_readFields. reflexivity.
Qed.

(** A payload of exactly 256 bytes with indicator 0 has an empty photo. *)
Lemma photo_of_bare_signature payload r :
  length payload = 256%nat ->
  extractDataFields host payload = inl r ->
  emailMobilePresent r = JS.Finite 0 ->
  photo r = [].
Proof.
  intros Hlen Hr Hzero.
  destruct (extractDataFields_inl host payload r Hr)
    as (first & indicator & fieldShift & fieldValues & _ & Hcorr & Hind & Htail & _).
  apply correctFields_flag in Hcorr as [Hshift _].
  assert (indicator = JS.Finite 0) as -> by congruence.
  destruct fieldShift; [by specialize (Hshift eq_refl)|].
  unfold binaryTail, SIGNATURE_SIZE in Htail. simpl in Htail.
  rewrite Hlen in Htail. simpl in Htail.
  injection Htail as _ _ ->. apply slice_to_zero.
Qed.
(** When the correction is applied, the photo starts at that offset less the
    length of the second value (one, for ["3"]) plus the length of the last
    value. *)
Lemma photo_with_correction payload r (a b last : string) (rest : list string) :
  extractDataFields host payload = inl r ->
  readFieldValues payload = a :: b :: rest ->
  (correctFields a (readFieldValues payload)).1.2 = true ->
  (b :: rest) !! length rest = Some last ->
  photo r = JS.slice payload
              (Z.of_nat (snd (readFields payload))
               - Z.of_nat (String.length b) + Z.of_nat (String.length last))
              (Z.of_nat (length payload) - 256 - 32 * hashCount r).
Proof.
  intros Hr Hread Hflag Hlast.
  destruct (extractDataFields_inl host payload r Hr)
    as (first' & indicator & fieldShift & fieldValues & Hfirst' & Hcorr & _ & Htail & _).
  assert (first' = a) as -> by (rewrite Hread in Hfirst'; by injection Hfirst').
  rewrite Hcorr in Hflag. simpl in Hflag. subst fieldShift.
  assert (fieldValues = shiftFields (a :: b :: rest)) as ->.
  { unfold correctFields in Hcorr. rewrite Hread in Hcorr.
    destruct (_ && _); by injection Hcorr. }
  pose proof (photo_end payload indicator true
                (textFieldsEnd (shiftFields (a :: b :: rest)))) as H.
  cbv zeta in H. rewrite <- Htail in H. cbn [fst snd] in H.
  rewrite H, (textFieldsEnd_shiftFields a b last rest Hlast).
  rewrite <- Hread, textFieldsEnd_readFields. reflexivity.
Qed.
End Photo.

(** C2, on the input where the code departs from it.  Sixteen delimited
    text fields, the first not numeric and the second ["3"], are followed by
    a five-byte photo, two hashes and a signature.  The first pass stops at
    the offset that follows the last delimiter, where the photo starts; the
    record's photo, however, is only the last two of the five bytes, because
    [currentIndex] is summed over the field values after the correction has
    dropped ["3"] and doubled the last field, ["Pune"]. *)
Theorem photo_after_correction_misplaced :
  let tokens := map latin1
    ["V2"; "3"; "REF"; "Asha"; "15/06/2000"; "F"; "c"; "d"; "l"; "h"; "loc";
     "411001"; "po"; "MH"; "st"; "Pune"]%string in
  let photoBytes := [x01; x02; x03; x04; x05] in
  let payload :=
    delimited tokens ++ photoBytes ++ replicate 32 xaa ++ replicate 32 xbb
    ++ replicate 256 x07 in
  snd (readFields payload) = length (delimited tokens)
  /\ exists r, extractDataFields exampleHost payload = inl r
       /\ hashCount r = 2
       /\ photo r = [x04; x05]
       /\ photo r <> JS.slice payload (Z.of_nat (length (delimited tokens)))
                       (Z.of_nat (length payload) - 256 - 32 * hashCount r).
Proof.
  intros tokens photoBytes payload. split; [reflexivity|].
  eexists. split; [vm_compute; reflexivity|].
  split; [reflexivity|]. split; [reflexivity|].
  vm_compute. discriminate.
Qed.

(** ** Dates *)

Section Calendar.
Import JSDate.

(** [YearFromDay] is the year of ECMA-262: the largest [y] whose first day
    is not after [d]. *)
Lemma YearFromDay_spec (d : Z) :
  DayFromYear (YearFromDay d) <= d < DayFromYear (YearFromDay d + 1).
Proof.
  unfold YearFromDay, DayFromYear.
  set (n := d + 134774).
  pose proof (Z.div_mod n 146097 ltac:(lia)) as Hn.
  pose proof (Z.mod_pos_bound n 146097 ltac:(lia)) as Hdoe.
  set (era := n / 146097) in *. set (doe := n mod 146097) in *.
  assert (Hc : 0 <= Z.min (doe / 36524) 3 <= 3).
  { split; [|lia]. apply Z.min_glb; [|lia]. apply Z.div_pos; lia. }
  set (c := Z.min (doe / 36524) 3) in *.
  assert (Hr : 0 <= doe - c * 36524 /\ (c < 3 -> doe - c * 36524 < 36524)
               /\ (c = 3 -> doe - c * 36524 <= 36524)).
  { unfold c. pose proof (Z.div_mod doe 36524 ltac:(lia)).
    pose proof (Z.mod_pos_bound doe 36524 ltac:(lia)).
    destruct (Z.min_spec (doe / 36524) 3) as [[? ->]|[? ->]]; lia. }
  set (r := doe - c * 36524) in *.
  pose proof (Z.div_mod r 1461 ltac:(lia)) as Hq.
  pose proof (Z.mod_pos_bound r 1461 ltac:(lia)) as Hr2.
  set (q := r / 1461) in *. set (r2 := r mod 1461) in *.
  assert (Ha : 0 <= Z.min (r2 / 365) 3 <= 3
               /\ (Z.min (r2 / 365) 3 < 3 ->
                   365 * Z.min (r2 / 365) 3 <= r2 < 365 * Z.min (r2 / 365) 3 + 365)
               /\ (Z.min (r2 / 365) 3 = 3 -> 1095 <= r2)).
  { pose proof (Z.div_mod r2 365 ltac:(lia)).
    pose proof (Z.mod_pos_bound r2 365 ltac:(lia)).
    assert (0 <= r2 / 365) by (apply Z.div_pos; lia).
    destruct (Z.min_spec (r2 / 365) 3) as [[? ->]|[? ->]]; lia. }
  set (a := Z.min (r2 / 365) 3) in *.
  assert (Hq' : 0 <= q <= 24) by lia.
  set (y := 1601 + 400 * era + 100 * c + 4 * q + a).
  replace (y - 1970) with (400 * era + 100 * c + 4 * q + a - 369) by (unfold y; lia).
  replace (y + 1 - 1970) with (400 * era + 100 * c + 4 * q + a - 368) by (unfold y; lia).
  replace ((y - 1969) / 4) with (100 * era + 25 * c + q - 92)
    by (unfold y; apply (Z.div_unique _ _ _ a); lia).
  replace ((y - 1901) / 100) with (4 * era + c - 3)
    by (unfold y; apply (Z.div_unique _ _ _ (4 * q + a)); lia).
  replace ((y - 1601) / 400) with era
    by (unfold y; apply (Z.div_unique _ _ _ (100 * c + 4 * q + a)); lia).
  assert (Hy1_4 : (y + 1 - 1969) / 4 = 100 * era + 25 * c + q - 92 + (if a =? 3 then 1 else 0)).
  { unfold y. destruct (Z.eqb_spec a 3); symmetry.
    - apply (Z.div_unique _ _ _ 0); lia.
    - apply (Z.div_unique _ _ _ (a + 1)); lia. }
  assert (Hy1_100 : (y + 1 - 1901) / 100
                    = 4 * era + c - 3 + (if (a =? 3) && (q =? 24) then 1 else 0)).
  { unfold y. destruct (Z.eqb_spec a 3), (Z.eqb_spec q 24); simpl; symmetry.
    - apply (Z.div_unique _ _ _ 0); lia.
    - apply (Z.div_unique _ _ _ (4 * q + a + 1)); lia.
    - apply (Z.div_unique _ _ _ (4 * q + a + 1)); lia.
    - apply (Z.div_unique _ _ _ (4 * q + a + 1)); lia. }
  assert (Hy1_400 : (y + 1 - 1601) / 400
                    = era + (if (a =? 3) && (q =? 24) && (c =? 3) then 1 else 0)).
  { unfold y. destruct (Z.eqb_spec a 3), (Z.eqb_spec q 24), (Z.eqb_spec c 3);
      simpl; symmetry.
    1: apply (Z.div_unique _ _ _ 0); lia.
    all: apply (Z.div_unique _ _ _ (100 * c + 4 * q + a + 1)); lia. }
  rewrite Hy1_4, Hy1_100, Hy1_400.
  destruct (Z.eqb_spec a 3), (Z.eqb_spec q 24), (Z.eqb_spec c 3); simpl; lia.
Qed.
End Calendar.

Section CalendarOrder.
Import JSDate.

Lemma DayFromYear_mono (y1 y2 : Z) : y1 <= y2 -> DayFromYear y1 <= DayFromYear y2.
Proof. intros H. unfold DayFromYear. Z.div_mod_to_equations. lia. Qed.

Lemma YearFromDay_largest (d y : Z) : DayFromYear y <= d -> y <= YearFromDay d.
Proof.
  intros Hy. destruct (Z.le_gt_cases y (YearFromDay d)) as [|Hgt]; [done|].
  pose proof (YearFromDay_spec d) as [_ Hlt].
  pose proof (DayFromYear_mono (YearFromDay d + 1) y ltac:(lia)). lia.
Qed.
End CalendarOrder.

Section CalendarRanges.
Import JSDate.

Lemma leapDays_range (y : Z) : 0 <= leapDays y <= 1.
Proof. unfold leapDays, DaysInYear, DayFromYear. Z.div_mod_to_equations. lia. Qed.

Lemma DayWithinYear_range (t : Z) :
  0 <= DayWithinYear t < 365 + leapDays (YearFromTime t).
Proof.
  unfold DayWithinYear, leapDays, DaysInYear, YearFromTime.
  pose proof (YearFromDay_spec (Day t)). lia.
Qed.

Lemma MonthFromTime_range (t : Z) : 0 <= MonthFromTime t <= 11.
Proof.
  unfold MonthFromTime.
  repeat match goal with |- context [if ?b then _ else _] => destruct b end; lia.
Qed.

Lemma DateFromTime_range (t : Z) : 1 <= DateFromTime t <= 31.
Proof.
  unfold DateFromTime, MonthFromTime.
  pose proof (DayWithinYear_range t) as Hd.
  pose proof (leapDays_range (YearFromTime t)) as Hl.
  set (d := DayWithinYear t) in *. set (l := leapDays (YearFromTime t)) in *.
  repeat match goal with
         | |- context [if ?x <? ?y then _ else _] => destruct (Z.ltb_spec x y)
         end; cbn [daysBeforeMonth Z.eqb]; simpl; lia.
Qed.

(** Moving a date to a year within 270000 years of the epoch stays inside
    the range of time values. *)
Lemma setFullYear_defined (tza t year : Z) :
  - msPerDay <= tza <= msPerDay ->
  - 270000 <= year <= 270000 ->
  is_Some (setFullYear tza t year).
Proof.
  intros Htza Hyear. unfold setFullYear, TimeClip, UTC, MakeDate, MakeDay.
  set (lt := LocalTime tza t).
  pose proof (MonthFromTime_range lt) as Hm.
  pose proof (DateFromTime_range lt) as Hd.
  pose proof (Z.mod_pos_bound lt msPerDay ltac:(unfold msPerDay; lia)) as Hw.
  fold (TimeWithinDay lt) in Hw.
  rewrite (Z.div_small (MonthFromTime lt) 12), (Z.mod_small (MonthFromTime lt) 12) by lia.
  pose proof (leapDays_range (year + 0)) as Hl.
  assert (Hb : 0 <= daysBeforeMonth (MonthFromTime lt) (leapDays (year + 0)) <= 335).
  { unfold daysBeforeMonth.
    repeat match goal with |- context [if ?b then _ else _] => destruct b end; lia. }
  assert (Hy : - 99400000 <= DayFromYear (year + 0) <= 97900000).
  { unfold DayFromYear. Z.div_mod_to_equations. lia. }
  unfold msPerDay in *.
  match goal with |- context [if ?b then _ else _] => destruct b eqn:E end; [|eauto].
  apply Z.ltb_lt in E. lia.
Qed.
End CalendarRanges.

Section Ages.
Variable host : Host.

Let getFullYear := JSDate.getFullYear (LocalTZA host).
Let getMonth := JSDate.getMonth (LocalTZA host).
Let getDate := JSDate.getDate (LocalTZA host).

(** The local calendar date of [new Date(year, monthIndex, day)], for the
    date of birth of the example. *)
Lemma components_of_15_June_2000 (dob : Z) :
  JSDate.fromComponents (LocalTZA host) (JS.Finite 2000) (JS.Finite 5) (JS.Finite 15)
  = Some dob ->
  getFullYear dob = 2000 /\ getMonth dob = 5 /\ getDate dob = 15.
Proof.
  unfold JSDate.fromComponents, JSDate.TimeClip, JSDate.UTC.
  destruct (_ <? _); [done|]. intros [= <-].
  unfold getFullYear, getMonth, getDate,
    JSDate.getFullYear, JSDate.getMonth, JSDate.getDate, JSDate.LocalTime.
  match goal with |- context [?t - LocalTZA host + LocalTZA host] =>
    replace (t - LocalTZA host + LocalTZA host) with t by lia end.
  by vm_compute.
Qed.
End Ages.

(** C9.  [calculateAge] is the difference of the calendar years of [today]
    and [dob], less one exactly when today's (month, day) comes before that
    of [dob].  For a date of birth of 15 June 2000 (month index 5) it is 23
    on 14 June 2024, and 24 on 15 June 2024 and on every later day of 2024. *)
Theorem calculateAge_by_birthday (host : Host) (today dob : Z) :
  let tza := LocalTZA host in
  let years := JSDate.getFullYear tza today - JSDate.getFullYear tza dob in
  (birthdayAhead host today dob -> calculateAge host today dob = years - 1)
  /\ (~ birthdayAhead host today dob -> calculateAge host today dob = years)
  /\ (JSDate.fromComponents tza (JS.Finite 2000) (JS.Finite 5) (JS.Finite 15) = Some dob ->
      JSDate.getFullYear tza today = 2024 ->
      (JSDate.getMonth tza today = 5 /\ JSDate.getDate tza today = 14 ->
       calculateAge host today dob = 23)
      /\ ((JSDate.getMonth tza today = 5 /\ 15 <= JSDate.getDate tza today)
          \/ 5 < JSDate.getMonth tza today ->
          calculateAge host today dob = 24)).
Proof.
  intros tza years.
  assert (Hcases : (birthdayAhead host today dob -> calculateAge host today dob = years - 1)
                   /\ (~ birthdayAhead host today dob -> calculateAge host today dob = years)).
  { unfold birthdayAhead, calculateAge. fold tza. fold years.
    destruct (Z.ltb_spec (JSDate.getMonth tza today - JSDate.getMonth tza dob) 0),
             (Z.eqb_spec (JSDate.getMonth tza today - JSDate.getMonth tza dob) 0),
             (Z.ltb_spec (JSDate.getDate tza today) (JSDate.getDate tza dob));
      simpl; split; intros Hb; try done; try lia; exfalso; apply Hb; lia. }
  destruct Hcases as [Hbefore Hafter].
  split; [done|]. split; [done|].
  intros Hdob Hyear.
  apply components_of_15_June_2000 in Hdob as (Hy & Hm & Hd).
  fold tza in Hy, Hm, Hd. split.
  - intros [Hm' Hd']. rewrite Hbefore; [unfold years; lia|].
    right. fold tza. lia.
  - intros Hlater. rewrite Hafter; [unfold years; lia|].
    unfold birthdayAhead. fold tza. lia.
Qed.

Lemma calculateAge_by_birthday_witness :
  let tza := LocalTZA exampleHost in
  (* 14 June 2024, 12:00 and 15 June 2024, 00:00 in the zone of the host *)
  JSDate.fromComponents tza (JS.Finite 2000) (JS.Finite 5) (JS.Finite 15) = Some 961007400000
  /\ calculateAge exampleHost 1718346600000 961007400000 = 23
  /\ calculateAge exampleHost 1718389800000 961007400000 = 24.
Proof.
  intros tza.
  pose proof (calculateAge_by_birthday exampleHost 1718346600000 961007400000) as H1.
  pose proof (calculateAge_by_birthday exampleHost 1718389800000 961007400000) as H2.
  split; [vm_compute; reflexivity|]. split.
  - apply (proj2 (proj2 H1));
      [vm_compute; reflexivity | vm_compute; reflexivity | split; vm_compute; reflexivity].
  - apply (proj2 (proj2 H2)); [vm_compute; reflexivity | vm_compute; reflexivity |].
    left. split; [vm_compute; reflexivity|]. vm_compute. discriminate.
Defined.

(** The sanity check of lines 597-613 on the date read from the text.  With
    [today] the clock reading of the check and [cutoff] the reading [now']
    moved to the calendar year of [today] minus 120: a date read that is
    after [today] or before [cutoff] gives nothing, and every date returned
    lies between [cutoff] and [today].  The cutoff exists whenever the clock
    is within 270000 years of the epoch. *)
Lemma sanityCheck_range (host : Host) (today now' : Z) (dobString : string) :
  let tza := LocalTZA host in
  let cutoff := JSDate.setFullYear tza now' (JSDate.getFullYear tza today - 120) in
  (forall dob, readDate host (JS.trim dobString) = Some dob ->
     today < dob -> parseDateOfBirth host today now' dobString = None)
  /\ (forall dob c, readDate host (JS.trim dobString) = Some dob ->
        cutoff = Some c -> dob < c ->
        parseDateOfBirth host today now' dobString = None)
  /\ (forall d, parseDateOfBirth host today now' dobString = Some d ->
        readDate host (JS.trim dobString) = Some d
        /\ d <= today /\ (forall c, cutoff = Some c -> c <= d))
  /\ (- JSDate.msPerDay <= tza <= JSDate.msPerDay ->
      - 269880 <= JSDate.getFullYear tza today <= 270120 ->
      is_Some cutoff).
Proof.
  intros tza cutoff. unfold parseDateOfBirth, sanityCheck. fold tza. fold cutoff.
  split; [|split; [|split]].
  - intros dob -> Hfuture. destruct (Z.ltb_spec today dob); [done|lia].
  - intros dob c -> -> Hold. destruct (Z.ltb_spec today dob); [done|].
    destruct (Z.ltb_spec dob c); [done|lia].
  - intros d. destruct (readDate host (JS.trim dobString)) as [dob|]; [|done].
    destruct (Z.ltb_spec today dob); [done|].
    destruct cutoff as [c|].
    + destruct (Z.ltb_spec dob c); [done|]. intros [= <-].
      split; [done|]. split; [lia|]. intros c' [= <-]. lia.
    + intros [= <-]. split; [done|]. split; [lia|]. done.
  - intros Htza Hyear. apply setFullYear_defined; lia.
Qed.

(** C8, on the inputs where the code departs from it.

    A year written with leading zeros.  On 2 November 2026 the text
    [15/06/0050] is a date of the year 50, far more than 120 years back, and
    is not rejected: [new Date(50, 5, 15)] is 15 June 1950, which is
    returned.

    A clock that passes midnight of 31 December between the two readings of
    [new Date()].  With [today] the last millisecond of 2026 and the second
    reading the first of 2027 (local time), the earliest date let through is
    1 January 1906: [15/06/1906] is returned, although it lies before
    [today] moved back 120 years (31 December 1906), and before the second
    reading moved back 120 years (1 January 1907). *)
Theorem date_outside_range_returned :
  (let today := 1793600000000 in
   JS.parseInt "0050" 10 = JS.Finite 50
   /\ localDate exampleHost today = (2026, 10, 2)
   /\ exists dob,
        parseDateOfBirth exampleHost today today "15/06/0050" = Some dob
        /\ localDate exampleHost dob = (1950, 5, 15))
  /\ (let today := 1798741799999 in
      let now' := 1798741800000 in
      localDate exampleHost today = (2026, 11, 31)
      /\ localDate exampleHost now' = (2027, 0, 1)
      /\ exists dob before before',
           parseDateOfBirth exampleHost today now' "15/06/1906" = Some dob
           /\ localDate exampleHost dob = (1906, 5, 15)
           /\ JSDate.setFullYear (LocalTZA exampleHost) today (2026 - 120) = Some before
           /\ localDate exampleHost before = (1906, 11, 31)
           /\ dob < before
           /\ JSDate.setFullYear (LocalTZA exampleHost) now' (2027 - 120) = Some before'
           /\ localDate exampleHost before' = (1907, 0, 1)
           /\ dob < before').
Proof.
  split.
  - intros today. split; [reflexivity|]. split; [vm_compute; reflexivity|].
    eexists. split; [vm_compute; reflexivity|]. vm_compute. reflexivity.
  - intros today now'.
    split; [vm_compute; reflexivity|]. split; [vm_compute; reflexivity|].
    eexists _, _, _.
    split; [vm_compute; reflexivity|]. split; [vm_compute; reflexivity|].
    split; [vm_compute; reflexivity|]. split; [vm_compute; reflexivity|].
    split; [vm_compute; reflexivity|]. split; [vm_compute; reflexivity|].
    split; [vm_compute; reflexivity|]. vm_compute. reflexivity.
Qed.

(** ** The byte codec *)

Section Digits.
Import JSBigInt.
Variable R : Z.
Hypothesis R_ge_2 : 2 <= R.

Lemma toDigits_acc fuel n acc :
  toDigits fuel R n acc = toDigits fuel R n [] ++ acc.
Proof.
  revert n acc. induction fuel as [|fuel IH]; intros n acc; simpl; [done|].
  destruct (n <=? 0); [done|].
  rewrite IH, (IH _ [n mod R]), <- app_assoc. reflexivity.
Qed.

(** The fuel only has to cover the binary length of [n]. *)
Lemma toDigits_fuel fuel1 fuel2 n acc :
  n < 2 ^ Z.of_nat fuel1 -> n < 2 ^ Z.of_nat fuel2 ->
  toDigits fuel1 R n acc = toDigits fuel2 R n acc.
Proof.
  revert fuel2 n acc.
  induction fuel1 as [|fuel1 IH]; intros fuel2 n acc H1 H2.
  - simpl in H1. destruct fuel2 as [|fuel2]; simpl; [done|].
    destruct (Z.leb_spec n 0); [done|lia].
  - simpl toDigits at 1. destruct (Z.leb_spec n 0) as [Hn|Hn].
    { destruct fuel2; simpl; [done|]. destruct (Z.leb_spec n 0); [done|lia]. }
    destruct fuel2 as [|fuel2]; [simpl in H2; lia|].
    simpl toDigits at 2. destruct (Z.leb_spec n 0); [lia|].
    assert (Hhalf : forall k : nat, n < 2 ^ Z.of_nat (S k) -> n / R < 2 ^ Z.of_nat k).
    { intros k Hk. rewrite Nat2Z.inj_succ, Z.pow_succ_r in Hk by lia.
      apply Z.div_lt_upper_bound; [lia|].
      assert (0 < 2 ^ Z.of_nat k) by (apply Z.pow_pos_nonneg; lia). nia. }
    apply IH; by apply Hhalf.
Qed.

Lemma digitsOf_zero : digitsOf R 0 = [].
Proof. reflexivity. Qed.

Lemma digitsOf_step n :
  0 < n -> digitsOf R n = digitsOf R (n / R) ++ [n mod R].
Proof.
  intros Hn. unfold digitsOf.
  pose proof (Z.log2_spec n Hn) as [_ Hhi].
  pose proof (Z.log2_nonneg n) as Hlog.
  simpl toDigits at 1. destruct (Z.leb_spec n 0); [lia|].
  rewrite toDigits_acc. f_equal.
  assert (Hq : 0 <= n / R < n).
  { split; [apply Z.div_pos; lia|apply Z.div_lt; lia]. }
  apply toDigits_fuel.
  - rewrite Z2Nat.id by done.
    apply Z.div_lt_upper_bound; [lia|].
    rewrite Z.pow_succ_r in Hhi by done.
    assert (0 < 2 ^ Z.log2 n) by (apply Z.pow_pos_nonneg; lia). nia.
  - destruct (Z.eq_dec (n / R) 0) as [->|Hne].
    + apply Z.pow_pos_nonneg; lia.
    + pose proof (Z.log2_spec (n / R) ltac:(lia)) as [_ Hq'].
      rewrite Nat2Z.inj_succ, Z2Nat.id by apply Z.log2_nonneg. exact Hq'.
Qed.

(** Induction along the digits of a number. *)
Lemma digits_ind (P : Z -> Prop) :
  P 0 -> (forall n, 0 < n -> P (n / R) -> P n) -> forall n, 0 <= n -> P n.
Proof.
  intros H0 Hstep. apply Zlt_0_ind. intros n IH Hn.
  destruct (Z.eq_dec n 0) as [->|Hne]; [done|].
  apply Hstep; [lia|]. apply IH.
  split; [apply Z.div_pos; lia|apply Z.div_lt; lia].
Qed.

Lemma radixValue_snoc ds d :
  JS.radixValue R (ds ++ [d]) = JS.radixValue R ds * R + d.
Proof. unfold JS.radixValue. by rewrite fold_left_app. Qed.

Lemma digitsOf_value n : 0 <= n -> JS.radixValue R (digitsOf R n) = n.
Proof.
  revert n. apply digits_ind; [done|]. intros n Hn IH.
  rewrite digitsOf_step, radixValue_snoc, IH by done.
  pose proof (Z.div_mod n R ltac:(lia)). lia.
Qed.

Lemma digitsOf_range n : 0 <= n -> Forall (fun d => 0 <= d < R) (digitsOf R n).
Proof.
  revert n. apply digits_ind; [constructor|]. intros n Hn IH.
  rewrite digitsOf_step by done. apply Forall_app. split; [done|].
  constructor; [|constructor]. apply Z.mod_pos_bound. lia.
Qed.

(** No leading zero. *)
Lemma digitsOf_head n :
  0 < n -> exists d ds, digitsOf R n = d :: ds /\ 0 < d.
Proof.
  intros Hn. assert (H0 : 0 <= n) by lia. revert n H0 Hn.
  apply (digits_ind (fun n => 0 < n -> exists d ds, digitsOf R n = d :: ds /\ 0 < d)); [lia|].
  intros n Hn IH _. rewrite digitsOf_step by done.
  destruct (Z.eq_dec (n / R) 0) as [Hq|Hq].
  - rewrite Hq. exists (n mod R), []. split; [done|].
    pose proof (Z.div_mod n R ltac:(lia)).
    pose proof (Z.mod_pos_bound n R ltac:(lia)). lia.
  - destruct IH as (d & ds & -> & Hd).
    { pose proof (Z.div_pos n R ltac:(lia) ltac:(lia)). lia. }
    exists d, (ds ++ [n mod R]). done.
Qed.
End Digits.

(** Hexadecimal digits, paired from the right, are the digits in radix 256. *)

Section HexPairs.
Import JSBigInt.

Lemma succ_succ_mod (n : nat) : (S (S n) mod 2 = n mod 2)%nat.
Proof.
  replace (S (S n)) with (n + 1 * 2)%nat by lia. apply Nat.Div0.mod_add.
Qed.

Lemma even_length_ind (P : list Z -> Prop) :
  P [] -> (forall a b l, P l -> P (a :: b :: l)) ->
  forall l, (length l mod 2 = 0)%nat -> P l.
Proof.
  intros Hnil Hcons l.
  assert (H : forall n l, (length l <= n)%nat -> (length l mod 2 = 0)%nat -> P l).
  { clear l. induction n as [|n IH]; intros l Hn Hl.
    - destruct l; [done|simpl in Hn; lia].
    - destruct l as [|a [|b l]]; [done|discriminate|].
      apply Hcons, IH; [simpl in Hn; lia|].
      change (length (a :: b :: l)) with (S (S (length l))) in Hl.
      by rewrite succ_succ_mod in Hl. }
  by apply (H (length l)).
Qed.

Lemma pairUp_snoc l a b :
  (length l mod 2 = 0)%nat -> pairUp (l ++ [a; b]) = pairUp l ++ [16 * a + b].
Proof.
  revert l. apply even_length_ind; [done|].
  intros x y l IH. simpl. by rewrite IH.
Qed.

Lemma length_snoc2_mod (l : list Z) a b :
  (length (l ++ [a; b]) mod 2 = length l mod 2)%nat.
Proof.
  rewrite length_app. simpl length.
  replace (length l + 2)%nat with (S (S (length l))) by lia.
  apply succ_succ_mod.
Qed.

Lemma padEven_snoc l a b : padEven (l ++ [a; b]) = padEven l ++ [a; b].
Proof.
  unfold padEven. rewrite length_snoc2_mod.
  by destruct (_ =? _)%nat.
Qed.

Lemma length_padEven l : (length (padEven l) mod 2 = 0)%nat.
Proof.
  unfold padEven. destruct (Nat.eqb_spec (length l mod 2) 0) as [H|H]; [done|].
  simpl length. pose proof (Nat.mod_upper_bound (length l) 2 ltac:(lia)).
  assert (Hone : (length l mod 2 = 1)%nat) by lia.
  replace (S (length l)) with (length l + 1)%nat by lia.
  rewrite <- Nat.Div0.add_mod_idemp_l, Hone. reflexivity.
Qed.

Lemma hex_pairs n : 0 <= n -> pairUp (padEven (digitsOf 16 n)) = digitsOf 256 n.
Proof.
  revert n. apply (digits_ind 256); [lia|done|]. intros n Hn IH.
  rewrite (digitsOf_step 256), (digitsOf_step 16 ltac:(lia) n) by lia.
  destruct (Z.eq_dec (n / 16) 0) as [Hsmall|Hbig].
  - assert (n < 16).
    { pose proof (Z.div_mod n 16 ltac:(lia)).
      pose proof (Z.mod_pos_bound n 16 ltac:(lia)). lia. }
    rewrite Hsmall, Z.div_small by lia. simpl.
    rewrite !Z.mod_small by lia. reflexivity.
  - assert (0 < n / 16).
    { pose proof (Z.div_pos n 16 ltac:(lia) ltac:(lia)). lia. }
    rewrite (digitsOf_step 16 ltac:(lia) (n / 16)) by done.
    rewrite Z.div_div by lia. change (16 * 16) with 256.
    rewrite <- app_assoc. simpl app.
    rewrite padEven_snoc, pairUp_snoc, IH by apply length_padEven.
    f_equal. f_equal. Z.div_mod_to_equations. lia.
Qed.
End HexPairs.

Section Codec.
Import JSBigInt.

Lemma fill_loop {A : Type} (f : nat -> A) (d : A) (m : nat) :
  forall filled : list A,
    fold_left (fun a i => <[i := f i]> a) (seq (length filled) m)
      (filled ++ replicate m d)
    = filled ++ map f (seq (length filled) m).
Proof.
  induction m as [|m IH]; intros filled; [done|].
  cbn [seq fold_left replicate map].
  rewrite insert_app_r_alt by lia.
  replace (length filled - length filled)%nat with 0%nat by lia.
  cbn [insert list_insert].
  replace (filled ++ f (length filled) :: replicate m d)
    with ((filled ++ [f (length filled)]) ++ replicate m d)
    by (rewrite <- app_assoc; reflexivity).
  replace (S (length filled)) with (length (filled ++ [f (length filled)]))
    by (rewrite length_app; simpl; lia).
  rewrite IH, <- app_assoc. reflexivity.
Qed.

Lemma length_digitString ds : String.length (digitString ds) = length ds.
Proof. unfold digitString. induction ds; simpl; congruence. Qed.

Lemma hexPair_value (a b : Z) :
  0 <= a < 16 -> 0 <= b < 16 ->
  JS.parseInt (String (digitChar a) (String (digitChar b) EmptyString)) 16
  = JS.Finite (16 * a + b).
Proof.
  intros Ha Hb.
  assert (Ea : a = 0 \/ a = 1 \/ a = 2 \/ a = 3 \/ a = 4 \/ a = 5 \/ a = 6 \/ a = 7
               \/ a = 8 \/ a = 9 \/ a = 10 \/ a = 11 \/ a = 12 \/ a = 13 \/ a = 14
               \/ a = 15) by lia.
  assert (Eb : b = 0 \/ b = 1 \/ b = 2 \/ b = 3 \/ b = 4 \/ b = 5 \/ b = 6 \/ b = 7
               \/ b = 8 \/ b = 9 \/ b = 10 \/ b = 11 \/ b = 12 \/ b = 13 \/ b = 14
               \/ b = 15) by lia.
  clear Ha Hb.
  repeat (destruct Ea as [->|Ea]); try subst a;
    repeat (destruct Eb as [->|Eb]); try subst b; reflexivity.
Qed.

Lemma substring_first ca cb s :
  JS.substring (String ca (String cb s)) (0 * 2) (0 * 2 + 2)
  = String ca (String cb EmptyString).
Proof. destruct s; reflexivity. Qed.

Lemma substring_next ca cb s (i : nat) :
  JS.substring (String ca (String cb s)) (S i * 2) (S i * 2 + 2)
  = JS.substring s (i * 2) (i * 2 + 2).
Proof.
  unfold JS.substring. cbn [String.length].
  replace (S i * 2)%nat with (S (S (i * 2))) by lia.
  replace (S (S (i * 2)) + 2)%nat with (S (S (i * 2 + 2))) by lia.
  cbn [Nat.min Nat.max Nat.sub String.substring]. reflexivity.
Qed.

Lemma succ_succ_div (n : nat) : (S (S n) / 2 = S (n / 2))%nat.
Proof.
  replace (S (S n)) with (1 * 2 + n)%nat by lia.
  rewrite Nat.div_add_l by lia. lia.
Qed.

(** Reading a hexadecimal text two digits at a time. *)
Lemma bytes_of_hex ds :
  (length ds mod 2 = 0)%nat ->
  Forall (fun d => 0 <= d < 16) ds ->
  map (fun i => JS.toUint8
                  (JS.parseInt (JS.substring (digitString ds) (i * 2) (i * 2 + 2)) 16))
    (seq 0 (length ds / 2))
  = map (fun z => JS.toUint8 (JS.Finite z)) (pairUp ds).
Proof.
  revert ds. apply (even_length_ind (fun ds => Forall _ ds -> _ = _)); [done|].
  intros a b l IH Hall.
  apply Forall_cons in Hall as [Ha Hall]. apply Forall_cons in Hall as [Hb Hall].
  cbn [length]. rewrite succ_succ_div. cbn [seq map pairUp].
  change (digitString (a :: b :: l))
    with (String (digitChar a) (String (digitChar b) (digitString l))).
  rewrite substring_first, hexPair_value by done. f_equal.
  rewrite <- seq_shift, map_map, <- (IH Hall).
  apply map_ext. intros i. by rewrite substring_next.
Qed.

Lemma toUint8_value (z : Z) :
  0 <= z < 256 -> Z.of_N (Byte.to_N (JS.toUint8 (JS.Finite z))) = z.
Proof.
  intros Hz. unfold JS.toUint8. rewrite Z.mod_small by done.
  pose proof (Byte.to_of_N_option_map (Z.to_N z)) as H.
  destruct (N.leb_spec (Z.to_N z) 255); [|lia].
  destruct (Byte.of_N (Z.to_N z)) as [b|]; [|done].
  simpl in *. injection H as ->. lia.
Qed.
End Codec.

Section BigIntTexts.
Import JSBigInt.

Lemma digit_not_space (c : ascii) :
  JS.isRadixDigit 10 c = true -> JS.isWhiteSpace c = false.
Proof. destruct c as [[] [] [] [] [] [] [] []]; vm_compute; congruence. Qed.

Lemma trimEnd_digits (s : string) :
  forallb (JS.isRadixDigit 10) (list_ascii_of_string s) = true -> JS.trimEnd s = s.
Proof.
  induction s as [|c s IH]; [done|]. simpl. intros H.
  apply andb_true_iff in H as [Hc Hs]. rewrite (IH Hs).
  destruct s; [|done]. by rewrite (digit_not_space c Hc).
Qed.

Lemma trim_digits (s : string) : isDigits 10 s = true -> JS.trim s = s.
Proof.
  unfold isDigits, JS.trim. destruct s as [|c s]; [done|]. intros H.
  assert (Hc : JS.isRadixDigit 10 c = true)
    by (simpl in H; by apply andb_true_iff in H as [? _]).
  cbn [JS.trimStart]. rewrite (digit_not_space c Hc). by apply trimEnd_digits.
Qed.

(** A run of decimal digits is read as such: it has no sign and no prefix. *)
Lemma literalValue_decimal (s : string) :
  isDigits 10 s = true -> literalValue s = digitsValue 10 s.
Proof.
  intros H. destruct s as [|c1 s]; [done|].
  unfold isDigits in H. cbn [list_ascii_of_string forallb] in H.
  apply andb_true_iff in H as [H1 H].
  destruct c1 as [[] [] [] [] [] [] [] []];
    try (vm_compute in H1; discriminate H1); try reflexivity.
  destruct s as [|c2 s]; [reflexivity|].
  cbn [list_ascii_of_string forallb] in H.
  apply andb_true_iff in H as [H2 _].
  destruct c2 as [[] [] [] [] [] [] [] []];
    try (vm_compute in H2; discriminate H2); reflexivity.
Qed.

Lemma digitsValue_some R s : is_Some (digitsValue R s) <-> isDigits R s = true.
Proof.
  unfold digitsValue. destruct (isDigits R s); split; intros H; eauto; try done.
Qed.

(** [BigInt(str)] succeeds exactly on the texts of the grammar. *)
Lemma StringToBigInt_accepts (str : string) :
  is_Some (StringToBigInt str) <-> StrIntegerLiteral (JS.trim str).
Proof.
  unfold StringToBigInt. generalize (JS.trim str) as t. intros t. split.
  - destruct t as [|c1 t]; [constructor|].
    destruct c1 as [[] [] [] [] [] [] [] []];
      try (intros H; apply literal_decimal, digitsValue_some; exact H).
    + (* "+" *) intros H. apply literal_signed; [by left|by apply digitsValue_some].
    + (* "-" *) cbn [literalValue]. intros H. apply literal_signed; [by right|].
      apply digitsValue_some. destruct (digitsValue 10 t); [eauto|by destruct H].
    + (* "0" *) destruct t as [|c2 t];
        [intros H; apply literal_decimal, digitsValue_some; exact H|].
      destruct c2 as [[] [] [] [] [] [] [] []];
        try (intros H; apply literal_decimal, digitsValue_some; exact H);
        intros H; eapply literal_prefixed; try reflexivity;
        apply digitsValue_some; exact H.
  - intros H. destruct H as [|ds Hds|sign ds Hsign Hds|p R ds Hp Hds].
    + by exists 0.
    + rewrite literalValue_decimal by done. by apply digitsValue_some.
    + destruct Hsign as [-> | ->]; cbn [literalValue].
      * by apply digitsValue_some.
      * apply digitsValue_some in Hds as [v ->]. by exists (- v).
    + unfold prefixRadix in Hp.
      destruct p as [[] [] [] [] [] [] [] []]; try discriminate Hp;
        injection Hp as <-; cbn [literalValue]; by apply digitsValue_some.
Qed.
End BigIntTexts.

Section CodecResult.
Import JSBigInt.

Lemma StringToBigInt_decimal (s : string) :
  isDigits 10 s = true -> StringToBigInt s = Some (decimalValue s).
Proof.
  intros H. unfold StringToBigInt. rewrite trim_digits, literalValue_decimal by done.
  unfold digitsValue. by rewrite H.
Qed.

(** The bytes computed from a hexadecimal text with an even number of
    digits. *)
Lemma convert_loop (ds : list Z) :
  (length ds mod 2 = 0)%nat ->
  Forall (fun d => 0 <= d < 16) ds ->
  let hexString := digitString ds in
  let byteArray := replicate (String.length hexString / 2)%nat x00 in
  fold_left
    (fun byteArray i =>
       let byteValue := JS.parseInt (JS.substring hexString (i * 2) (i * 2 + 2)) 16 in
       <[i := JS.toUint8 byteValue]> byteArray)
    (seq 0 (length byteArray)) byteArray
  = map (fun z => JS.toUint8 (JS.Finite z)) (pairUp ds).
Proof.
  intros Heven Hrange hexString byteArray.
  unfold byteArray. rewrite length_replicate.
  unfold hexString. rewrite length_digitString.
  rewrite <- bytes_of_hex by done.
  exact (fill_loop
           (fun i => JS.toUint8
                       (JS.parseInt (JS.substring (digitString ds) (i * 2) (i * 2 + 2)) 16))
           x00 (length ds / 2) []).
Qed.

Lemma Forall_padEven ds :
  Forall (fun d => 0 <= d < 16) ds -> Forall (fun d => 0 <= d < 16) (padEven ds).
Proof.
  intros H. unfold padEven. destruct (_ =? _)%nat; [done|].
  constructor; [lia|done].
Qed.

Lemma convert_positive (n : Z) :
  0 < n ->
  let hexString := toString n 16 in
  let hexString :=
    if negb (String.length hexString mod 2 =? 0)%nat
    then String "0" hexString else hexString in
  hexString = digitString (padEven (digitsOf 16 n)).
Proof.
  intros Hn. cbv zeta. unfold toString.
  destruct (Z.eqb_spec n 0); [lia|]. destruct (Z.ltb_spec n 0); [lia|].
  rewrite length_digitString. unfold padEven.
  by destruct (_ =? _)%nat.
Qed.

Lemma convert_decimal (s : string) :
  isDigits 10 s = true ->
  convertBase10ToByteArray s
  = inl (if decimalValue s =? 0 then [x00]
         else map (fun z => JS.toUint8 (JS.Finite z)) (digitsOf 256 (decimalValue s))).
Proof.
  intros H. unfold convertBase10ToByteArray.
  rewrite StringToBigInt_decimal by done.
  pose proof (radixValue_nonneg 10 s ltac:(lia)) as Hn.
  fold (decimalValue s) in Hn. set (n := decimalValue s) in *.
  destruct (Z.eqb_spec n 0) as [->|Hne]; [reflexivity|].
  f_equal. cbv zeta.
  pose proof (convert_positive n ltac:(lia)) as Hhex. cbv zeta in Hhex.
  rewrite Hhex.
  pose proof (convert_loop (padEven (digitsOf 16 n)) (length_padEven _)) as Hloop.
  cbv zeta in Hloop. rewrite Hloop.
  - by rewrite hex_pairs.
  - apply Forall_padEven. apply (digitsOf_range 16); lia.
Qed.

Lemma bytesValue_digits (ds : list Z) :
  Forall (fun d => 0 <= d < 256) ds ->
  bytesValue (map (fun z => JS.toUint8 (JS.Finite z)) ds) = JS.radixValue 256 ds.
Proof.
  intros H. unfold bytesValue. rewrite map_map. f_equal.
  induction H as [|d ds Hd _ IH]; [done|].
  cbn [map]. by rewrite toUint8_value, IH.
Qed.
End CodecResult.

(** C7, as amended.  [convertBase10ToByteArray] fails exactly when [BigInt]
    rejects its input, that is when the trimmed input is not empty, not a run
    of decimal digits with an optional sign, and not a literal with prefix
    [0x], [0o] or [0b].  For every run of one or more decimal digits it
    succeeds and returns the big-endian bytes of the integer without a
    leading zero byte (the single byte 0 for zero); ["255"] gives [0xFF] and
    ["256"] gives [0x01, 0x00]. *)
Theorem convertBase10ToByteArray_result :
  (forall s, (exists e, convertBase10ToByteArray s = inr e)
             <-> ~ StrIntegerLiteral (JS.trim s))
  /\ (forall s, JSBigInt.isDigits 10 s = true ->
        exists bytes, convertBase10ToByteArray s = inl bytes
          /\ bytesValue bytes = decimalValue s
          /\ minimalBytes bytes)
  /\ convertBase10ToByteArray "255" = inl [xff]
  /\ convertBase10ToByteArray "256" = inl [x01; x00].
Proof.
  split; [|split; [|split; reflexivity]].
  - intros s. rewrite <- StringToBigInt_accepts.
    unfold convertBase10ToByteArray.
    destruct (JSBigInt.StringToBigInt s) as [v|]; split.
    + by intros [e [=]].
    + intros H. exfalso. apply H. eauto.
    + intros _ [v [=]].
    + intros _. by exists FailedToConvert.
  - intros s Hs. rewrite convert_decimal by done.
    pose proof (radixValue_nonneg 10 s ltac:(lia)) as Hn.
    fold (decimalValue s) in Hn.
    destruct (Z.eqb_spec (decimalValue s) 0) as [Hz|Hnz].
    + exists [x00]. rewrite Hz. split; [done|]. split; [done|]. by left.
    + eexists. split; [reflexivity|]. split.
      * rewrite bytesValue_digits by (apply (digitsOf_range 256); lia).
        apply digitsOf_value; lia.
      * right.
        destruct (digitsOf_head 256 ltac:(lia) (decimalValue s)) as (d & ds & Hds & Hd);
          [lia|].
        pose proof (digitsOf_range 256 ltac:(lia) (decimalValue s) Hn) as Hrange.
        rewrite Hds in Hrange |- *. apply Forall_cons in Hrange as [Hd256 _].
        eexists _, _. split; [reflexivity|].
        intros Hzero. pose proof (toUint8_value d Hd256) as Hv.
        rewrite Hzero in Hv. simpl in Hv. lia.
Qed.

Lemma convertBase10ToByteArray_result_witness :
  exists bytes, convertBase10ToByteArray "4660" = inl bytes
    /\ bytesValue bytes = decimalValue "4660" /\ minimalBytes bytes.
Proof.
  apply (proj1 (proj2 convertBase10ToByteArray_result) "4660"%string). reflexivity.
Defined.

(** C7, as stated, fails: ["-5"] and the empty text are not non-negative
    integer literals, and the conversion succeeds on both. *)
Lemma negative_and_empty_text_convert :
  JSBigInt.isDigits 10 "-5" = false
  /\ convertBase10ToByteArray "-5" = inl [xfb]
  /\ JSBigInt.isDigits 10 EmptyString = false
  /\ convertBase10ToByteArray EmptyString = inl [x00].
Proof. repeat split; reflexivity. Qed.

(** * Further properties of the decoder *)

(** ** The first pass is lossless *)

Section FirstPassRoundTrip.

Lemma latin1_bytesToString (bytes : list byte) : latin1 (bytesToString bytes) = bytes.
Proof.
  unfold latin1. induction bytes as [|b bytes IH]; [done|].
  cbn. rewrite byte_of_ascii_of_byte. f_equal. exact IH.
Qed.

(** What the inner loop skips holds no delimiter, and it stops on a
    delimiter unless it reaches the end. *)
Lemma findDelimiter_stop rest i :
  let e := findDelimiter rest i in
  noDelimiter (take (e - i) rest)
  /\ ((e - i < length rest)%nat -> rest !! (e - i)%nat = Some DELIMITER).
Proof.
  revert i. induction rest as [|b rest IH]; intros i; cbn [findDelimiter].
  - split; [rewrite take_nil; constructor|simpl; lia].
  - destruct (Byte.eqb b DELIMITER) eqn:E.
    + replace (i - i)%nat with 0%nat by lia. split; [constructor|].
      intros _. apply Byte.byte_dec_bl in E. by subst.
    + specialize (IH (S i)). cbv zeta in IH. destruct IH as [IH1 IH2].
      pose proof (findDelimiter_bounds rest (S i)) as Hb.
      replace (findDelimiter rest (S i) - i)%nat
        with (S (findDelimiter rest (S i) - S i)) by lia.
      split.
      * cbn [take]. constructor; [|done]. by apply Byte.eqb_false.
      * intros Hlt. cbn [length] in Hlt. apply IH2. lia.
Qed.

Lemma encoded_snoc fieldValues v :
  encoded (fieldValues ++ [v]) = encoded fieldValues ++ latin1 v ++ [DELIMITER].
Proof. unfold encoded. rewrite map_app, concat_app. simpl. by rewrite app_nil_r. Qed.

Lemma readLoop_lossless fuel byteArray index fieldValues :
  (index <= S (length byteArray))%nat ->
  encoded fieldValues = take index (byteArray ++ [DELIMITER]) ->
  Forall (fun v => noDelimiter (latin1 v)) fieldValues ->
  let r := readLoop fuel byteArray index fieldValues in
  encoded (fst r) = take (snd r) (byteArray ++ [DELIMITER])
  /\ Forall (fun v => noDelimiter (latin1 v)) (fst r)
  /\ (snd r <= S (length byteArray))%nat.
Proof.
  revert index fieldValues.
  induction fuel as [|fuel IH]; intros index fieldValues Hle Henc Hno.
  { simpl. split; [done|]. split; [done|lia]. }
  destruct (Nat.ltb_spec index (length byteArray)) as [Hlt|Hge].
  2:{ cbv zeta. simpl. destruct (Nat.ltb_spec index (length byteArray)); [lia|].
      simpl. split; [done|]. split; [done|lia]. }
  cbv zeta. rewrite readLoop_step by done.
  set (e := findDelimiter (drop index byteArray) index).
  pose proof (findDelimiter_bounds (drop index byteArray) index) as Hb.
  pose proof (findDelimiter_stop (drop index byteArray) index) as [Hfield Hstop].
  fold e in Hb, Hfield, Hstop. rewrite length_drop in Hb, Hstop.
  set (fieldBytes := take (e - index) (drop index byteArray)) in *.
  assert (Henc' : encoded (fieldValues ++ [bytesToString fieldBytes])
                  = take (S e) (byteArray ++ [DELIMITER])).
  { rewrite encoded_snoc, latin1_bytesToString, Henc.
    assert (Hat : (byteArray ++ [DELIMITER]) !! e = Some DELIMITER).
    { destruct (decide (e < length byteArray)%nat) as [He|He].
      - rewrite lookup_app_l by done.
        rewrite lookup_drop in Hstop.
        replace (index + (e - index))%nat with e in Hstop by lia.
        apply Hstop. lia.
      - rewrite lookup_app_r by lia.
        replace (e - length byteArray)%nat with 0%nat by lia. done. }
    rewrite (take_S_r _ _ _ Hat).
    replace (take e (byteArray ++ [DELIMITER]))
      with (take index (byteArray ++ [DELIMITER]) ++ fieldBytes).
    { by rewrite <- app_assoc. }
    unfold fieldBytes.
    rewrite !take_app_le by lia.
    rewrite take_take_drop. f_equal. lia. }
  assert (Hno' : Forall (fun v => noDelimiter (latin1 v))
                   (fieldValues ++ [bytesToString fieldBytes])).
  { apply Forall_app. split; [done|]. constructor; [|done].
    by rewrite latin1_bytesToString. }
  destruct (15 <? _)%nat.
  - simpl. split; [done|]. split; [done|lia].
  - apply IH; [lia|done|done].
Qed.
End FirstPassRoundTrip.

(** X1.  The first pass of [extractDataFields] reads at most 16 values, none
    of which holds the delimiter character, and it loses nothing: the values
    written back with a delimiter after each are the bytes of the payload up
    to where it stopped (with one delimiter supplied at the end of a payload
    whose last value is not terminated). *)
Theorem first_pass_lossless (byteArray : list byte) :
  let fieldValues := readFieldValues byteArray in
  let index := snd (readFields byteArray) in
  (length fieldValues <= 16)%nat
  /\ Forall (fun v => noDelimiter (latin1 v)) fieldValues
  /\ (index <= S (length byteArray))%nat
  /\ encoded fieldValues = take index (byteArray ++ [DELIMITER]).
Proof.
  intros fieldValues index.
  destruct (readLoop_lossless 16 byteArray 0 []) as (Henc & Hno & Hle);
    [lia|done|constructor|].
  split; [apply readFieldValues_length|]. done.
Qed.

(** ** A well-formed payload, end to end *)

Section WellFormed.
Variable host : Host.

Lemma textFieldsEnd_delimited (tokens : list (list byte)) :
  textFieldsEnd (map bytesToString tokens) = Z.of_nat (length (delimited tokens)).
Proof.
  induction tokens as [|t tokens IH]; [done|].
  change (map bytesToString (t :: tokens))
    with ([bytesToString t] ++ map bytesToString tokens).
  rewrite textFieldsEnd_app, IH.
  change (textFieldsEnd [bytesToString t])
    with (0 + (Z.of_nat (String.length (bytesToString t)) + 1)).
  unfold delimited. cbn [map concat]. fold (delimited tokens).
  rewrite length_bytesToString, !length_app. simpl. lia.
Qed.

(** Sixteen delimited tokens are read exactly, and the pass stops behind the
    last delimiter. *)
Lemma readFieldValues_sixteen (tokens : list (list byte)) (rest : list byte) :
  Forall noDelimiter tokens ->
  length tokens = 16%nat ->
  readFieldValues (delimited tokens ++ rest) = map bytesToString tokens.
Proof.
  intros Hno Hlen.
  pose proof (readFieldValues_length (delimited tokens ++ rest)) as Hmax.
  apply list_eq. intros i.
  destruct (decide (i < 16)%nat) as [Hi|Hi].
  - destruct (lookup_lt_is_Some_2 tokens i ltac:(lia)) as [t Ht].
    rewrite (readFieldValues_delimited tokens rest i t Hno ltac:(lia) Ht).
    by rewrite list_lookup_fmap, Ht.
  - rewrite !lookup_ge_None_2; [done|rewrite length_map; lia|lia].
Qed.

Lemma fst_readFields (byteArray : list byte) :
  fst (readFields byteArray) = readFieldValues byteArray.
Proof. exact (eq_refl (fst (readFields byteArray))). Qed.

Lemma readFields_sixteen (tokens : list (list byte)) (rest : list byte) :
  Forall noDelimiter tokens ->
  length tokens = 16%nat ->
  readFields (delimited tokens ++ rest)
  = (map bytesToString tokens, length (delimited tokens)).
Proof.
  intros Hno Hlen.
  pose proof (readFieldValues_sixteen tokens rest Hno Hlen) as Hread.
  pose proof (textFieldsEnd_readFields (delimited tokens ++ rest)) as Hend.
  rewrite Hread, textFieldsEnd_delimited in Hend.
  apply injective_projections; [rewrite fst_readFields; exact Hread|].
  apply Nat2Z.inj. exact (eq_sym Hend).
Qed.

End WellFormed.

(** X2.  For a payload made of 16 text fields, each followed by the
    delimiter, whose first field parses as the integer [k], then the photo,
    then the hash segments that [k] announces (email before mobile, 32 bytes
    each), then 256 bytes of signature: [extractDataFields] returns a record
    with indicator [k], the fields 1 to 15 as named text, exactly the photo
    bytes, the hexadecimal text of each announced hash, and the signature. *)
Theorem well_formed_payload_parsed (host : Host)
    (tokens : list (list byte)) (first : list byte) (k : Z)
    (photoBytes emailBytes mobileBytes sig : list byte) :
  Forall noDelimiter tokens ->
  length tokens = 16%nat ->
  tokens !! 0%nat = Some first ->
  JS.parseInt (JS.trim (bytesToString first)) 10 = JS.Finite k ->
  length emailBytes = 32%nat -> length mobileBytes = 32%nat ->
  length sig = 256%nat ->
  let payload :=
    delimited tokens ++ photoBytes ++ hashSegments k emailBytes mobileBytes ++ sig in
  exists r, extractDataFields host payload = inl r
    /\ emailMobilePresent r = JS.Finite k
    /\ namedFields r = map (fun i => bytesToString <$> tokens !! i) (seq 1 14)
    /\ vtc r = bytesToString <$> tokens !! 15%nat
    /\ photo r = photoBytes
    /\ emailHash r = expectedEmailHash k emailBytes
    /\ mobileHash r = expectedMobileHash k mobileBytes
    /\ signature r = sig.
Proof.
  intros Hno Hlen Hfirst Hparse Hemail Hmobile Hsig payload.
  pose proof (readFields_sixteen tokens
                (photoBytes ++ hashSegments k emailBytes mobileBytes ++ sig) Hno Hlen)
    as Hread.
  fold payload in Hread.
  assert (Hvalues : readFieldValues payload = map bytesToString tokens).
  { unfold readFieldValues. by rewrite Hread. }
  destruct (extractDataFields_some host payload (bytesToString first)) as (r & Hr & Ha).
  { by rewrite Hvalues, list_lookup_fmap, Hfirst. }
  exists r. split; [done|].
  unfold assembled in Ha. rewrite Hvalues in Ha.
  rewrite correctFields_plain in Ha
    by (rewrite Hparse; intros [? _]; discriminate).
  rewrite Hparse in Ha. cbn [JS.isNaN] in Ha.
  destruct Ha as (Hind & Hnamed & Hvtc & Htail & Hsign & _).
  split; [done|]. split.
  { rewrite Hnamed. apply map_ext. intros i. apply list_lookup_fmap. }
  split; [by rewrite Hvtc, list_lookup_fmap|].
  rewrite textFieldsEnd_delimited in Htail.
  assert (Hsignature : signature r = sig).
  { rewrite Hsign. unfold payload. rewrite !app_assoc.
    change 256 with (Z.of_nat 256). rewrite <- Hsig. apply slice_suffix_app. }
  unfold binaryTail, SIGNATURE_SIZE, expectedEmailHash, expectedMobileHash in *.
  cbn [JS.strictEq] in Htail. rewrite !orb_false_r in Htail.
  assert (Hlength : Z.of_nat (length payload)
                    = Z.of_nat (length (delimited tokens)) + Z.of_nat (length photoBytes)
                      + Z.of_nat (length (hashSegments k emailBytes mobileBytes)) + 256).
  { unfold payload. rewrite !length_app. lia. }
  unfold hashSegments in payload, Hlength.
  destruct (Z.eqb_spec k 3) as [E3|E3]; [|destruct (Z.eqb_spec k 2) as [E2|E2];
    [|destruct (Z.eqb_spec k 1) as [E1|E1]]];
    cbn [orb] in *; rewrite ?length_app in Hlength; cbn [length] in Hlength;
    injection Htail as -> -> ->; (split; [|split; [|split; [|done]]]).
  - apply slice_app_middle; lia.
  - f_equal. f_equal. unfold payload.
    rewrite (app_assoc (delimited tokens)), <- (app_assoc emailBytes).
    apply slice_app_middle; rewrite ?length_app; lia.
  - f_equal. f_equal. unfold payload.
    rewrite (app_assoc (delimited tokens)), <- (app_assoc emailBytes).
    rewrite (app_assoc (delimited tokens ++ photoBytes)).
    apply slice_app_middle; rewrite ?length_app; lia.
  - apply slice_app_middle; lia.
  - subst k. done.
  - f_equal. f_equal. unfold payload. rewrite (app_assoc (delimited tokens)).
    apply slice_app_middle; rewrite ?length_app; lia.
  - apply slice_app_middle; lia.
  - f_equal. f_equal. unfold payload. rewrite (app_assoc (delimited tokens)).
    apply slice_app_middle; rewrite ?length_app; lia.
  - done.
  - apply (slice_app_middle (delimited tokens) photoBytes sig); lia.
  - done.
  - done.
Qed.

(** ** A well-formed payload that meets the anomaly correction *)

Lemma slice_drop {A : Type} (front seg back : list A) (n : nat) :
  JS.slice (front ++ seg ++ back)
    (Z.of_nat (length front) + Z.of_nat n)
    (Z.of_nat (length front) + Z.of_nat (length seg))
  = drop n seg.
Proof.
  unfold JS.slice, JS.relativeIndex. rewrite !length_app.
  destruct (Z.ltb_spec (Z.of_nat (length front) + Z.of_nat n) 0); [lia|].
  destruct (Z.ltb_spec (Z.of_nat (length front) + Z.of_nat (length seg)) 0); [lia|].
  destruct (decide (n <= length seg)%nat) as [Hn|Hn].
  - replace (Z.to_nat (Z.min _ _)) with (length front + n)%nat by lia.
    rewrite <- drop_drop, drop_app_length, drop_app_le by done.
    replace (Z.to_nat _) with (length (drop n seg)) by (rewrite length_drop; lia).
    apply take_app_length.
  - replace (Z.to_nat (Z.max _ 0)) with 0%nat by lia.
    by rewrite take_0, drop_ge by lia.
Qed.

Lemma delimited_app (tokens1 tokens2 : list (list byte)) :
  delimited (tokens1 ++ tokens2) = delimited tokens1 ++ delimited tokens2.
Proof. unfold delimited. by rewrite map_app, concat_app. Qed.

Lemma lookup_range {A : Type} (a : A) (l tl : list A) :
  map (fun i => (a :: l ++ tl) !! i) (seq 1 (length l)) = map Some l.
Proof.
  apply list_eq. intros i. rewrite !list_lookup_fmap.
  destruct (decide (i < length l)%nat) as [Hi|Hi].
  - destruct (lookup_lt_is_Some_2 l i Hi) as [x Hx].
    rewrite lookup_seq_lt by done. simpl. by rewrite lookup_app_l, Hx.
  - rewrite lookup_seq_ge, lookup_ge_None_2 by lia. done.
Qed.

(** X3.  Sixteen delimited text fields of which the first is not numeric and
    the second is ["3"], followed by a photo, an email hash, a mobile hash
    and a signature.  The record has indicator 3, both hashes and the
    signature; its fourteen named fields are the fields from the third on, so
    that the last one is both [subDistrict] and [vtc]; and its photo starts
    [length last - 1] bytes late, where [last] is the last field: it is the
    photo with the delimiter in front, less [length last] bytes. *)
Theorem corrected_payload_parsed (host : Host) (t0 last : list byte)
    (mid : list (list byte)) (photoBytes emailBytes mobileBytes sig : list byte) :
  let tokens := t0 :: latin1 "3" :: mid ++ [last] in
  Forall noDelimiter tokens ->
  length mid = 13%nat ->
  JS.parseInt (JS.trim (bytesToString t0)) 10 = JS.NaN ->
  length emailBytes = 32%nat -> length mobileBytes = 32%nat -> length sig = 256%nat ->
  let payload := delimited tokens ++ photoBytes ++ emailBytes ++ mobileBytes ++ sig in
  exists r, extractDataFields host payload = inl r
    /\ emailMobilePresent r = JS.Finite 3
    /\ namedFields r = map (fun t => Some (bytesToString t)) (mid ++ [last])
    /\ vtc r = Some (bytesToString last)
    /\ photo r = drop (length last) (DELIMITER :: photoBytes)
    /\ emailHash r = Some (bytesToHexString emailBytes)
    /\ mobileHash r = Some (bytesToHexString mobileBytes)
    /\ signature r = sig.
Proof.
  intros tokens Hno Hmid Hnan Hemail Hmobile Hsig payload.
  assert (Hlen : length tokens = 16%nat).
  { unfold tokens. cbn [length]. rewrite length_app. simpl. lia. }
  pose proof (readFieldValues_sixteen tokens
                (photoBytes ++ emailBytes ++ mobileBytes ++ sig) Hno Hlen) as Hvalues.
  fold payload in Hvalues.
  destruct (extractDataFields_some host payload (bytesToString t0)) as (r & Hr & Ha).
  { by rewrite Hvalues. }
  exists r. split; [done|].
  unfold assembled in Ha. rewrite Hvalues in Ha.
  rewrite correctFields_shift in Ha by done.
  destruct Ha as (Hind & Hnamed & Hvtc & Htail & Hsign & _).
  set (rest := map bytesToString (mid ++ [last])).
  assert (Hrest : length rest = 14%nat).
  { unfold rest. rewrite length_map, length_app. simpl. lia. }
  assert (Hlast : ("3"%string :: rest) !! length rest = Some (bytesToString last)).
  { unfold rest. rewrite map_app. cbn [map].
    change ("3"%string :: map bytesToString mid ++ [bytesToString last])
      with (("3"%string :: map bytesToString mid) ++ [bytesToString last]).
    rewrite lookup_app_r; rewrite length_app; cbn [length]; [|lia].
    by replace (_ - _)%nat with 0%nat by lia. }
  assert (Hshift : shiftFields (map bytesToString tokens)
                   = bytesToString t0 :: rest ++ [bytesToString last]).
  { unfold tokens. cbn [map]. fold rest. change (bytesToString (latin1 "3")) with "3"%string.
    rewrite shiftFields_cons2. do 2 f_equal.
    by rewrite (drop_S _ _ _ Hlast), drop_ge by (simpl; lia). }
  assert (Hend : textFieldsEnd (shiftFields (map bytesToString tokens))
                 = Z.of_nat (length (delimited tokens)) - 1 + Z.of_nat (length last)).
  { rewrite <- textFieldsEnd_delimited. unfold tokens. cbn [map]. fold rest.
    change (bytesToString (latin1 "3")) with "3"%string.
    rewrite (textFieldsEnd_shiftFields _ _ _ _ Hlast), length_bytesToString. simpl. lia. }
  rewrite Hend in Htail. rewrite Hshift in Hnamed, Hvtc.
  split; [done|]. split.
  { rewrite Hnamed, <- Hrest, lookup_range. unfold rest. by rewrite map_map. }
  split.
  { rewrite Hvtc. change (bytesToString t0 :: rest ++ [bytesToString last])
      with ((bytesToString t0 :: rest) ++ [bytesToString last]).
    rewrite lookup_app_r; cbn [length]; rewrite Hrest; [done|lia]. }
  assert (Hlength : Z.of_nat (length payload)
                    = Z.of_nat (length (delimited tokens)) + Z.of_nat (length photoBytes)
                      + 32 + 32 + 256).
  { unfold payload. rewrite !length_app. lia. }
  unfold binaryTail, SIGNATURE_SIZE in Htail. cbn [JS.strictEq orb] in Htail.
  rewrite orb_true_r in Htail. injection Htail as -> -> ->.
  split; [|split; [|split]].
  - assert (Hsplit : delimited tokens
                     = delimited (t0 :: latin1 "3" :: mid) ++ last ++ [DELIMITER]).
    { unfold tokens.
      change (t0 :: latin1 "3" :: mid ++ [last]) with ((t0 :: latin1 "3" :: mid) ++ [last]).
      rewrite delimited_app. unfold delimited at 2. simpl. by rewrite app_nil_r. }
    rewrite Hlength. unfold payload. rewrite Hsplit, !length_app. cbn [length].
    set (front := delimited (t0 :: latin1 "3" :: mid)).
    replace ((front ++ last ++ [DELIMITER]) ++ photoBytes ++ emailBytes ++ mobileBytes ++ sig)
      with (front ++ (last ++ DELIMITER :: photoBytes) ++ emailBytes ++ mobileBytes ++ sig)
      by (rewrite <- !app_assoc; done).
    replace (Z.of_nat (length front + (length last + 1)) - 1 + Z.of_nat (length last))
      with (Z.of_nat (length front) + Z.of_nat (length last + length last)) by lia.
    replace (Z.of_nat (length front + (length last + 1)) + Z.of_nat (length photoBytes)
             + 32 + 32 + 256 - 256 - 32 - 32)
      with (Z.of_nat (length front) + Z.of_nat (length (last ++ DELIMITER :: photoBytes)))
      by (rewrite length_app; cbn [length]; lia).
    rewrite slice_drop, <- drop_drop. by rewrite drop_app_length.
  - do 2 f_equal. unfold payload. rewrite (app_assoc (delimited tokens)).
    apply slice_app_middle; rewrite ?length_app; lia.
  - do 2 f_equal. unfold payload.
    rewrite (app_assoc (delimited tokens)), (app_assoc (delimited tokens ++ photoBytes)).
    apply slice_app_middle; rewrite ?length_app; lia.
  - rewrite Hsign. unfold payload. rewrite !app_assoc.
    change 256 with (Z.of_nat 256). rewrite <- Hsig. apply slice_suffix_app.
Qed.

(** ** The calendar of the date parser *)

Section CalendarRoundTrip.
Import JSDate.

Lemma YearFromDay_unique (y d : Z) :
  DayFromYear y <= d < DayFromYear (y + 1) -> YearFromDay d = y.
Proof.
  intros [Hlo Hhi]. pose proof (YearFromDay_spec d) as [Hlo' Hhi'].
  apply Z.le_antisymm.
  - destruct (Z.le_gt_cases (YearFromDay d) y) as [|Hgt]; [done|].
    pose proof (DayFromYear_mono (y + 1) (YearFromDay d) ltac:(lia)). lia.
  - by apply YearFromDay_largest.
Qed.

Lemma YearFromDay_mono (d1 d2 : Z) : d1 <= d2 -> YearFromDay d1 <= YearFromDay d2.
Proof.
  intros H. apply YearFromDay_largest.
  pose proof (YearFromDay_spec d1). lia.
Qed.

Lemma Day_mono (t1 t2 : Z) : t1 <= t2 -> Day t1 <= Day t2.
Proof. intros H. unfold Day, msPerDay. by apply Z.div_le_mono. Qed.

Lemma Day_MakeDate (day time : Z) :
  0 <= time < msPerDay -> Day (MakeDate day time) = day.
Proof.
  intros H. unfold Day, MakeDate, msPerDay in *.
  symmetry. apply (Z.div_unique _ _ _ time); lia.
Qed.

(** The calendar fields of a time on day [k] of year [y]. *)
Lemma fields_of_day (t y m d : Z) :
  0 <= m <= 11 ->
  1 <= d <= daysInMonth m (leapDays y) ->
  Day t = DayFromYear y + daysBeforeMonth m (leapDays y) + d - 1 ->
  YearFromTime t = y /\ MonthFromTime t = m /\ DateFromTime t = d.
Proof.
  intros Hm Hd Hday.
  pose proof (leapDays_range y) as Hl.
  assert (Hnext : DayFromYear (y + 1) = DayFromYear y + 365 + leapDays y)
    by (unfold leapDays, DaysInYear; lia).
  assert (Em : m = 0 \/ m = 1 \/ m = 2 \/ m = 3 \/ m = 4 \/ m = 5 \/ m = 6
               \/ m = 7 \/ m = 8 \/ m = 9 \/ m = 10 \/ m = 11) by lia.
  clear Hm.
  assert (Hyear : YearFromTime t = y).
  { unfold YearFromTime. apply YearFromDay_unique. rewrite Hday, Hnext.
    generalize dependent (leapDays y). intros l Hd Hday Hl _.
    repeat (destruct Em as [->|Em]); try subst m;
      unfold daysInMonth, daysBeforeMonth in *; simpl in *; lia. }
  split; [done|].
  unfold DateFromTime, MonthFromTime, DayWithinYear. rewrite Hyear, Hday.
  generalize dependent (leapDays y). intros l Hd _ Hl _.
  replace (DayFromYear y + daysBeforeMonth m l + d - 1 - DayFromYear y)
    with (daysBeforeMonth m l + d - 1) by lia.
  repeat (destruct Em as [->|Em]); try subst m;
    unfold daysInMonth, daysBeforeMonth in *; simpl in Hd |- *;
    repeat match goal with
           | |- context [if ?a <? ?b then _ else _] => destruct (Z.ltb_spec a b)
           end; try lia; simpl; lia.
Qed.

(** Within one year, month and date follow the order of time. *)
Lemma month_date_mono (t1 t2 : Z) :
  YearFromTime t1 = YearFromTime t2 -> t1 <= t2 ->
  MonthFromTime t1 < MonthFromTime t2
  \/ (MonthFromTime t1 = MonthFromTime t2 /\ DateFromTime t1 <= DateFromTime t2).
Proof.
  intros Hyear Hle. apply Day_mono in Hle.
  pose proof (DayWithinYear_range t1) as H1.
  pose proof (DayWithinYear_range t2) as H2.
  pose proof (leapDays_range (YearFromTime t2)) as Hl.
  unfold DateFromTime, MonthFromTime. rewrite !Hyear in *.
  assert (Hd : DayWithinYear t1 <= DayWithinYear t2)
    by (unfold DayWithinYear; rewrite Hyear; lia).
  set (d1 := DayWithinYear t1) in *. set (d2 := DayWithinYear t2) in *.
  set (l := leapDays (YearFromTime t2)) in *.
  clearbody d1 d2 l. clear Hle Hyear.
  repeat match goal with
         | |- context [if ?a <? ?b then _ else _] => destruct (Z.ltb_spec a b)
         end; cbn [daysBeforeMonth Z.eqb]; simpl; lia.
Qed.
End CalendarRoundTrip.

(** ** Ages of accepted dates of birth *)

Section AgeRange.
Import JSDate.
Variable host : Host.
Let tza := LocalTZA host.

(** The year of a date moved by [setFullYear] is the year asked for. *)
Lemma getFullYear_setFullYear (t year c : Z) :
  setFullYear tza t year = Some c -> getFullYear tza c = year.
Proof.
  unfold setFullYear, TimeClip, UTC. destruct (_ <? _); [done|]. intros [= <-].
  unfold getFullYear, LocalTime.
  set (lt := t + tza).
  replace (MakeDate (MakeDay year (MonthFromTime lt) (DateFromTime lt)) (TimeWithinDay lt)
           - tza + tza)
    with (MakeDate (MakeDay year (MonthFromTime lt) (DateFromTime lt)) (TimeWithinDay lt))
    by lia.
  unfold YearFromTime. rewrite Day_MakeDate
    by (apply Z.mod_pos_bound; unfold msPerDay; lia).
  pose proof (MonthFromTime_range lt) as Hm.
  pose proof (DateFromTime_range lt) as Hd.
  unfold MakeDay.
  rewrite (Z.div_small (MonthFromTime lt) 12), (Z.mod_small (MonthFromTime lt) 12) by lia.
  rewrite Z.add_0_r.
  pose proof (leapDays_range year) as Hl.
  assert (Hnext : DayFromYear (year + 1) = DayFromYear year + 365 + leapDays year)
    by (unfold leapDays, DaysInYear; lia).
  apply YearFromDay_unique. rewrite Hnext.
  unfold daysBeforeMonth.
  repeat match goal with |- context [if ?b then _ else _] => destruct b end; lia.
Qed.

Lemma getFullYear_mono (t1 t2 : Z) :
  t1 <= t2 -> getFullYear tza t1 <= getFullYear tza t2.
Proof.
  intros H. unfold getFullYear, YearFromTime, LocalTime.
  apply YearFromDay_mono, Day_mono. lia.
Qed.

Lemma age_in_range (today now' today2 : Z) (dobString : string) (dob : Z) :
  parseDateOfBirth host today now' dobString = Some dob ->
  - msPerDay <= tza <= msPerDay ->
  - 269880 <= getFullYear tza today <= 270120 ->
  today <= today2 ->
  getFullYear tza today2 = getFullYear tza today ->
  0 <= calculateAge host today2 dob <= 120.
Proof.
  intros Hparse Htza Hrange Hclock Hsame.
  unfold parseDateOfBirth in Hparse.
  destruct (readDate host (JS.trim dobString)) as [dob'|]; [|done].
  unfold sanityCheck in Hparse. fold tza in Hparse.
  destruct (Z.ltb_spec today dob'); [done|].
  destruct (setFullYear_defined tza now' (getFullYear tza today - 120)) as [c Hc];
    [done|lia|].
  rewrite Hc in Hparse.
  destruct (Z.ltb_spec dob' c); [done|]. injection Hparse as ->.
  pose proof (getFullYear_setFullYear _ _ _ Hc) as Hyc.
  pose proof (getFullYear_mono c dob ltac:(lia)) as Hlow.
  pose proof (getFullYear_mono dob today2 ltac:(lia)) as Hhigh.
  unfold calculateAge. fold tza.
  destruct (Z.eq_dec (getFullYear tza dob) (getFullYear tza today2)) as [Heq|Hne].
  - destruct (month_date_mono (LocalTime tza dob) (LocalTime tza today2))
      as [Hm|[Hm Hd]]; [exact Heq|unfold LocalTime; lia| |];
      unfold getMonth, getDate;
      repeat match goal with
             | |- context [?a <? ?b] => destruct (Z.ltb_spec a b)
             | |- context [?a =? ?b] => destruct (Z.eqb_spec a b)
             end; simpl; lia.
  - destruct (_ || _); lia.
Qed.
End AgeRange.

(** X4.  Whenever [extractDataFields] derives an age, on a host whose clock
    does not go back and stays in one calendar year during the call, in a
    zone within a day of UTC and within 270000 years of the epoch, the age is
    between 0 and 120, and [isAdult] tells whether it is at least 18. *)
Theorem derived_age_in_range (host : Host) (payload : list byte)
    (r : IdentityRecord) (a : Z) :
  extractDataFields host payload = inl r ->
  age r = Some a ->
  - JSDate.msPerDay <= LocalTZA host <= JSDate.msPerDay ->
  - 269880 <= JSDate.getFullYear (LocalTZA host) (now host 0%nat) <= 270120 ->
  now host 0%nat <= now host 2%nat ->
  JSDate.getFullYear (LocalTZA host) (now host 2%nat)
  = JSDate.getFullYear (LocalTZA host) (now host 0%nat) ->
  0 <= a <= 120 /\ isAdult r = Some (18 <=? a).
Proof.
  intros Hr Hage Htza Hrange Hclock Hsame.
  destruct (extractDataFields_returns host payload) as (first & r' & _ & Hr' & Ha).
  { intros ->. discriminate. }
  assert (r' = r) as -> by congruence.
  unfold assembled in Ha.
  destruct (correctFields first (readFieldValues payload))
    as [[indicator fieldShift] fieldValues].
  destruct Ha as (_ & _ & _ & _ & _ & Hderive & Hadult).
  rewrite Hage in Hderive, Hadult. split; [|done].
  unfold deriveAge in Hderive.
  destruct (fieldValues !! 3%nat) as [[|c s]|]; try discriminate.
  destruct (parseDateOfBirth host (now host 0%nat) (now host 1%nat) (String c s))
    as [dob|] eqn:Hdob; [|discriminate].
  injection Hderive as ->.
  by eapply age_in_range.
Qed.

(** ** Texts of dates *)

Section DateText.
Import JSDate JSString.

Lemma includes_app (a b : string) (c : ascii) :
  includes (a +:+ b) c = includes a c || includes b c.
Proof. induction a as [|x a IH]; simpl; [done|]. rewrite IH. by rewrite orb_assoc. Qed.

Lemma split_nonempty (s : string) (c : ascii) : split s c <> [].
Proof.
  induction s as [|x s IH]; simpl; [done|].
  destruct (Ascii.eqb x c); [done|]. by destruct (split s c).
Qed.

Lemma split_none (a : string) (c : ascii) : includes a c = false -> split a c = [a].
Proof.
  induction a as [|x a IH]; simpl; [done|].
  intros [Hx Ha]%orb_false_elim. rewrite Hx, IH by done. done.
Qed.

Lemma split_app_sep (a b : string) (c : ascii) :
  includes a c = false -> split (a +:+ String c b) c = a :: split b c.
Proof.
  induction a as [|x a IH]; simpl.
  - intros _. by rewrite Ascii.eqb_refl.
  - intros [Hx Ha]%orb_false_elim. rewrite Hx, IH by done. done.
Qed.

Lemma split_dateText (sep : ascii) (a b c : string) :
  includes a sep = false -> includes b sep = false -> includes c sep = false ->
  split (dateText sep a b c) sep = [a; b; c].
Proof.
  intros Ha Hb Hc. unfold dateText.
  rewrite split_app_sep, split_app_sep, split_none by done. done.
Qed.

Lemma includes_dateText (sep ch : ascii) (a b c : string) :
  includes (dateText sep a b c) ch
  = Ascii.eqb sep ch || includes a ch || includes b ch || includes c ch.
Proof.
  unfold dateText. rewrite includes_app. simpl. rewrite includes_app. simpl.
  destruct (Ascii.eqb sep ch), (includes a ch), (includes b ch), (includes c ch); done.
Qed.

Variable host : Host.

Lemma readDate_slash (dd mm yyyy : string) :
  includes dd "/" = false -> includes mm "/" = false -> includes yyyy "/" = false ->
  readDate host (dateText "/" dd mm yyyy) = ofParts host dd mm yyyy.
Proof.
  intros Hd Hm Hy. unfold readDate.
  rewrite includes_dateText, Ascii.eqb_refl. simpl orb. cbv iota.
  by rewrite split_dateText.
Qed.

End DateText.



(** The local day of an accepted date of birth written [DD/MM/YYYY]. *)
Lemma slash_date_day (host : Host) (today now' : Z)
    (dobString dd mm yyyy : string) (d m y dob : Z) :
  JS.trim dobString = dateText "/" dd mm yyyy ->
  Forall (fun p => JSString.includes p "/" = false) [dd; mm; yyyy] ->
  JS.parseInt dd 10 = JS.Finite d ->
  JS.parseInt mm 10 = JS.Finite m ->
  JS.parseInt yyyy 10 = JS.Finite y ->
  let year := if (0 <=? y) && (y <=? 99) then 1900 + y else y in
  1 <= m <= 12 ->
  parseDateOfBirth host today now' dobString = Some dob ->
  JSDate.Day (JSDate.LocalTime (LocalTZA host) dob)
  = JSDate.DayFromYear year + JSDate.daysBeforeMonth (m - 1) (JSDate.leapDays year) + d - 1.
Proof.
  intros Htrim Hparts Hd Hm Hy year Hmonth Hparse.
  apply Forall_cons in Hparts as [Hd1 Hparts].
  apply Forall_cons in Hparts as [Hm1 Hparts].
  apply Forall_cons in Hparts as [Hy1 _].
  unfold parseDateOfBirth in Hparse.
  rewrite Htrim, readDate_slash in Hparse by done.
  unfold ofParts in Hparse. rewrite Hd, Hm, Hy in Hparse.
  simpl in Hparse. rewrite ofInteger_exact in Hparse by lia.
  fold year in Hparse. unfold JSDate.TimeClip in Hparse.
  destruct (_ <? _); [done|].
  unfold sanityCheck in Hparse.
  destruct (_ <? _); [done|].
  destruct (match JSDate.setFullYear _ _ _ with Some _ => _ | None => _ end); [done|].
  injection Hparse as <-.
  unfold JSDate.LocalTime, JSDate.UTC.
  replace (JSDate.MakeDate (JSDate.MakeDay year (m - 1) d) 0 - LocalTZA host + LocalTZA host)
    with (JSDate.MakeDate (JSDate.MakeDay year (m - 1) d) 0) by lia.
  rewrite Day_MakeDate by (unfold JSDate.msPerDay; lia).
  unfold JSDate.MakeDay.
  rewrite (Z.div_small (m - 1) 12), (Z.mod_small (m - 1) 12) by lia.
  by rewrite Z.add_0_r.
Qed.

(** X6.  A date of birth written [DD/MM/YYYY] with a month 1..12 and a day of
    that month, once accepted, is that calendar date in the local zone: the
    year read (1900 more for a year 0..99), the month and the day. *)
Theorem slash_date_round_trip (host : Host) (today now' : Z)
    (dobString dd mm yyyy : string) (d m y dob : Z) :
  JS.trim dobString = dateText "/" dd mm yyyy ->
  Forall (fun p => JSString.includes p "/" = false) [dd; mm; yyyy] ->
  JS.parseInt dd 10 = JS.Finite d ->
  JS.parseInt mm 10 = JS.Finite m ->
  JS.parseInt yyyy 10 = JS.Finite y ->
  let year := if (0 <=? y) && (y <=? 99) then 1900 + y else y in
  1 <= m <= 12 ->
  1 <= d <= daysInMonth (m - 1) (JSDate.leapDays year) ->
  parseDateOfBirth host today now' dobString = Some dob ->
  JSDate.getFullYear (LocalTZA host) dob = year
  /\ JSDate.getMonth (LocalTZA host) dob = m - 1
  /\ JSDate.getDate (LocalTZA host) dob = d.
Proof.
  intros Htrim Hparts Hd Hm Hy year Hmonth Hday Hparse.
  unfold JSDate.getFullYear, JSDate.getMonth, JSDate.getDate.
  apply fields_of_day; [lia|done|].
  by eapply slash_date_day.
Qed.

Lemma slash_date_round_trip_witness :
  exists dob,
    parseDateOfBirth exampleHost (now exampleHost 0%nat) (now exampleHost 1%nat)
      " 29/02/2000 " = Some dob
    /\ JSDate.getFullYear (LocalTZA exampleHost) dob = 2000
    /\ JSDate.getMonth (LocalTZA exampleHost) dob = 1
    /\ JSDate.getDate (LocalTZA exampleHost) dob = 29.
Proof.
  eexists. split; [vm_compute; reflexivity|].
  eapply (slash_date_round_trip exampleHost (now exampleHost 0%nat) (now exampleHost 1%nat)
            " 29/02/2000 " "29" "02" "2000" 29 2 2000).
  - reflexivity.
  - repeat constructor.
  - reflexivity.
  - reflexivity.
  - reflexivity.
  - lia.
  - vm_compute. split; discriminate.
  - vm_compute. reflexivity.
Defined.

(** X7.  The day of the month is not checked.  A date of birth written
    [DD/MM/YYYY] for a month before December whose day is [e] days past the
    end of the month, [e] in 1..28, is accepted as day [e] of the month that
    follows: [31/02/2000] is read as 2 March 2000. *)
Theorem day_past_month_end (host : Host) (today now' : Z)
    (dobString dd mm yyyy : string) (d m y e dob : Z) :
  JS.trim dobString = dateText "/" dd mm yyyy ->
  Forall (fun p => JSString.includes p "/" = false) [dd; mm; yyyy] ->
  JS.parseInt dd 10 = JS.Finite d ->
  JS.parseInt mm 10 = JS.Finite m ->
  JS.parseInt yyyy 10 = JS.Finite y ->
  let year := if (0 <=? y) && (y <=? 99) then 1900 + y else y in
  1 <= m <= 11 ->
  d = daysInMonth (m - 1) (JSDate.leapDays year) + e ->
  1 <= e <= 28 ->
  parseDateOfBirth host today now' dobString = Some dob ->
  JSDate.getFullYear (LocalTZA host) dob = year
  /\ JSDate.getMonth (LocalTZA host) dob = m
  /\ JSDate.getDate (LocalTZA host) dob = e.
Proof.
  intros Htrim Hparts Hd Hm Hy year Hmonth Hover He Hparse.
  pose proof (slash_date_day host today now' dobString dd mm yyyy d m y dob
                Htrim Hparts Hd Hm Hy ltac:(lia) Hparse) as Hday.
  fold year in Hday.
  pose proof (leapDays_range year) as Hl.
  unfold JSDate.getFullYear, JSDate.getMonth, JSDate.getDate.
  remember (JSDate.leapDays year) as l eqn:El.
  assert (Hnext : JSDate.daysBeforeMonth m l
                  = JSDate.daysBeforeMonth (m - 1) l + daysInMonth (m - 1) l
                  /\ 28 <= daysInMonth m l).
  { assert (Em : m = 1 \/ m = 2 \/ m = 3 \/ m = 4 \/ m = 5 \/ m = 6 \/ m = 7 \/ m = 8
                 \/ m = 9 \/ m = 10 \/ m = 11) by lia.
    clear - Em Hl.
    repeat destruct Em as [->|Em]; try subst m;
      unfold JSDate.daysBeforeMonth, daysInMonth; simpl; lia. }
  destruct Hnext as [Hnext Hlong].
  apply fields_of_day; rewrite <- ?El; [lia|lia|].
  rewrite Hday, Hover, Hnext. lia.
Qed.

Lemma day_past_month_end_witness :
  exists dob,
    parseDateOfBirth exampleHost (now exampleHost 0%nat) (now exampleHost 1%nat)
      "31/02/2000" = Some dob
    /\ JSDate.getFullYear (LocalTZA exampleHost) dob = 2000
    /\ JSDate.getMonth (LocalTZA exampleHost) dob = 2
    /\ JSDate.getDate (LocalTZA exampleHost) dob = 2.
Proof.
  eexists. split; [vm_compute; reflexivity|].
  eapply (day_past_month_end exampleHost (now exampleHost 0%nat) (now exampleHost 1%nat)
            "31/02/2000" "31" "02" "2000" 31 2 2000 2).
  - reflexivity.
  - repeat constructor.
  - reflexivity.
  - reflexivity.
  - reflexivity.
  - lia.
  - vm_compute. reflexivity.
  - lia.
  - vm_compute. reflexivity.
Defined.

(** ** The pipeline *)

Section PipelineResult.
Import JSBigInt.

Lemma length_fold_insert {A : Type} (f : nat -> A) (indices : list nat) (a : list A) :
  length (fold_left (fun a i => <[i := f i]> a) indices a) = length a.
Proof.
  revert a. induction indices as [|i indices IH]; intros a; [done|].
  cbn [fold_left]. by rewrite IH, length_insert.
Qed.

Lemma toString_nonempty (n : Z) : (0 < String.length (toString n 16))%nat.
Proof.
  unfold toString. destruct (Z.eqb_spec n 0); [simpl; lia|].
  destruct (Z.ltb_spec n 0); [simpl; lia|].
  rewrite length_digitString.
  destruct (digitsOf_head 16 ltac:(lia) n) as (d & ds & -> & _); [lia|simpl; lia].
Qed.

Lemma length_padded (hex : string) :
  (String.length (if negb (String.length hex mod 2 =? 0)%nat then String "0" hex else hex) / 2
   = (String.length hex + 1) / 2)%nat.
Proof.
  set (len := String.length hex).
  pose proof (Nat.div_mod_eq len 2). pose proof (Nat.div_mod_eq (len + 1) 2).
  pose proof (Nat.div_mod_eq (S len) 2).
  pose proof (Nat.mod_upper_bound len 2). pose proof (Nat.mod_upper_bound (len + 1) 2).
  pose proof (Nat.mod_upper_bound (S len) 2).
  destruct (Nat.eqb_spec (len mod 2) 0) as [E|E]; cbn [negb String.length]; fold len; lia.
Qed.

(** The byte array has one byte for every two digits of the hexadecimal
    text, and is never empty. *)
Lemma length_convertBase10ToByteArray (s : string) (n : Z) (bytes : list byte) :
  StringToBigInt s = Some n ->
  convertBase10ToByteArray s = inl bytes ->
  length bytes = ((String.length (toString n 16) + 1) / 2)%nat /\ bytes <> [].
Proof.
  intros Hn. unfold convertBase10ToByteArray. rewrite Hn. intros H.
  apply (inj inl) in H.
  pose proof (toString_nonempty n) as Hpos.
  assert (Hlen : length bytes = ((String.length (toString n 16) + 1) / 2)%nat).
  { rewrite <- H, length_fold_insert, length_replicate. apply length_padded. }
  split; [exact Hlen|].
  intros Hnil. rewrite Hnil in Hlen. cbn [length] in Hlen.
  pose proof (Nat.div_mod_eq (String.length (toString n 16) + 1) 2).
  pose proof (Nat.mod_upper_bound (String.length (toString n 16) + 1) 2). lia.
Qed.

Lemma convertBase10ToByteArray_nonempty (s : string) (bytes : list byte) :
  convertBase10ToByteArray s = inl bytes -> bytes <> [].
Proof.
  intros H. destruct (StringToBigInt s) as [n|] eqn:Hn.
  - by destruct (length_convertBase10ToByteArray s n bytes Hn H).
  - unfold convertBase10ToByteArray in H. by rewrite Hn in H.
Qed.
End PipelineResult.

(** X8.  [processSecureQRData] fails exactly when [BigInt] rejects the text,
    or [pako.inflate] returns [undefined] or an empty array for its bytes.
    When [inflate] throws, the bytes are parsed as they are, and a record is
    returned. *)
Theorem processSecureQRData_fails (host : Host) (inflate : list byte -> Inflated)
    (rawData : string) :
  ((exists e, processSecureQRData host inflate rawData = inr e)
   <-> ~ StrIntegerLiteral (JS.trim rawData)
       \/ exists bytes, convertBase10ToByteArray rawData = inl bytes
            /\ (inflate bytes = InflateReturnsUndefined \/ inflate bytes = InflateReturns []))
  /\ forall bytes, convertBase10ToByteArray rawData = inl bytes ->
       inflate bytes = InflateThrows ->
       exists r, processSecureQRData host inflate rawData = inl r
         /\ extractDataFields host bytes = inl r.
Proof.
  split.
  - rewrite <- StringToBigInt_accepts.
    unfold processSecureQRData, decompressData.
    destruct (convertBase10ToByteArray rawData) as [bytes|e] eqn:Hconv.
    + assert (Hsome : is_Some (JSBigInt.StringToBigInt rawData)).
      { unfold convertBase10ToByteArray in Hconv.
        destruct (JSBigInt.StringToBigInt rawData); [eauto|discriminate]. }
      pose proof (convertBase10ToByteArray_nonempty _ _ Hconv) as Hne.
      destruct (inflate bytes) as [inflated| |] eqn:Hinf.
      * destruct (extractDataFields host inflated) as [r|e] eqn:Hr.
        -- split; [by intros [e [=]]|].
           intros [Hno|(bytes' & [= <-] & [Hu|He])]; [done|congruence|].
           assert (inflated = []) as -> by congruence. discriminate.
        -- split; [|eauto]. intros _. right. exists bytes. split; [done|]. right.
           rewrite Hinf. f_equal. apply (proj1 (extractDataFields_fails host inflated)). eauto.
      * split; [|eauto]. intros _. right. eauto.
      * destruct (extractDataFields host bytes) as [r|e] eqn:Hr.
        -- split; [by intros [e [=]]|].
           intros [Hno|(bytes' & [= <-] & [Hu|He])]; [done|congruence..].
        -- exfalso. apply Hne. apply (proj1 (extractDataFields_fails host bytes)). eauto.
    + split; [|eauto]. intros _. left. intros Hsome.
      unfold convertBase10ToByteArray in Hconv.
      destruct (JSBigInt.StringToBigInt rawData); [discriminate|by destruct Hsome].
  - intros bytes Hconv Hthrows.
    unfold processSecureQRData, decompressData. rewrite Hconv, Hthrows.
    destruct (extractDataFields host bytes) as [r|e] eqn:Hr; [eauto|].
    exfalso. apply (convertBase10ToByteArray_nonempty _ _ Hconv).
    apply (proj1 (extractDataFields_fails host bytes)). eauto.
Qed.

(** ** The second processor *)

Section SecondProcessor.

Lemma substr_substring (s : string) (i : nat) :
  JSMore.substr s (i * 2) 2 = JS.substring s (i * 2) (i * 2 + 2).
Proof.
  unfold JSMore.substr, JS.substring.
  set (size := String.length s).
  replace (Nat.min (Nat.min (i * 2) size) (Nat.min (i * 2 + 2) size))
    with (Nat.min (i * 2) size) by lia.
  replace (Nat.max (Nat.min (i * 2) size) (Nat.min (i * 2 + 2) size))
    with (Nat.min (i * 2 + 2) size) by lia.
  f_equal. lia.
Qed.

Lemma fold_left_equal {A B : Type} (f g : A -> B -> A) (l : list B) (a : A) :
  (forall a b, f a b = g a b) -> fold_left f l a = fold_left g l a.
Proof.
  intros H. revert a. induction l as [|b l IH]; intros a; [done|].
  cbn [fold_left]. by rewrite H, IH.
Qed.

(** The two converters compute the same bytes. *)
Lemma convert_bigIntToByteArray (s : string) (n : Z) :
  JSBigInt.StringToBigInt s = Some n ->
  convertBase10ToByteArray s = inl (QrProcessor.bigIntToByteArray n).
Proof.
  intros Hn. unfold convertBase10ToByteArray, QrProcessor.bigIntToByteArray.
  rewrite Hn. f_equal. apply fold_left_equal.
  intros a i. by rewrite substr_substring.
Qed.

Lemma bytesToString_same (bytes : list byte) :
  QrProcessor.bytesToString bytes = bytesToString bytes.
Proof.
  unfold QrProcessor.bytesToString.
  induction bytes as [|b bytes IH]; [done|]. cbn [map fold_right bytesToString].
  by rewrite IH.
Qed.

Lemma scan_findDelimiter (rest : list byte) (i : nat) :
  match QrProcessor.scan rest i with
  | Some j => j
  | None => (i + length rest)%nat
  end = findDelimiter rest i.
Proof.
  revert i. induction rest as [|b rest IH]; intros i; cbn [QrProcessor.scan findDelimiter].
  - simpl. lia.
  - change DELIMITER with xff. destruct (Byte.eqb b xff); [done|].
    rewrite <- IH. destruct (QrProcessor.scan rest (S i)); [done|]. simpl. lia.
Qed.

Lemma findDelimiter_same (byteArray : list byte) (startIndex : nat) :
  (startIndex <= length byteArray)%nat ->
  QrProcessor.findDelimiter byteArray startIndex
  = findDelimiter (drop startIndex byteArray) startIndex.
Proof.
  intros Hle. unfold QrProcessor.findDelimiter.
  rewrite <- scan_findDelimiter.
  destruct (QrProcessor.scan _ _); [done|]. rewrite length_drop. lia.
Qed.

Lemma findDelimiter_past_end (byteArray : list byte) (startIndex : nat) :
  (length byteArray <= startIndex)%nat ->
  QrProcessor.findDelimiter byteArray startIndex = length byteArray.
Proof.
  intros Hge. unfold QrProcessor.findDelimiter. by rewrite drop_ge.
Qed.

Lemma slice_past_end {A : Type} (a : list A) (i : nat) :
  (length a <= i)%nat -> JS.slice a (Z.of_nat i) (Z.of_nat (length a)) = [].
Proof.
  intros Hge. unfold JS.slice, JS.relativeIndex.
  destruct (Z.ltb_spec (Z.of_nat i) 0), (Z.ltb_spec (Z.of_nat (length a)) 0); try lia.
  replace (Z.to_nat (Z.max _ 0)) with 0%nat by lia. apply take_0.
Qed.

Lemma fieldsFrom_past_end (n : nat) (byteArray : list byte) (currentIndex i : nat) :
  (length byteArray <= currentIndex)%nat ->
  default EmptyString (fieldsFrom n byteArray currentIndex !! i) = EmptyString.
Proof.
  revert currentIndex i. induction n as [|n IH]; intros currentIndex i Hge; [done|].
  cbn [fieldsFrom]. rewrite findDelimiter_past_end by done.
  destruct i as [|i]; cbn [lookup list_lookup].
  - by rewrite slice_past_end.
  - apply IH. lia.
Qed.

Lemma readLoop_past_end fuel byteArray index fieldValues :
  (length byteArray <= index)%nat ->
  readLoop fuel byteArray index fieldValues = (fieldValues, index).
Proof.
  intros Hge. destruct fuel as [|fuel]; [done|]. simpl.
  by destruct (Nat.ltb_spec index (length byteArray)); [lia|].
Qed.

(** The fields of [parseByteArray] are the values of the first pass, in
    the same order, and empty where the first pass has none. *)
Lemma fieldsFrom_readLoop (n : nat) (byteArray : list byte) :
  forall (fuel index : nat) (fieldValues : list string) (i : nat),
    (n <= fuel)%nat -> (length fieldValues + n <= 16)%nat -> (i < n)%nat ->
    default EmptyString
      (fst (readLoop fuel byteArray index fieldValues) !! (length fieldValues + i)%nat)
    = default EmptyString (fieldsFrom n byteArray index !! i).
Proof.
  induction n as [|n IH]; intros fuel index fieldValues i Hfuel Hlen Hi; [lia|].
  destruct fuel as [|fuel]; [lia|].
  destruct (Nat.ltb_spec index (length byteArray)) as [Hlt|Hge].
  - rewrite readLoop_step by done. cbn [fieldsFrom].
    rewrite findDelimiter_same by lia.
    pose proof (findDelimiter_bounds (drop index byteArray) index) as Hb.
    rewrite length_drop in Hb.
    set (endIndex := findDelimiter (drop index byteArray) index) in *.
    rewrite slice_in_range, bytesToString_same by lia.
    set (value := bytesToString (take (endIndex - index) (drop index byteArray))).
    destruct i as [|i].
    + destruct (readLoop_extends fuel byteArray (S endIndex) (fieldValues ++ [value]))
        as [more Hmore].
      assert (Hvalue : forall rest : list string,
                 (fieldValues ++ [value] ++ rest) !! (length fieldValues + 0)%nat
                 = Some value).
      { intros rest. rewrite lookup_app_r by lia.
        by replace (length fieldValues + 0 - length fieldValues)%nat with 0%nat by lia. }
      destruct (15 <? _)%nat; cbn [fst].
      * specialize (Hvalue []). rewrite app_nil_r in Hvalue. by rewrite Hvalue.
      * rewrite Hmore, <- app_assoc, Hvalue. done.
    + cbn [lookup list_lookup].
      replace (endIndex + 1)%nat with (S endIndex) by lia.
      destruct (Nat.ltb_spec 15 (length (fieldValues ++ [value]))) as [Hfull|Hmore].
      * rewrite length_app in Hfull. simpl in Hfull. lia.
      * transitivity
          (default EmptyString
             (fst (readLoop fuel byteArray (S endIndex) (fieldValues ++ [value]))
              !! (length (fieldValues ++ [value]) + i)%nat)).
        { do 2 f_equal. rewrite length_app. simpl. lia. }
        apply IH; rewrite ?length_app; simpl; lia.
  - rewrite readLoop_past_end, fieldsFrom_past_end by done. cbn [fst].
    by rewrite lookup_ge_None_2 by lia.
Qed.

Lemma parseByteArray_field (byteArray : list byte) (i : nat) :
  (i < 5)%nat ->
  default EmptyString (readFieldValues byteArray !! i)
  = default EmptyString (fieldsFrom 5 byteArray 0 !! i).
Proof.
  intros Hi. unfold readFieldValues, readFields.
  apply (fieldsFrom_readLoop 5 byteArray 16 0 [] i); simpl; lia.
Qed.
End SecondProcessor.

(** X9.  [parseByteArray] reads the first five values of the decoder's first
    pass, empty where there is none: its indicator is the first value parsed
    as an integer of radix 10 or 16, and its [name], [dob], [gender] and [uid]
    are the second to the fifth value. *)
Theorem parseByteArray_first_pass (byteArray : list byte) :
  let fieldValues := readFieldValues byteArray in
  let field i := default EmptyString (fieldValues !! i) in
  let parsed := QrProcessor.parseByteArray byteArray in
  QrProcessor.emailMobileIndicator parsed = JSMore.parseInt (field 0%nat)
  /\ QrProcessor.name parsed = field 1%nat
  /\ QrProcessor.dob parsed = field 2%nat
  /\ QrProcessor.gender parsed = field 3%nat
  /\ QrProcessor.uid parsed = field 4%nat.
Proof.
  intros fieldValues field parsed. unfold field, fieldValues.
  rewrite !parseByteArray_field by lia.
  repeat split; reflexivity.
Qed.

(** X10.  Whenever [processSecureQRData] returns a record for a text,
    [processQrData] returns its fields for the same text; unless the second
    value is ["3"], what it calls [name] is the record's [referenceId], its
    [dob] is the record's [name], its [gender] the record's [dateOfBirth] and
    its [uid] the record's [gender] (the empty string for [undefined]). *)
Theorem second_processor_fields (host : Host) (inflate : list byte -> Inflated)
    (rawData : string) (r : IdentityRecord) :
  processSecureQRData host inflate rawData = inl r ->
  exists q, QrProcessor.processQrData inflate rawData = Some q
    /\ (QrProcessor.name q <> "3"%string ->
        QrProcessor.name q = default EmptyString (referenceId r)
        /\ QrProcessor.dob q = default EmptyString (name r)
        /\ QrProcessor.gender q = default EmptyString (dateOfBirth r)
        /\ QrProcessor.uid q = default EmptyString (gender r)).
Proof.
  intros H. unfold processSecureQRData, decompressData in H.
  destruct (convertBase10ToByteArray rawData) as [bytes|] eqn:Hconv; [|done].
  destruct (JSBigInt.StringToBigInt rawData) as [n|] eqn:Hn;
    [|unfold convertBase10ToByteArray in Hconv; by rewrite Hn in Hconv].
  rewrite (convert_bigIntToByteArray _ _ Hn) in Hconv. apply (inj inl) in Hconv.
  unfold QrProcessor.processQrData. rewrite Hn, Hconv. cbv zeta.
  assert (Hdata : exists data,
             match inflate bytes with
             | InflateReturns inflated => Some inflated
             | InflateReturnsUndefined => None
             | InflateThrows => Some bytes
             end = Some data /\ extractDataFields host data = inl r).
  { revert H. destruct (inflate bytes) as [inflated| |]; intros H; [|done|].
    - exists inflated. split; [done|]. revert H.
      destruct (extractDataFields host inflated); [by intros [= ->]|done].
    - exists bytes. split; [done|]. revert H.
      destruct (extractDataFields host bytes); [by intros [= ->]|done]. }
  destruct Hdata as (data & -> & Hr).
  exists (QrProcessor.parseByteArray data). split; [done|].
  change (QrProcessor.name (QrProcessor.parseByteArray data))
    with (default EmptyString (fieldsFrom 5 data 0 !! 1%nat)).
  change (QrProcessor.dob (QrProcessor.parseByteArray data))
    with (default EmptyString (fieldsFrom 5 data 0 !! 2%nat)).
  change (QrProcessor.gender (QrProcessor.parseByteArray data))
    with (default EmptyString (fieldsFrom 5 data 0 !! 3%nat)).
  change (QrProcessor.uid (QrProcessor.parseByteArray data))
    with (default EmptyString (fieldsFrom 5 data 0 !! 4%nat)).
  rewrite <- !parseByteArray_field by lia.
  intros Hsecond.
  destruct (extractDataFields_returns host data) as (first & r' & _ & Hr' & Ha).
  { intros ->. discriminate. }
  assert (r' = r) as -> by congruence.
  unfold assembled in Ha.
  rewrite correctFields_plain in Ha.
  2:{ intros [_ H3]. apply Hsecond. by rewrite H3. }
  destruct Ha as (_ & Hnamed & _).
  unfold namedFields in Hnamed. cbn [seq map] in Hnamed.
  by injection Hnamed as -> -> -> -> _.
Qed.

(** ** The byte codecs *)

Section Codecs.
Import JSBigInt.

Lemma bigIntToByteArray_bytes (n : Z) :
  0 <= n ->
  QrProcessor.bigIntToByteArray n
  = if n =? 0 then [x00]
    else map (fun z => JS.toUint8 (JS.Finite z)) (digitsOf 256 n).
Proof.
  intros Hn. destruct (Z.eqb_spec n 0) as [->|Hne]; [reflexivity|].
  unfold QrProcessor.bigIntToByteArray. cbv zeta.
  pose proof (convert_positive n ltac:(lia)) as Hhex. cbv zeta in Hhex. rewrite Hhex.
  erewrite fold_left_equal by (intros; by rewrite substr_substring).
  pose proof (convert_loop (padEven (digitsOf 16 n)) (length_padEven _)) as Hloop.
  cbv zeta in Hloop. rewrite Hloop.
  - by rewrite hex_pairs.
  - apply Forall_padEven. apply (digitsOf_range 16); lia.
Qed.

Lemma byteToHex_value (b : byte) :
  JS.parseInt (byteToHex b) 16 = JS.Finite (Z.of_N (Byte.to_N b)).
Proof. destruct b; vm_compute; reflexivity. Qed.

Lemma byteToHex_inj (a b : byte) : byteToHex a = byteToHex b -> a = b.
Proof.
  intros H. apply (f_equal (fun s => JS.parseInt s 16)) in H.
  rewrite !byteToHex_value in H. injection H as H. apply N2Z.inj in H.
  apply (inj Some). by rewrite <- !Byte.of_to_N, H.
Qed.

Lemma append_inj_length (x y s t : string) :
  String.length x = String.length y -> x +:+ s = y +:+ t -> x = y /\ s = t.
Proof.
  revert y. induction x as [|c x IH]; intros [|d y] Hlen H; try discriminate; [done|].
  simpl in H. injection H as -> H. injection Hlen as Hlen.
  destruct (IH y Hlen H) as [-> ->]. done.
Qed.
End Codecs.

(** X14.  [bigIntToByteArray] gives a non-negative integer as its big-endian
    bytes without a leading zero byte (the single byte 0 for zero), and these
    are the bytes [convertBase10ToByteArray] computes from a text of that
    integer. *)
Theorem bigIntToByteArray_round_trip (n : Z) :
  0 <= n ->
  bytesValue (QrProcessor.bigIntToByteArray n) = n
  /\ minimalBytes (QrProcessor.bigIntToByteArray n)
  /\ forall s, JSBigInt.StringToBigInt s = Some n ->
       convertBase10ToByteArray s = inl (QrProcessor.bigIntToByteArray n).
Proof.
  intros Hn. split; [|split; [|intros s Hs; by apply convert_bigIntToByteArray]];
    rewrite bigIntToByteArray_bytes by done;
    destruct (Z.eqb_spec n 0) as [Hz|Hnz]; try (by subst); try (by left).
  - rewrite bytesValue_digits by (apply (digitsOf_range 256); lia).
    apply digitsOf_value; lia.
  - right.
    destruct (digitsOf_head 256 ltac:(lia) n) as (d & ds & Hds & Hd); [lia|].
    pose proof (digitsOf_range 256 ltac:(lia) n Hn) as Hrange.
    rewrite Hds in Hrange |- *. apply Forall_cons in Hrange as [Hd256 _].
    cbn [map]. eexists _, _. split; [reflexivity|].
    intros H0. apply (f_equal (fun b => Z.of_N (Byte.to_N b))) in H0.
    rewrite toUint8_value in H0 by lia. simpl in H0. lia.
Qed.

Lemma bigIntToByteArray_round_trip_witness :
  bytesValue (QrProcessor.bigIntToByteArray 256) = 256
  /\ minimalBytes (QrProcessor.bigIntToByteArray 256)
  /\ forall s, JSBigInt.StringToBigInt s = Some 256 ->
       convertBase10ToByteArray s = inl (QrProcessor.bigIntToByteArray 256).
Proof. apply (bigIntToByteArray_round_trip 256). lia. Defined.

(** X15.  [bytesToHexString] writes two characters for every byte, and
    different byte arrays give different texts. *)
Theorem bytesToHexString_lossless :
  (forall bytes, String.length (bytesToHexString bytes) = (2 * length bytes)%nat)
  /\ forall a b, bytesToHexString a = bytesToHexString b -> a = b.
Proof.
  split; [apply length_bytesToHexString|].
  induction a as [|x a IH]; intros [|y b] H.
  - done.
  - apply (f_equal String.length) in H. rewrite !length_bytesToHexString in H.
    simpl in H. lia.
  - apply (f_equal String.length) in H. rewrite !length_bytesToHexString in H.
    simpl in H. lia.
  - cbn [bytesToHexString fold_right] in H.
    apply append_inj_length in H as [Hxy Hab];
      [|by rewrite !length_byteToHex].
    apply byteToHex_inj in Hxy as ->. f_equal. by apply IH.
Qed.

(** ** The hash of a string *)

Section HashString.
Import JSMore.

Lemma toInt32_shift (z : Z) : exists k, toInt32 z = z + k * 2 ^ 32.
Proof.
  exists (- ((z + 2 ^ 31) / 2 ^ 32)). unfold toInt32.
  rewrite Z.mod_eq by lia. lia.
Qed.

Lemma toInt32_add_multiple (z k : Z) : toInt32 (z + k * 2 ^ 32) = toInt32 z.
Proof.
  unfold toInt32.
  replace (z + k * 2 ^ 32 + 2 ^ 31) with (z + 2 ^ 31 + k * 2 ^ 32) by lia.
  by rewrite Z.mod_add by lia.
Qed.

Lemma toInt32_range (z : Z) : - 2 ^ 31 <= toInt32 z < 2 ^ 31.
Proof.
  unfold toInt32. pose proof (Z.mod_pos_bound (z + 2 ^ 31) (2 ^ 32) ltac:(lia)). lia.
Qed.

Lemma hash_step (h c : Z) :
  toInt32 (toInt32 (toInt32 h * 2 ^ 5) - toInt32 h + c) = toInt32 (31 * h + c).
Proof.
  destruct (toInt32_shift h) as [k ->].
  destruct (toInt32_shift ((h + k * 2 ^ 32) * 2 ^ 5)) as [k' ->].
  replace ((h + k * 2 ^ 32) * 2 ^ 5 + k' * 2 ^ 32 - (h + k * 2 ^ 32) + c)
    with (31 * h + c + (31 * k + k') * 2 ^ 32) by lia.
  apply toInt32_add_multiple.
Qed.

Lemma hash_loop (str : list Z) (h : Z) :
  fold_left (fun hash char => toInt32 (toInt32 (hash * 2 ^ 5) - hash + char)) str (toInt32 h)
  = toInt32 (fold_left (fun hash char => 31 * hash + char) str h).
Proof.
  revert h. induction str as [|c str IH]; intros h; [done|].
  cbn [fold_left]. by rewrite hash_step, IH.
Qed.
End HashString.

(** X11.  [hashString] is the absolute value of the 32-bit two's-complement
    reading of the polynomial [c0 * 31^(n-1) + ... + c(n-1)] of the code units
    (Java's [String.hashCode]), so that it lies between 0 and 2^31
    inclusive. *)
Theorem hashString_polynomial (str : list Z) :
  ZkProofs.hashString str
  = Z.abs (JSMore.toInt32 (fold_left (fun hash char => 31 * hash + char) str 0))
  /\ 0 <= ZkProofs.hashString str <= 2 ^ 31.
Proof.
  assert (H : ZkProofs.hashString str
              = Z.abs (JSMore.toInt32 (fold_left (fun hash char => 31 * hash + char) str 0))).
  { unfold ZkProofs.hashString. destruct str as [|c str]; [done|].
    f_equal. exact (hash_loop (c :: str) 0). }
  split; [exact H|]. rewrite H.
  pose proof (toInt32_range (fold_left (fun hash char => 31 * hash + char) str 0)). lia.
Qed.

(** ** Image filters *)

Section Filters.

Lemma thresholdAt_lookup (data : list byte) (k j : nat) :
  thresholdAt data k !! j
  = if decide (j = k) then (fun b => threshold (Some b)) <$> data !! k else data !! j.
Proof.
  unfold thresholdAt. destruct (decide (j = k)) as [->|Hne].
  - destruct (data !! k) as [b|] eqn:E.
    + apply list_lookup_insert_eq. by eapply lookup_lt_Some.
    + rewrite list_insert_ge by (by apply lookup_ge_None). by rewrite E.
  - by apply list_lookup_insert_ne.
Qed.

Lemma pixel_lookup (data : list byte) (q j : nat) :
  fold_left (fun data c => thresholdAt data (4 * q + c)) (seq 0 3) data !! j
  = if decide (4 * q <= j < 4 * q + 3)%nat
    then (fun b => threshold (Some b)) <$> data !! j else data !! j.
Proof.
  cbn [seq fold_left]. rewrite !thresholdAt_lookup.
  repeat case_decide; subst; try lia; try done.
  all: rewrite ?thresholdAt_lookup; repeat case_decide; try lia; done.
Qed.

Lemma highContrast_loop (data : list byte) (m : nat) (j : nat) :
  fold_left
    (fun data q => fold_left (fun data c => thresholdAt data (4 * q + c)) (seq 0 3) data)
    (seq 0 m) data !! j
  = if decide (j < 4 * m /\ j mod 4 <> 3)%nat
    then (fun b => threshold (Some b)) <$> data !! j else data !! j.
Proof.
  induction m as [|m IH].
  - cbn [seq fold_left]. case_decide; [lia|done].
  - rewrite (seq_S m 0), fold_left_app. cbn [fold_left]. rewrite pixel_lookup, IH.
    pose proof (Nat.div_mod_eq j 4). pose proof (Nat.mod_upper_bound j 4).
    repeat case_decide; try lia; done.
Qed.
End Filters.

(** X12.  [applyHighContrast] maps every colour byte below 128 to 0 and every
    other colour byte to 255, leaves every fourth byte (the alpha channel) as
    it is, and changes nothing when applied a second time. *)
Theorem applyHighContrast_pointwise (data : list byte) :
  applyHighContrast data
  = imap (fun k b => if (k mod 4 =? 3)%nat then b else threshold (Some b)) data
  /\ applyHighContrast (applyHighContrast data) = applyHighContrast data.
Proof.
  assert (H : forall data,
             applyHighContrast data
             = imap (fun k b => if (k mod 4 =? 3)%nat then b else threshold (Some b)) data).
  { clear data. intros data. apply list_eq. intros j.
    unfold applyHighContrast. rewrite highContrast_loop, list_lookup_imap.
    pose proof (Nat.div_mod_eq (length data + 3) 4).
    pose proof (Nat.mod_upper_bound (length data + 3) 4).
    destruct (data !! j) as [b|] eqn:E; cbn [fmap option_fmap option_map].
    - apply lookup_lt_Some in E.
      case_decide as Hm; destruct (Nat.eqb_spec (j mod 4) 3); try done; lia.
    - by case_decide. }
  split; [apply H|].
  rewrite !H. apply list_eq. intros j. rewrite !list_lookup_imap.
  destruct (data !! j) as [b|]; [|done]. cbn [fmap option_fmap option_map].
  destruct (j mod 4 =? 3)%nat; [done|].
  f_equal. unfold threshold. by destruct (Byte.to_N b <? 128)%N.
Qed.

Section Sharpen.

Lemma fold_left_fixed {A B : Type} (f : A -> B -> A) (l : list B) (a : A) :
  (forall x, x ∈ l -> f a x = a) -> fold_left f l a = a.
Proof.
  induction l as [|x l IH]; intros H; [done|].
  cbn [fold_left]. rewrite H by left. apply IH. intros x' Hx'. apply H. by right.
Qed.

Lemma flat_lookup (pixel : list byte) (n k : nat) :
  length pixel = 4%nat -> (k < 4 * n)%nat ->
  concat (replicate n pixel) !! k = pixel !! (k mod 4)%nat.
Proof.
  intros Hpixel. revert k. induction n as [|n IH]; intros k Hk; [lia|].
  cbn [replicate concat].
  pose proof (Nat.div_mod_eq k 4). pose proof (Nat.mod_upper_bound k 4).
  destruct (decide (k < 4)%nat) as [Hlt|Hge].
  - rewrite lookup_app_l by lia. f_equal. lia.
  - rewrite lookup_app_r, IH by lia. f_equal.
    pose proof (Nat.div_mod_eq (k - length pixel) 4).
    pose proof (Nat.mod_upper_bound (k - length pixel) 4). lia.
Qed.

Lemma toUint8Clamp_byte (b : byte) :
  toUint8Clamp (Some (Z.min 255 (Z.max 0 (Z.of_N (Byte.to_N b))))) = b.
Proof.
  pose proof (Byte.to_N_bounded b) as Hb. unfold toUint8Clamp.
  replace (Z.min 255 (Z.max 0 (Z.min 255 (Z.max 0 (Z.of_N (Byte.to_N b))))))
    with (Z.of_N (Byte.to_N b)) by lia.
  by rewrite N2Z.id, Byte.of_to_N.
Qed.

Lemma sharpenAt_flat (data : list byte) (width i : nat) (b : byte) :
  data !! i = Some b ->
  data !! (i - width * 4)%nat = Some b ->
  data !! (i - 4)%nat = Some b ->
  data !! (i + 4)%nat = Some b ->
  data !! (i + width * 4)%nat = Some b ->
  sharpenAt data data width i = data.
Proof.
  intros Hc Ha Hl Hr Hb. unfold sharpenAt. rewrite Hc, Ha, Hl, Hr, Hb.
  cbn [fmap option_fmap option_map].
  replace (5 * Z.of_N (Byte.to_N b) - Z.of_N (Byte.to_N b) - Z.of_N (Byte.to_N b)
           - Z.of_N (Byte.to_N b) - Z.of_N (Byte.to_N b))
    with (Z.of_N (Byte.to_N b)) by lia.
  rewrite toUint8Clamp_byte. by apply list_insert_id.
Qed.
End Sharpen.

(** X13.  [applySharpen] leaves an image of one colour as it is. *)
Theorem applySharpen_flat (width height : nat) (pixel : list byte) :
  length pixel = 4%nat ->
  let data := concat (replicate (width * height) pixel) in
  applySharpen width height data = data.
Proof.
  intros Hpixel data. unfold applySharpen.
  apply fold_left_fixed. intros y [Hy1 Hy2]%elem_of_seq.
  apply fold_left_fixed. intros x [Hx1 Hx2]%elem_of_seq.
  apply fold_left_fixed. intros c [_ Hc]%elem_of_seq.
  destruct (lookup_lt_is_Some_2 pixel c ltac:(lia)) as [b Hb].
  set (p := (y * width)%nat).
  assert (Hp : (width <= p /\ p + 2 * width <= width * height)%nat) by (unfold p; nia).
  set (n := (width * height)%nat) in *.
  apply (sharpenAt_flat data width _ b); unfold data;
    (rewrite flat_lookup; [|done|lia]); rewrite <- Hb; f_equal;
    match goal with |- (?k mod 4)%nat = _ =>
      pose proof (Nat.div_mod_eq k 4); pose proof (Nat.mod_upper_bound k 4); lia
    end.
Qed.

Lemma applySharpen_flat_witness :
  let data := concat (replicate (3 * 3) [x10; x20; x30; xff]) in
  applySharpen 3 3 data = data.
Proof. apply (applySharpen_flat 3 3 [x10; x20; x30; xff]). reflexivity. Defined.

(** ** The theorems on the sample card *)

Lemma well_formed_payload_parsed_witness :
  exists r, extractDataFields exampleHost samplePayload = inl r
    /\ emailMobilePresent r = JS.Finite 2
    /\ namedFields r = map (fun i => bytesToString <$> sampleTokens !! i) (seq 1 14)
    /\ vtc r = bytesToString <$> sampleTokens !! 15%nat
    /\ photo r = [x89; x50; x4e; x47]
    /\ emailHash r = expectedEmailHash 2 (replicate 32 xaa)
    /\ mobileHash r = expectedMobileHash 2 (replicate 32 xbb)
    /\ signature r = replicate 256 x07.
Proof.
  apply (well_formed_payload_parsed exampleHost sampleTokens (latin1 "2") 2
           [x89; x50; x4e; x47] (replicate 32 xaa) (replicate 32 xbb) (replicate 256 x07)).
  - unfold sampleTokens. cbn [map]. repeat (constructor; try discriminate).
  - reflexivity.
  - reflexivity.
  - reflexivity.
  - reflexivity.
  - reflexivity.
  - reflexivity.
Defined.

Lemma corrected_payload_parsed_witness :
  let mid := map latin1
    ["REF"; "Asha"; "15/06/2000"; "F"; "c"; "d"; "l"; "h"; "loc"; "411001"; "po"; "MH";
     "st"]%string in
  let tokens := latin1 "V2" :: latin1 "3" :: mid ++ [latin1 "Pune"] in
  let payload :=
    delimited tokens ++ [x01; x02; x03; x04; x05] ++ replicate 32 xaa ++ replicate 32 xbb
    ++ replicate 256 x07 in
  exists r, extractDataFields exampleHost payload = inl r
    /\ emailMobilePresent r = JS.Finite 3
    /\ namedFields r = map (fun t => Some (bytesToString t)) (mid ++ [latin1 "Pune"])
    /\ vtc r = Some (bytesToString (latin1 "Pune"))
    /\ photo r = drop (length (latin1 "Pune")) (DELIMITER :: [x01; x02; x03; x04; x05])
    /\ emailHash r = Some (bytesToHexString (replicate 32 xaa))
    /\ mobileHash r = Some (bytesToHexString (replicate 32 xbb))
    /\ signature r = replicate 256 x07.
Proof.
  intros mid tokens payload.
  apply (corrected_payload_parsed exampleHost (latin1 "V2") (latin1 "Pune") mid
           [x01; x02; x03; x04; x05] (replicate 32 xaa) (replicate 32 xbb)
           (replicate 256 x07)).
  - unfold mid. cbn [map app]. repeat (constructor; try discriminate).
  - reflexivity.
  - reflexivity.
  - reflexivity.
  - reflexivity.
  - reflexivity.
Defined.

Lemma derived_age_in_range_witness :
  exists r a, extractDataFields exampleHost samplePayload = inl r
    /\ age r = Some a /\ (0 <= a <= 120 /\ isAdult r = Some (18 <=? a)).
Proof.
  assert (H : exists r, extractDataFields exampleHost samplePayload = inl r
                /\ age r = Some 26).
  { eexists. split; vm_compute; reflexivity. }
  destruct H as (r & Hr & Ha). exists r, 26. split; [exact Hr|]. split; [exact Ha|].
  apply (derived_age_in_range exampleHost samplePayload r 26 Hr Ha).
  - vm_compute. split; discriminate.
  - vm_compute. split; discriminate.
  - vm_compute. discriminate.
  - reflexivity.
Defined.

Lemma processSecureQRData_fails_witness :
  exists r, processSecureQRData exampleHost (fun _ => InflateThrows) "49" = inl r
    /\ extractDataFields exampleHost [x31] = inl r.
Proof.
  apply (proj2 (processSecureQRData_fails exampleHost (fun _ => InflateThrows) "49") [x31]);
    reflexivity.
Defined.

Lemma second_processor_fields_witness :
  let inflate := fun _ : list byte => InflateReturns samplePayload in
  exists r q, processSecureQRData exampleHost inflate "0" = inl r
    /\ QrProcessor.processQrData inflate "0" = Some q
    /\ QrProcessor.name q = default EmptyString (referenceId r)
    /\ QrProcessor.dob q = default EmptyString (name r)
    /\ QrProcessor.gender q = default EmptyString (dateOfBirth r)
    /\ QrProcessor.uid q = default EmptyString (gender r).
Proof.
  intros inflate.
  assert (H : exists r, processSecureQRData exampleHost inflate "0" = inl r).
  { eexists. vm_compute. reflexivity. }
  destruct H as [r Hr].
  destruct (second_processor_fields exampleHost inflate "0" r Hr) as (q & Hq & Hfields).
  exists r, q. split; [exact Hr|]. split; [exact Hq|].
  apply Hfields. vm_compute in Hq. injection Hq as <-. discriminate.
Defined.

(** ** Written dates and the range check *)

Section WrittenDates.
Import JSDate.

(** The day of an instant, from its calendar fields. *)
Lemma day_of_fields (t : Z) :
  let y := YearFromTime t in
  let m := MonthFromTime t in
  let d := DateFromTime t in
  Day t = DayFromYear y + daysBeforeMonth m (leapDays y) + d - 1
  /\ 0 <= m <= 11 /\ 1 <= d <= daysInMonth m (leapDays y).
Proof.
  intros y m d.
  pose proof (DayWithinYear_range t) as Hw.
  pose proof (leapDays_range (YearFromTime t)) as Hl.
  split; [unfold d, DateFromTime, DayWithinYear; fold y m; lia|].
  split; [apply MonthFromTime_range|].
  unfold d, m, DateFromTime, MonthFromTime. fold y in Hw, Hl |- *.
  set (w := DayWithinYear t) in *. set (l := leapDays y) in *.
  repeat match goal with
         | |- context [if ?a <? ?b then _ else _] => destruct (Z.ltb_spec a b)
         end; unfold daysBeforeMonth, daysInMonth; simpl; lia.
Qed.

Lemma daysBeforeMonth_next (m l : Z) :
  0 <= m <= 10 -> daysBeforeMonth (m + 1) l = daysBeforeMonth m l + daysInMonth m l.
Proof.
  intros Hm.
  assert (Em : m = 0 \/ m = 1 \/ m = 2 \/ m = 3 \/ m = 4 \/ m = 5 \/ m = 6
               \/ m = 7 \/ m = 8 \/ m = 9 \/ m = 10) by lia.
  clear Hm. repeat (destruct Em as [->|Em]); try subst m;
    unfold daysBeforeMonth, daysInMonth; simpl; lia.
Qed.

Lemma daysBeforeMonth_mono (m1 m2 l : Z) :
  0 <= m1 -> m1 <= m2 -> m2 <= 11 -> 0 <= l <= 1 ->
  0 <= daysBeforeMonth m1 l <= daysBeforeMonth m2 l.
Proof.
  intros H1 H12 H2 Hl. unfold daysBeforeMonth.
  repeat match goal with
         | |- context [if ?a =? ?b then _ else _] => destruct (Z.eqb_spec a b)
         end; lia.
Qed.

Lemma daysInYear_bound (m d l : Z) :
  0 <= m <= 11 -> 0 <= l <= 1 -> d <= daysInMonth m l ->
  daysBeforeMonth m l + d <= 365 + l.
Proof.
  intros Hm Hl Hd.
  assert (Em : m = 0 \/ m = 1 \/ m = 2 \/ m = 3 \/ m = 4 \/ m = 5 \/ m = 6
               \/ m = 7 \/ m = 8 \/ m = 9 \/ m = 10 \/ m = 11) by lia.
  clear Hm. repeat (destruct Em as [->|Em]); try subst m;
    unfold daysBeforeMonth, daysInMonth in *; simpl in *; lia.
Qed.

(** An earlier date has a smaller day number; the later one need not exist
    in the calendar (29 February is counted on into March). *)
Lemma dateBefore_days (y1 m1 d1 y2 m2 d2 : Z) :
  0 <= m1 <= 11 -> 1 <= d1 <= daysInMonth m1 (leapDays y1) ->
  0 <= m2 <= 11 -> 1 <= d2 ->
  dateBefore (y1, m1, d1) (y2, m2, d2) ->
  DayFromYear y1 + daysBeforeMonth m1 (leapDays y1) + d1 - 1
  < DayFromYear y2 + daysBeforeMonth m2 (leapDays y2) + d2 - 1.
Proof.
  intros Hm1 Hd1 Hm2 Hd2 Hbefore.
  pose proof (leapDays_range y1) as Hl1. pose proof (leapDays_range y2) as Hl2.
  destruct Hbefore as [Hy|[<- Hmd]].
  - pose proof (daysInYear_bound m1 d1 (leapDays y1) Hm1 Hl1 ltac:(lia)).
    pose proof (DayFromYear_mono (y1 + 1) y2 ltac:(lia)).
    pose proof (daysBeforeMonth_mono 0 m2 (leapDays y2) ltac:(lia) ltac:(lia) ltac:(lia) Hl2).
    assert (DayFromYear (y1 + 1) = DayFromYear y1 + 365 + leapDays y1)
      by (unfold leapDays, DaysInYear; lia).
    lia.
  - destruct Hmd as [Hm|[<- Hd]]; [|lia].
    pose proof (daysBeforeMonth_next m1 (leapDays y1) ltac:(lia)).
    pose proof (daysBeforeMonth_mono (m1 + 1) m2 (leapDays y1)
                  ltac:(lia) ltac:(lia) ltac:(lia) Hl1).
    lia.
Qed.

Lemma before_next_day (t : Z) : t < (Day t + 1) * msPerDay.
Proof.
  unfold Day, msPerDay.
  pose proof (Z.div_mod t 86400000 ltac:(lia)).
  pose proof (Z.mod_pos_bound t 86400000 ltac:(lia)). lia.
Qed.

Variable host : Host.

(** What [parseDateOfBirth] makes of a text [DD/MM/YYYY], with [birth] the
    local midnight that starts the day written. *)
Lemma parseDateOfBirth_slash (today now' : Z) (dobString dd mm yyyy : string) (d m y : Z) :
  JS.trim dobString = dateText "/" dd mm yyyy ->
  Forall (fun p => JSString.includes p "/" = false) [dd; mm; yyyy] ->
  JS.parseInt dd 10 = JS.Finite d ->
  JS.parseInt mm 10 = JS.Finite m ->
  JS.parseInt yyyy 10 = JS.Finite y ->
  1 <= m <= 12 ->
  let year := if (0 <=? y) && (y <=? 99) then 1900 + y else y in
  let birth := UTC (LocalTZA host) (MakeDate (MakeDay year (m - 1) d) 0) in
  parseDateOfBirth host today now' dobString
  = match TimeClip birth with
    | Some dob => sanityCheck host today now' dob
    | None => None
    end.
Proof.
  intros Htrim Hparts Hd Hm Hy Hmonth year birth.
  apply Forall_cons in Hparts as [Hd1 Hparts].
  apply Forall_cons in Hparts as [Hm1 Hparts].
  apply Forall_cons in Hparts as [Hy1 _].
  unfold parseDateOfBirth.
  rewrite Htrim, readDate_slash by done.
  unfold ofParts. rewrite Hd, Hm, Hy.
  cbn [JS.isNaN orb JS.sub]. rewrite ofInteger_exact by lia.
  reflexivity.
Qed.

Lemma MakeDay_in_year (year m d : Z) :
  0 <= m <= 11 ->
  MakeDay year m d = DayFromYear year + daysBeforeMonth m (leapDays year) + d - 1.
Proof.
  intros Hm. unfold MakeDay.
  rewrite (Z.div_small m 12), (Z.mod_small m 12) by lia.
  by rewrite Z.add_0_r.
Qed.

Lemma day_lt_instant (tza t N : Z) :
  Day (LocalTime tza t) < N -> t < UTC tza (MakeDate N 0).
Proof.
  intros Hlt. pose proof (before_next_day (LocalTime tza t)) as Hnext.
  unfold LocalTime, UTC, MakeDate, msPerDay in *. lia.
Qed.

Lemma instant_lt_day (tza N N' time : Z) :
  N < N' -> 0 <= time -> UTC tza (MakeDate N 0) < UTC tza (MakeDate N' time).
Proof. intros Hlt Htime. unfold UTC, MakeDate, msPerDay. lia. Qed.

Lemma setFullYear_value (tza t year c : Z) :
  setFullYear tza t year = Some c ->
  c = UTC tza (MakeDate (MakeDay year (MonthFromTime (LocalTime tza t))
                           (DateFromTime (LocalTime tza t)))
                 (TimeWithinDay (LocalTime tza t))).
Proof.
  unfold setFullYear, TimeClip. destruct (_ <? _); [done|]. by intros [= <-].
Qed.

Lemma sanityCheck_future (today now' dob : Z) :
  today < dob -> sanityCheck host today now' dob = None.
Proof. intros H. unfold sanityCheck. by destruct (Z.ltb_spec today dob); [|lia]. Qed.

Lemma sanityCheck_old (today now' dob c : Z) :
  JSDate.setFullYear (LocalTZA host) now' (getFullYear (LocalTZA host) today - 120) = Some c ->
  dob < c -> sanityCheck host today now' dob = None.
Proof.
  intros Hc H. unfold sanityCheck. destruct (_ <? _); [done|].
  rewrite Hc. by destruct (Z.ltb_spec dob c); [|lia].
Qed.

Lemma written_date_future (today now' : Z) (dobString dd mm yyyy : string) (d m y : Z) :
  JS.trim dobString = dateText "/" dd mm yyyy ->
  Forall (fun p => JSString.includes p "/" = false) [dd; mm; yyyy] ->
  JS.parseInt dd 10 = JS.Finite d ->
  JS.parseInt mm 10 = JS.Finite m ->
  JS.parseInt yyyy 10 = JS.Finite y ->
  let year := if (0 <=? y) && (y <=? 99) then 1900 + y else y in
  1 <= m <= 12 ->
  1 <= d ->
  dateBefore (localDate host today) (year, m - 1, d) ->
  parseDateOfBirth host today now' dobString = None.
Proof.
  intros Htrim Hparts Hd Hm Hy year Hmonth Hday Hfuture.
  rewrite (parseDateOfBirth_slash today now' dobString dd mm yyyy d m y) by done.
  fold year. destruct (TimeClip _) as [dob|] eqn:Hclip; [|done].
  unfold TimeClip in Hclip. destruct (_ <? _); [done|]. injection Hclip as <-.
  apply sanityCheck_future, day_lt_instant.
  rewrite MakeDay_in_year by lia.
  destruct (day_of_fields (LocalTime (LocalTZA host) today)) as (-> & Hm' & Hd').
  exact (dateBefore_days _ _ _ year (m - 1) d Hm' Hd' ltac:(lia) Hday Hfuture).
Qed.

Lemma written_date_old (today now' : Z) (dobString dd mm yyyy : string) (d m y : Z) :
  JS.trim dobString = dateText "/" dd mm yyyy ->
  Forall (fun p => JSString.includes p "/" = false) [dd; mm; yyyy] ->
  JS.parseInt dd 10 = JS.Finite d ->
  JS.parseInt mm 10 = JS.Finite m ->
  JS.parseInt yyyy 10 = JS.Finite y ->
  let year := if (0 <=? y) && (y <=? 99) then 1900 + y else y in
  1 <= m <= 12 ->
  1 <= d <= daysInMonth (m - 1) (leapDays year) ->
  localDate host now' = localDate host today ->
  - msPerDay <= LocalTZA host <= msPerDay ->
  - 269880 <= getFullYear (LocalTZA host) today <= 270120 ->
  dateBefore (year, m - 1, d) (yearsEarlier 120 (localDate host today)) ->
  parseDateOfBirth host today now' dobString = None.
Proof.
  intros Htrim Hparts Hd Hm Hy year Hmonth Hday Hsame Htza Hrange Hold.
  rewrite (parseDateOfBirth_slash today now' dobString dd mm yyyy d m y) by done.
  fold year. destruct (TimeClip _) as [dob|] eqn:Hclip; [|done].
  unfold TimeClip in Hclip. destruct (_ <? _); [done|]. injection Hclip as <-.
  destruct (setFullYear_defined (LocalTZA host) now'
              (getFullYear (LocalTZA host) today - 120)) as [c Hc]; [done|lia|].
  apply (sanityCheck_old today now' _ c Hc).
  rewrite (setFullYear_value _ _ _ _ Hc).
  pose proof (Z.mod_pos_bound (LocalTime (LocalTZA host) now') msPerDay
                ltac:(unfold msPerDay; lia)) as [Htime _].
  apply instant_lt_day; [|exact Htime].
  injection Hsame as _ Hmonth' Hdate'.
  change (MonthFromTime (LocalTime (LocalTZA host) now')) with (getMonth (LocalTZA host) now').
  change (DateFromTime (LocalTime (LocalTZA host) now')) with (getDate (LocalTZA host) now').
  rewrite Hmonth', Hdate'.
  destruct (day_of_fields (LocalTime (LocalTZA host) today)) as (_ & Hm' & Hd').
  rewrite !MakeDay_in_year by (exact Hm' || lia).
  exact (dateBefore_days year (m - 1) d (getFullYear (LocalTZA host) today - 120)
           (getMonth (LocalTZA host) today) (getDate (LocalTZA host) today)
           ltac:(lia) Hday Hm' (proj1 Hd') Hold).
Qed.
End WrittenDates.

(** X16.  Where the range check holds.  For a date of birth written
    [DD/MM/YYYY] with a month 1..12 and a day of that month, a year 0..99
    standing for 1900 more, and two readings of the clock on the same
    calendar day: [parseDateOfBirth] returns nothing when the date comes
    after today's date, and nothing when it comes before today's day and
    month of 120 years earlier; every date it returns is the date written,
    not after today's date and not before that day 120 years earlier. *)
Theorem written_date_in_range (host : Host) (today now' : Z)
    (dobString dd mm yyyy : string) (d m y : Z) :
  JS.trim dobString = dateText "/" dd mm yyyy ->
  Forall (fun p => JSString.includes p "/" = false) [dd; mm; yyyy] ->
  JS.parseInt dd 10 = JS.Finite d ->
  JS.parseInt mm 10 = JS.Finite m ->
  JS.parseInt yyyy 10 = JS.Finite y ->
  let year := if (0 <=? y) && (y <=? 99) then 1900 + y else y in
  1 <= m <= 12 ->
  1 <= d <= daysInMonth (m - 1) (JSDate.leapDays year) ->
  localDate host now' = localDate host today ->
  - JSDate.msPerDay <= LocalTZA host <= JSDate.msPerDay ->
  - 269880 <= JSDate.getFullYear (LocalTZA host) today <= 270120 ->
  let written := (year, m - 1, d) in
  let earliest := yearsEarlier 120 (localDate host today) in
  (dateBefore (localDate host today) written ->
   parseDateOfBirth host today now' dobString = None)
  /\ (dateBefore written earliest ->
      parseDateOfBirth host today now' dobString = None)
  /\ forall dob, parseDateOfBirth host today now' dobString = Some dob ->
       localDate host dob = written
       /\ ~ dateBefore (localDate host today) written
       /\ ~ dateBefore written earliest.
Proof.
  intros Htrim Hparts Hd Hm Hy year Hmonth Hday Hsame Htza Hrange written earliest.
  assert (Hfuture : dateBefore (localDate host today) written ->
                    parseDateOfBirth host today now' dobString = None).
  { apply (written_date_future host today now' dobString dd mm yyyy d m y); try done. lia. }
  assert (Hold : dateBefore written earliest ->
                 parseDateOfBirth host today now' dobString = None).
  { by apply (written_date_old host today now' dobString dd mm yyyy d m y). }
  split; [exact Hfuture|]. split; [exact Hold|].
  intros dob Hdob. split; [|split].
  - pose proof (slash_date_day host today now' dobString dd mm yyyy d m y dob
                  Htrim Hparts Hd Hm Hy Hmonth Hdob) as Hdays.
    destruct (fields_of_day (JSDate.LocalTime (LocalTZA host) dob) year (m - 1) d)
      as (Hy' & Hm' & Hd'); [lia|exact Hday|exact Hdays|].
    unfold localDate, written, JSDate.getFullYear, JSDate.getMonth, JSDate.getDate.
    by rewrite Hy', Hm', Hd'.
  - intros H. apply Hfuture in H. congruence.
  - intros H. apply Hold in H. congruence.
Qed.

Lemma written_date_in_range_witness :
  let today := 1793600000000 in
  parseDateOfBirth exampleHost today today "15/06/2030" = None
  /\ parseDateOfBirth exampleHost today today "15/06/1900" = None
  /\ localDate exampleHost 961007400000 = (2000, 5, 15).
Proof.
  intros today. split; [|split].
  - destruct (written_date_in_range exampleHost today today "15/06/2030" "15" "06" "2030"
                15 6 2030) as (Hfuture & _ & _);
      [vm_compute; reflexivity | repeat constructor | vm_compute; reflexivity
      | vm_compute; reflexivity | vm_compute; reflexivity | lia
      | vm_compute; split; discriminate | exact eq_refl
      | vm_compute; split; discriminate | vm_compute; split; discriminate |].
    apply Hfuture. vm_compute. left. reflexivity.
  - destruct (written_date_in_range exampleHost today today "15/06/1900" "15" "06" "1900"
                15 6 1900) as (_ & Hold & _);
      [vm_compute; reflexivity | repeat constructor | vm_compute; reflexivity
      | vm_compute; reflexivity | vm_compute; reflexivity | lia
      | vm_compute; split; discriminate | exact eq_refl
      | vm_compute; split; discriminate | vm_compute; split; discriminate |].
    apply Hold. vm_compute. left. reflexivity.
  - destruct (written_date_in_range exampleHost today today "15/06/2000" "15" "06" "2000"
                15 6 2000) as (_ & _ & Hreturned);
      [vm_compute; reflexivity | repeat constructor | vm_compute; reflexivity
      | vm_compute; reflexivity | vm_compute; reflexivity | lia
      | vm_compute; split; discriminate | exact eq_refl
      | vm_compute; split; discriminate | vm_compute; split; discriminate |].
    apply (Hreturned 961007400000). vm_compute. reflexivity.
Defined.
